(** * CANOPI engine: a shallow embedding of [canopi_engine] and its specification

    The Python sources embedded here are
    - [models/network.py]                       (module [Net]),
    - [algorithms/cycle_basis.py]               (module [CycleBasis]),
    - the PTDF / LODF loop shared by two files  (module [Kernel]),
    - [algorithms/transmission_correction.py]   (module [Corr]),
    - [solvers/gurobi_interface.py]             (module [Gurobi]),
    - [models/capacity_decision.py] and
      [models/operational.py]                   (module [Cap]),
    - [algorithms/operational_subproblem.py]    (module [Oper]),
    - [algorithms/bundle_method.py]             (module [Bundle]).
    The properties follow the definitions, one module of lemmas per source
    module.

    Conventions.  IEEE doubles are idealised as exact rationals [Q]; the
    comparisons of the source ([<], [>], [==]) become [Qlt], [Qle], [Qeq].
    A Python exception is a value [Raise e] of the error monad [res]; numpy
    arrays carry their shape, because the source relies on numpy's shape
    checks.  The LP/IP solver behind gurobipy is not part of the repository:
    what the source does with its answer is embedded, the answer itself is
    described by the optimality conditions of the model the source builds. *)

From Stdlib Require Import String List ZArith QArith Qabs Qround Bool Arith Lia Lqa.
Import ListNotations.

Set Implicit Arguments.

(* ================================================================= *)
(** ** Exceptions *)

Inductive exn : Type :=
| ValueError      (* numpy shape mismatch *)
| IndexError      (* index out of range *)
| LinAlgError     (* numpy.linalg: singular or non-square matrix *)
| AssertionError
| Hang.           (* not an exception: the call does not return *)

Inductive res (A : Type) : Type :=
| Ok (a : A)
| Raise (e : exn).
Arguments Ok {A} a.
Arguments Raise {A} e.

Definition bind {A B} (m : res A) (k : A -> res B) : res B :=
  match m with
  | Ok a => k a
  | Raise e => Raise e
  end.

Declare Scope res_scope.
Delimit Scope res_scope with res.
Notation "x <- m ;; k" := (bind m (fun x => k))
  (at level 61, m at next level, right associativity) : res_scope.
Notation "' pat <- m ;; k" := (bind m (fun x => match x with pat => k end))
  (at level 61, pat pattern, m at next level, right associativity) : res_scope.
Open Scope res_scope.

Definition of_option {A} (e : exn) (o : option A) : res A :=
  match o with
  | Some a => Ok a
  | None => Raise e
  end.

Fixpoint mapM {A B} (f : A -> res B) (l : list A) : res (list B) :=
  match l with
  | [] => Ok []
  | a :: l' => b <- f a ;; bs <- mapM f l' ;; Ok (b :: bs)
  end.

(* ================================================================= *)
(** ** Rational vectors and matrices with numpy's shape discipline *)

Open Scope Q_scope.

Definition vec := list Q.

Definition Qltb (a b : Q) : bool := negb (Qle_bool b a).
Definition Qmax (a b : Q) : Q := if Qle_bool a b then b else a.
Definition Qmin (a b : Q) : Q := if Qle_bool a b then a else b.

Definition vsum (v : vec) : Q := fold_left Qplus v 0.

(** [u @ v] for one-dimensional arrays: numpy raises [ValueError] when the
    lengths differ. *)
Fixpoint dot_aux (u v : vec) : Q :=
  match u, v with
  | a :: u', b :: v' => a * b + dot_aux u' v'
  | _, _ => 0
  end.

Definition dot (u v : vec) : res Q :=
  if Nat.eqb (length u) (length v) then Ok (Qred (dot_aux u v)) else Raise ValueError.

(** Elementwise operation on one-dimensional arrays with numpy broadcasting:
    equal lengths, or one operand of length one. *)
Definition broadcast2 (f : Q -> Q -> Q) (u v : vec) : res vec :=
  if Nat.eqb (length u) (length v)
  then Ok (map (fun p => f (fst p) (snd p)) (combine u v))
  else match u, v with
       | [a], _ => Ok (map (f a) v)
       | _, [c] => Ok (map (fun x => f x c) u)
       | _, _ => Raise ValueError
       end.

Definition vsub : vec -> vec -> res vec := broadcast2 Qminus.
Definition vadd : vec -> vec -> res vec := broadcast2 Qplus.
Definition vmul : vec -> vec -> res vec := broadcast2 Qmult.
Definition vdiv : vec -> vec -> res vec := broadcast2 Qdiv.

(** A two-dimensional array: the shape is stored, so that arrays with an
    empty axis keep the other extent, as in numpy. *)
Record matrix : Type := Mat {
  nrows : nat;
  ncols : nat;
  mdata : list (list Q)
}.

Definition zeros (r c : nat) : matrix := Mat r c (repeat (repeat 0 c) r).

Definition mrow (M : matrix) (i : nat) : res vec :=
  of_option IndexError (nth_error (mdata M) i).

Definition mcol (M : matrix) (j : nat) : res vec :=
  if Nat.ltb j (ncols M)
  then Ok (map (fun r => nth j r 0) (mdata M))
  else Raise IndexError.

Definition mget (M : matrix) (i j : nat) : res Q :=
  r <- mrow M i ;; of_option IndexError (nth_error r j).

Fixpoint list_set {A} (l : list A) (i : nat) (a : A) : list A :=
  match l, i with
  | [], _ => []
  | _ :: l', O => a :: l'
  | b :: l', S i' => b :: list_set l' i' a
  end.

Definition mset (M : matrix) (i j : nat) (a : Q) : res matrix :=
  if andb (Nat.ltb i (nrows M)) (Nat.ltb j (ncols M))
  then Ok (Mat (nrows M) (ncols M)
               (list_set (mdata M) i (list_set (nth i (mdata M) []) j a)))
  else Raise IndexError.

Definition transpose (M : matrix) : matrix :=
  Mat (ncols M) (nrows M)
      (map (fun j => map (fun r => nth j r 0) (mdata M)) (seq 0 (ncols M))).

(** [M @ N]: numpy raises [ValueError] unless the inner extents agree. *)
Definition matmul (M N : matrix) : res matrix :=
  if Nat.eqb (ncols M) (nrows N)
  then
    let Nt := mdata (transpose N) in
    Ok (Mat (nrows M) (ncols N)
            (map (fun r => map (fun c => Qred (dot_aux r c)) Nt) (mdata M)))
  else Raise ValueError.

(** [np.diag v] *)
Definition diag (v : vec) : matrix :=
  let n := length v in
  Mat n n (map (fun i => map (fun j => if Nat.eqb i j then nth i v 0 else 0) (seq 0 n))
               (seq 0 n)).

(** [M[1:, :]] *)
Definition drop_first_row (M : matrix) : matrix :=
  Mat (pred (nrows M)) (ncols M) (tl (mdata M)).

(** *** [np.linalg.inv] by Gauss-Jordan elimination on [M | I].
    [LinAlgError] when the matrix is not square or a pivot cannot be found. *)

Definition is_zero (q : Q) : bool := Qeq_bool q 0.

Fixpoint find_pivot (rows : list (list Q)) (c : nat) : option (nat) :=
  match rows with
  | [] => None
  | r :: rows' =>
      if is_zero (nth c r 0) then option_map S (find_pivot rows' c) else Some O
  end.

Definition row_scale (k : Q) (r : list Q) : list Q := map (fun a => Qred (k * a)) r.

Definition row_sub (r p : list Q) (k : Q) : list Q :=
  map (fun ab => Qred (fst ab - k * snd ab)) (combine r p).

Definition swap_rows (rows : list (list Q)) (i j : nat) : list (list Q) :=
  let ri := nth i rows [] in
  let rj := nth j rows [] in
  list_set (list_set rows i rj) j ri.

(** One elimination step on column [c]: rows [0..c-1] are already reduced. *)
Definition eliminate (rows : list (list Q)) (c : nat) : option (list (list Q)) :=
  match find_pivot (skipn c rows) c with
  | None => None
  | Some k =>
      let rows1 := swap_rows rows c (c + k) in
      let p := nth c rows1 [] in
      let p' := row_scale (/ nth c p 0) p in
      Some (map (fun ir =>
                   if Nat.eqb (fst ir) c then p'
                   else row_sub (snd ir) p' (nth c (snd ir) 0))
                (combine (seq 0 (length rows1)) rows1))
  end.

Fixpoint gauss_jordan (rows : list (list Q)) (cs : list nat) : option (list (list Q)) :=
  match cs with
  | [] => Some rows
  | c :: cs' =>
      match eliminate rows c with
      | None => None
      | Some rows' => gauss_jordan rows' cs'
      end
  end.

Definition inv (M : matrix) : res matrix :=
  if negb (Nat.eqb (nrows M) (ncols M)) then Raise LinAlgError
  else
    let n := nrows M in
    let aug := map (fun ir => snd ir ++ map (fun j => if Nat.eqb (fst ir) j then 1 else 0)
                                        (seq 0 n))
                   (combine (seq 0 n) (mdata M)) in
    match gauss_jordan aug (seq 0 n) with
    | None => Raise LinAlgError
    | Some rows => Ok (Mat n n (map (skipn n) rows))
    end.

(* ================================================================= *)
(** ** [models/network.py] *)

Module Net.

(** The dataclasses of the source; the descriptive fields (name, latitude,
    longitude, length) play no role in the engine and are left out. *)
Record Node : Type := {
  node_id : nat;
  voltage_kv : nat;
  is_slack : bool
}.

Record Branch : Type := {
  from_node : nat;
  to_node : nat;
  capacity_mw : Q;      (* w_br *)
  impedance : Q         (* chi_0 *)
}.

Record HVDCLine : Type := {
  dc_from_node : nat;
  dc_to_node : nat;
  dc_capacity_mw : Q
}.

Record Network : Type := {
  nodes : list Node;
  branches : list Branch;
  hvdc_lines : list HVDCLine
}.

Definition n (net : Network) : nat := length (nodes net).
Definition b (net : Network) : nat := length (branches net).
Definition beta (net : Network) : nat := length (hvdc_lines net).

(** [_build_branch_incidence_matrix]: column [j] gets [-1] at the from-bus
    and then [1] at the to-bus. *)
Fixpoint fill_incidence (A : matrix) (j : nat) (ends : list (nat * nat)) : res matrix :=
  match ends with
  | [] => Ok A
  | (f, t) :: ends' =>
      A1 <- mset A f j (-1) ;;
      A2 <- mset A1 t j 1 ;;
      fill_incidence A2 (S j) ends'
  end.

Definition _build_branch_incidence_matrix (net : Network) : res matrix :=
  fill_incidence (zeros (n net) (b net)) 0
                 (map (fun br => (from_node br, to_node br)) (branches net)).

Definition _build_hvdc_incidence_matrix (net : Network) : res matrix :=
  fill_incidence (zeros (n net) (beta net)) 0
                 (map (fun l => (dc_from_node l, dc_to_node l)) (hvdc_lines net)).

Definition A_br := _build_branch_incidence_matrix.

Definition A_dc (net : Network) : res matrix :=
  match hvdc_lines net with
  | [] => Ok (zeros (n net) 0)
  | _ => _build_hvdc_incidence_matrix net
  end.

Definition get_branch_capacities (net : Network) : vec :=
  map capacity_mw (branches net).

Definition get_branch_impedances (net : Network) : vec :=
  map impedance (branches net).

(** [get_susceptances]: with capacity additions the impedance is
    [impedances * w_br / (w_br + capacity_additions)]. *)
Definition get_susceptances (net : Network) (capacity_additions : option vec) : res vec :=
  let impedances := get_branch_impedances net in
  impedances <-
    match capacity_additions with
    | None => Ok impedances
    | Some x =>
        let w_br := get_branch_capacities net in
        zw <- vmul impedances w_br ;;
        wx <- vadd w_br x ;;
        vdiv zw wx
    end ;;
  Ok (map (fun z => Qred (1 / z)) impedances).

(** [identify_non_islanding_branches]: the source returns every index. *)
Definition identify_non_islanding_branches (net : Network) : list nat :=
  seq 0 (b net).

(** *** Graph notions used to state what a bridge is *)

Definition edges_of (brs : list Branch) : list (nat * nat) :=
  map (fun br => (from_node br, to_node br)) brs.

Fixpoint remove_nth {A} (i : nat) (l : list A) : list A :=
  match l, i with
  | [], _ => []
  | _ :: l', O => l'
  | a :: l', S i' => a :: remove_nth i' l'
  end.

Inductive reach (es : list (nat * nat)) : nat -> nat -> Prop :=
| reach_refl u : reach es u u
| reach_step u v w :
    In (u, v) es \/ In (v, u) es -> reach es v w -> reach es u w.

(** Branch [j] is a bridge when, once it is removed, its two end buses are
    no longer joined by a path: its removal disconnects the graph. *)
Definition is_bridge (net : Network) (j : nat) : Prop :=
  exists br, nth_error (branches net) j = Some br /\
             ~ reach (edges_of (remove_nth j (branches net)))
                     (from_node br) (to_node br).

Definition mk_node (i : nat) (slack : bool) : Node :=
  {| node_id := i; voltage_kv := 345; is_slack := slack |}.

Definition mk_branch (f t : nat) (w z : Q) : Branch :=
  {| from_node := f; to_node := t; capacity_mw := w; impedance := z |}.

(** Two buses joined by one line: the line is a bridge. *)
Definition two_bus : Network :=
  {| nodes := [mk_node 0 true; mk_node 1 false];
     branches := [mk_branch 0 1 100 (1 # 10)];
     hvdc_lines := [] |}.

(** A path 0 - 1 - 2: both lines are bridges, and [b = n - 1]. *)
Definition path3 : Network :=
  {| nodes := [mk_node 0 true; mk_node 1 false; mk_node 2 false];
     branches := [mk_branch 0 1 100 (1 # 10); mk_branch 1 2 100 (1 # 10)];
     hvdc_lines := [] |}.

(** The triangle of scenario S1. *)
Definition triangle : Network :=
  {| nodes := [mk_node 0 true; mk_node 1 false; mk_node 2 false];
     branches := [mk_branch 0 1 50 (1 # 10); mk_branch 1 2 50 (1 # 10);
                  mk_branch 0 2 50 (1 # 10)];
     hvdc_lines := [] |}.

End Net.

(* ================================================================= *)
(** ** [algorithms/cycle_basis.py] *)

Module CycleBasis.

(** [np.where(v == a)[0][0]]: the first index holding [a]. *)
Fixpoint first_index (v : vec) (a : Q) : res nat :=
  match v with
  | [] => Raise IndexError
  | c :: v' => if Qeq_bool c a then Ok O else i <- first_index v' a ;; Ok (S i)
  end.

Definition end_nodes (A : matrix) (j : nat) : res (nat * nat) :=
  col <- mcol A j ;;
  from_node <- first_index col (-1) ;;
  to_node <- first_index col 1 ;;
  Ok (from_node, to_node).

(** The list [edges] of triples [(from_node, to_node, j)]. *)
Definition edge_list (A : matrix) : res (list (nat * nat * nat)) :=
  mapM (fun j => '(f, t) <- end_nodes A j ;; Ok (f, t, j)) (seq 0 (ncols A)).

Definition mem (i : nat) (l : list nat) : bool := existsb (Nat.eqb i) l.

(** The [for ... in edges] scan of one pass of the search: the first unused
    edge leading from [node] to an unvisited node. *)
Fixpoint scan_edges (edges : list (nat * nat * nat)) (node : nat)
         (visited tree_edges : list nat) : option (nat * nat) :=
  match edges with
  | [] => None
  | (from_node, to_node, edge_idx) :: rest =>
      if mem edge_idx tree_edges then scan_edges rest node visited tree_edges
      else if andb (Nat.eqb from_node node) (negb (mem to_node visited))
           then Some (to_node, edge_idx)
      else if andb (Nat.eqb to_node node) (negb (mem from_node visited))
           then Some (from_node, edge_idx)
      else scan_edges rest node visited tree_edges
  end.

(** [while stack and len(tree_edges) < n - 1]; the stack is kept with its
    top first.  A pass either pushes a new tree edge or pops; the recursion
    is bounded by a number of passes and reports [Hang] beyond it. *)
Fixpoint dfs (fuel : nat) (edges : list (nat * nat * nat)) (n : nat)
         (visited stack tree_edges : list nat) : res (list nat) :=
  match fuel with
  | O => Raise Hang
  | S fuel' =>
      match stack with
      | [] => Ok tree_edges
      | node :: below =>
          if Z.ltb (Z.of_nat (length tree_edges)) (Z.of_nat n - 1) then
            match scan_edges edges node visited tree_edges with
            | Some (next, edge_idx) =>
                dfs fuel' edges n (visited ++ [next]) (next :: stack)
                    (tree_edges ++ [edge_idx])
            | None => dfs fuel' edges n visited below tree_edges
            end
          else Ok tree_edges
      end
  end.

(** [np.zeros((n_c, b))] raises [ValueError] on a negative extent. *)
Definition zeros_Z (r : Z) (c : nat) : res matrix :=
  if Z.ltb r 0 then Raise ValueError else Ok (zeros (Z.to_nat r) c).

(** [for cycle_idx, non_tree_edge in enumerate(non_tree_edges)] *)
Fixpoint mark_non_tree (C : matrix) (cycle_idx : nat) (non_tree_edges : list nat)
  : res matrix :=
  match non_tree_edges with
  | [] => Ok C
  | non_tree_edge :: rest =>
      C' <- mset C cycle_idx non_tree_edge 1 ;;
      mark_non_tree C' (S cycle_idx) rest
  end.

(** [compute_fundamental_cycle_basis]: each row marks one non-tree edge and
    nothing else (the tree path is a TODO in the source). *)
Definition compute_fundamental_cycle_basis (incidence_matrix : matrix) : res matrix :=
  let n := nrows incidence_matrix in
  let b := ncols incidence_matrix in
  let n_c := (Z.of_nat b - Z.of_nat n + 1)%Z in
  edges <- edge_list incidence_matrix ;;
  tree_edges <- dfs (2 * b + 2) edges n [O] [O] [] ;;
  let non_tree_edges := filter (fun j => negb (mem j tree_edges)) (seq 0 b) in
  C <- zeros_Z n_c b ;;
  mark_non_tree C 0 non_tree_edges.

(** *** The integer program (26) *)

(** The solver behind [solve_shortest_cycle_ip] is external; every failure
    is caught by the source and turned into [None].  The oracle below
    enumerates the selections [w] with [w[kappa_hat] = 1] and returns a
    mod-2 sum [v] with the fewest ones (the first one found). *)
Fixpoint selections (k : nat) : list (list bool) :=
  match k with
  | O => [[]]
  | S k' => flat_map (fun w => [false :: w; true :: w]) (selections k')
  end.

Definition mod2_sum (C : matrix) (w : list bool) : option vec :=
  let selected := map snd (filter fst (combine w (mdata C))) in
  let sums := map (fun j => vsum (map (fun r => nth j r 0) selected)) (seq 0 (ncols C)) in
  if forallb (fun a => Pos.eqb (Qden (Qred a)) 1) sums
  then Some (map (fun a => inject_Z (Z.modulo (Qnum (Qred a)) 2)) sums)
  else None.

Fixpoint shortest (cands : list vec) (best : option vec) : option vec :=
  match cands with
  | [] => best
  | v :: rest =>
      match best with
      | None => shortest rest (Some v)
      | Some v0 => if Qltb (vsum v) (vsum v0) then shortest rest (Some v)
                   else shortest rest best
      end
  end.

Definition solve_shortest_cycle_ip (C : matrix) (kappa_hat : nat) : option vec :=
  let ws := filter (fun w => nth kappa_hat w false) (selections (nrows C)) in
  let vs := flat_map (fun w => match mod2_sum C w with Some v => [v] | None => [] end) ws in
  shortest vs None.

(** *** Orientation *)

(** [np.where(row > 0)[0]] *)
Definition positive_indices (row : vec) : list nat :=
  map fst (filter (fun iv => Qltb 0 (snd iv)) (combine (seq 0 (length row)) row)).

(** One [for edge_idx in remaining] scan: the first remaining edge that
    touches [current_node], its sign and the node reached.  The remaining
    set is scanned in increasing order. *)
Fixpoint next_edge (A : matrix) (current_node : nat) (remaining : list nat)
  : res (option (nat * Q * nat)) :=
  match remaining with
  | [] => Ok None
  | edge_idx :: rest =>
      '(edge_from, edge_to) <- end_nodes A edge_idx ;;
      if Nat.eqb edge_from current_node then Ok (Some (edge_idx, 1, edge_to))
      else if Nat.eqb edge_to current_node then Ok (Some (edge_idx, -1, edge_from))
      else next_edge A current_node rest
  end.

(** [while remaining]: a scan that finds nothing changes nothing, and the
    loop never ends. *)
Fixpoint walk (fuel : nat) (A : matrix) (D : matrix) (kappa current_node : nat)
         (remaining : list nat) : res matrix :=
  match remaining with
  | [] => Ok D
  | _ =>
      match fuel with
      | O => Raise Hang
      | S fuel' =>
          found <- next_edge A current_node remaining ;;
          match found with
          | None => Raise Hang
          | Some (edge_idx, sign, next) =>
              D' <- mset D kappa edge_idx sign ;;
              walk fuel' A D' kappa next
                   (filter (fun j => negb (Nat.eqb j edge_idx)) remaining)
          end
      end
  end.

Definition orient_cycle (A : matrix) (C_undirected : matrix) (D : matrix) (kappa : nat)
  : res matrix :=
  row <- mrow C_undirected kappa ;;
  match positive_indices row with
  | [] => Ok D
  | first_edge :: rest =>
      '(from_node, to_node) <- end_nodes A first_edge ;;
      D' <- mset D kappa first_edge 1 ;;
      walk (length rest) A D' kappa to_node rest
  end.

(** [assign_cycle_orientations] *)
Definition assign_cycle_orientations (C_undirected incidence_matrix : matrix) : res matrix :=
  let n_c := nrows C_undirected in
  let b := ncols C_undirected in
  fold_left (fun D kappa => D <- D ;; orient_cycle incidence_matrix C_undirected D kappa)
            (seq 0 n_c) (Ok (zeros n_c b)).

Definition mabs (M : matrix) : matrix :=
  Mat (nrows M) (ncols M) (map (map Qabs) (mdata M)).

(** One pass of [for kappa in range(n_c)] in [compute_minimal_cycle_basis]. *)
Definition improve (ip : matrix -> nat -> option vec) (C_undirected : matrix) (kappa : nat)
  : res matrix :=
  row <- mrow C_undirected kappa ;;
  match ip C_undirected kappa with
  | Some v_star =>
      if Qltb (vsum v_star) (vsum row) then
        if Nat.eqb (length v_star) (ncols C_undirected)
        then Ok (Mat (nrows C_undirected) (ncols C_undirected)
                     (list_set (mdata C_undirected) kappa v_star))
        else Raise ValueError
      else Ok C_undirected
  | None => Ok C_undirected
  end.

(** [compute_minimal_cycle_basis] *)
Definition compute_minimal_cycle_basis (ip : matrix -> nat -> option vec)
           (incidence_matrix : matrix) (initial_basis : option matrix) : res matrix :=
  let n := nrows incidence_matrix in
  let b := ncols incidence_matrix in
  let n_c := (Z.of_nat b - Z.of_nat n + 1)%Z in
  C <- match initial_basis with
       | None => compute_fundamental_cycle_basis incidence_matrix
       | Some C0 => Ok C0
       end ;;
  if negb (andb (Z.eqb (Z.of_nat (nrows C)) n_c) (Nat.eqb (ncols C) b))
  then Raise AssertionError
  else
    C_undirected <- fold_left (fun C kappa => C <- C ;; improve ip C kappa)
                              (seq 0 (Z.to_nat n_c)) (Ok (mabs C)) ;;
    assign_cycle_orientations C_undirected incidence_matrix.

(** *** The validation of the specification *)

(** [D . A^T = 0]: every row of [D] is a closed cycle. *)
Definition closed_cycles (D A : matrix) : Prop :=
  matmul D (transpose A) = Ok (zeros (nrows D) (nrows A)).

Definition entries_in_unit (D : matrix) : Prop :=
  Forall (Forall (fun a => a == -1 \/ a == 0 \/ a == 1)) (mdata D).

(** Feasibility for the integer program (26): [v] is binary and is the
    mod-2 sum of a selection [w] of rows with [w[kappa_hat] = 1]. *)
Definition ip_feasible (C : matrix) (kappa_hat : nat) (v : vec) : Prop :=
  exists (w : list bool) (u : list Z),
    length w = nrows C /\
    nth kappa_hat w false = true /\
    length v = ncols C /\
    Forall (fun a => a == 0 \/ a == 1) v /\
    forall j, (j < ncols C)%nat ->
      vsum (map (fun r => nth j r 0) (map snd (filter fst (combine w (mdata C)))))
      == inject_Z (2 * nth j u 0%Z) + nth j v 0.

(** The incidence matrix of the triangle 0 - 1 - 2 with the branches
    0 -> 1, 1 -> 2 and 0 -> 2. *)
Definition A_triangle : matrix := Mat 3 3 [[-1; 0; -1]; [1; -1; 0]; [0; 1; 1]].

End CycleBasis.

(* ================================================================= *)
(** ** The PTDF / LODF kernel
    It occurs twice in the source, in
    [OperationalSubproblem._compute_power_transfer_matrices] and in
    [transmission_correction.compute_power_transfer_matrices]; the loop that
    fills the LODF matrix is the same in both. *)

Module Kernel.

(** The threshold of the source: [if abs(denominator) > 1e-6]. *)
Definition lodf_threshold : Q := 1 # 1000000.

Definition numerator (PTDF A : matrix) (i j : nat) : res Q :=
  pi <- mrow PTDF i ;; aj <- mcol A j ;; dot pi aj.

Definition denominator (PTDF A : matrix) (j : nat) : res Q :=
  pj <- mrow PTDF j ;; aj <- mcol A j ;; d <- dot pj aj ;; Ok (1 - d).

(** Entry [(i, j)] after the double loop over a zero-initialised matrix. *)
Definition lodf_entry (PTDF A : matrix) (i j : nat) : res Q :=
  if Nat.eqb i j then Ok 0
  else
    num <- numerator PTDF A i j ;;
    den <- denominator PTDF A j ;;
    if Qltb lodf_threshold (Qabs den) then Ok (num / den) else Ok 0.

Definition fill_LODF (PTDF A : matrix) (b : nat) : res matrix :=
  rows <- mapM (fun i => mapM (fun j => lodf_entry PTDF A i j) (seq 0 b)) (seq 0 b) ;;
  Ok (Mat b b rows).

(** [B @ A @ inv(A.T @ B @ A)]; the products are evaluated left to right. *)
Definition ATBA (A B : matrix) : res matrix :=
  AtB <- matmul (transpose A) B ;; matmul AtB A.

Definition PTDF_of (A B ATBA_inv : matrix) : res matrix :=
  BA <- matmul B A ;; matmul BA ATBA_inv.

End Kernel.

(* ================================================================= *)
(** ** [algorithms/transmission_correction.py] *)

Module Corr.

Import Net Kernel.

(** [compute_power_transfer_matrices]: the whole computation sits in one
    [try]; only [LinAlgError] is caught. *)
Definition compute_power_transfer_matrices (net : Network) (x_br : vec)
  : res (matrix * matrix) :=
  susceptances <- get_susceptances net (Some x_br) ;;
  let B := diag susceptances in
  Abr <- A_br net ;;
  let A := drop_first_row Abr in
  let n_minus_1 := nrows A in
  let b := ncols A in
  M <- ATBA A B ;;
  match inv M with
  | Raise LinAlgError => Ok (zeros b n_minus_1, zeros b b)
  | Raise e => Raise e
  | Ok ATBA_inv =>
      PTDF <- PTDF_of A B ATBA_inv ;;
      LODF <- fill_LODF PTDF A b ;;
      Ok (PTDF, LODF)
  end.

(** [sorted(l, reverse=True)] *)
Fixpoint insert_desc (a : Q) (l : list Q) : list Q :=
  match l with
  | [] => [a]
  | c :: l' => if Qle_bool c a then a :: l else c :: insert_desc a l'
  end.

Definition sorted_desc (l : list Q) : list Q := fold_right insert_desc [] l.

(** Python [max] of a non-empty list. *)
Definition list_max (l : list Q) : Q :=
  match l with
  | [] => 0
  | a :: l' => fold_left Qmax l' a
  end.

(** [np.clip(a, lo, hi)] *)
Definition clip (a lo hi : Q) : Q := Qmin (Qmax a lo) hi.

(** Python list indexing by an integer that may be negative. *)
Definition py_index (l : list Q) (k : Z) : res Q :=
  let len := Z.of_nat (length l) in
  if Z.leb 0 k then of_option IndexError (nth_error l (Z.to_nat k))
  else if Z.leb (- len) k then of_option IndexError (nth_error l (Z.to_nat (len + k)))
  else Raise IndexError.

(** [p_ni[t, 1:]] *)
Definition injections (p_ni : matrix) (t : nat) : res vec :=
  r <- mrow p_ni t ;; Ok (tl r).

(** The two violation lists of one scenario and one period, lines 72-90. *)
Definition period_deltas (net : Network) (PTDF LODF : matrix) (eta_c : Q)
           (w_i : Q) (i : nat) (p_ni : matrix) (t : nat) : res (Q * list Q) :=
  inj <- injections p_ni t ;;
  Pi <- mrow PTDF i ;;
  p_br_i <- dot Pi inj ;;
  let delta_base_ti := Qmax (Qabs p_br_i - w_i) 0 in
  conts <- mapM (fun j =>
             if andb (negb (Nat.eqb i j))
                     (existsb (Nat.eqb j) (identify_non_islanding_branches net))
             then
               Pj <- mrow PTDF j ;;
               p_br_j <- dot Pj inj ;;
               l <- mget LODF i j ;;
               let p_brc_ij := p_br_i + l * p_br_j in
               let delta_cont_tij := Qmax (Qabs p_brc_ij - eta_c * w_i) 0 in
               Ok [delta_cont_tij / eta_c]
             else Ok [])
           (seq 0 (b net)) ;;
  Ok (delta_base_ti, concat conts).

Definition branch_deltas (net : Network) (PTDF LODF : matrix) (eta_c : Q)
           (w_i : Q) (i : nat) (p_ni_star : list matrix) : res (list Q * list Q) :=
  per <- mapM (fun p_ni =>
                 mapM (period_deltas net PTDF LODF eta_c w_i i p_ni)
                      (seq 0 (nrows p_ni)))
              p_ni_star ;;
  let flat := concat per in
  Ok (map fst flat, concat (map snd flat)).

(** Lines 92-114 for one branch. *)
Definition branch_update (w_i c_br_i eta_c c_vio : Q)
           (delta_base delta_cont : list Q) : res Q :=
  let x_br_lb_i := match delta_base with [] => 0 | _ => list_max delta_base end in
  let r_i := c_br_i / (eta_c * c_vio) in
  x_opt_i <-
    match delta_cont with
    | [] => Ok 0
    | _ =>
        let delta_cont_sorted := sorted_desc delta_cont in
        let r_i_int := Qceiling r_i in
        if Z.ltb r_i_int (Z.of_nat (length delta_cont_sorted))
        then py_index delta_cont_sorted r_i_int
        else Ok 0
    end ;;
  let x_br_max_i := w_i * 2 in
  Ok (clip (Qmax x_br_lb_i x_opt_i) 0 x_br_max_i).

Definition default_c_br (b : nat) : vec := repeat 1000000 b.

(** [transmission_correction_rtep]; [x_non_br] is not read by the source. *)
Definition transmission_correction_rtep (net : Network) (p_ni_star : list matrix)
           (x_br_hat : vec) (eta_c : Q) (c_br : option vec) (c_vio : Q) : res vec :=
  let c_br := match c_br with None => default_c_br (b net) | Some c => c end in
  '(PTDF, LODF) <- compute_power_transfer_matrices net x_br_hat ;;
  mapM (fun i =>
          br <- of_option IndexError (nth_error (branches net) i) ;;
          let w_i := capacity_mw br in
          '(delta_base, delta_cont) <- branch_deltas net PTDF LODF eta_c w_i i p_ni_star ;;
          c_br_i <- of_option IndexError (nth_error c_br i) ;;
          branch_update w_i c_br_i eta_c c_vio delta_base delta_cont)
       (seq 0 (b net)).

(** *** The outer fixed point [iterative_transmission_correction]

    [np.linalg.norm] takes a floating-point square root; the rounding
    function is a parameter of the development. *)
Section Iterative.

Variable fsqrt : Q -> Q.

Definition norm (v : vec) : Q := fsqrt (vsum (map (fun a => a * a) v)).

(** [np.linalg.norm(x_br_tilde - x_br_hat) / (1.0 + np.linalg.norm(x_br_hat))] *)
Definition rel_change (x_br_tilde x_br_hat : vec) : res Q :=
  d <- vsub x_br_tilde x_br_hat ;;
  Ok (norm d / (1 + norm x_br_hat)).

Definition default_max_iterations : nat := 10.
Definition default_tolerance : Q := 1 # 1000.

(** The call inside the loop leaves [eta_c], [c_br] and [c_vio] at their
    defaults. *)
Definition E (net : Network) (p_ni_star : list matrix) (x_br_hat : vec) : res vec :=
  transmission_correction_rtep net p_ni_star x_br_hat 1 None 2000.

(** [for iteration in range(max_iterations)], with the code after the loop
    as the base case. *)
Fixpoint corr_loop (net : Network) (p_ni_star : list matrix) (tolerance : Q)
         (remaining : nat) (x_br_hat : vec) : res (vec * bool) :=
  match remaining with
  | O => Ok (x_br_hat, false)
  | S remaining' =>
      x_br_tilde <- E net p_ni_star x_br_hat ;;
      diff <- rel_change x_br_tilde x_br_hat ;;
      if Qltb diff tolerance then Ok (x_br_tilde, true)
      else corr_loop net p_ni_star tolerance remaining' x_br_tilde
  end.

Definition iterative_transmission_correction (net : Network)
           (p_ni_star : list matrix) (x_br_initial : vec)
           (max_iterations : option nat) (tolerance : option Q) : res (vec * bool) :=
  let max_iterations :=
    match max_iterations with Some m => m | None => default_max_iterations end in
  let tolerance :=
    match tolerance with Some t => t | None => default_tolerance end in
  corr_loop net p_ni_star tolerance max_iterations x_br_initial.

End Iterative.

(** *** Concrete inputs *)

(** One scenario with three periods on the path 0 - 1 - 2: bus 2 injects
    130 MW, then 110 MW, then 105 MW. *)
Definition p_ni_path3 : list matrix :=
  [Mat 3 3 [[0; 0; 130]; [0; 0; 110]; [0; 0; 105]]].

(** The cost of the separable sub-problem of one branch (section 4.7 of the
    specification): investment plus priced contingency violations. *)
Definition branch_cost (c_br_i eta_c c_vio : Q) (deltas : list Q) (x : Q) : Q :=
  c_br_i * x + eta_c * c_vio * vsum (map (fun d => Qmax (d - x) 0) deltas).


(** A PTDF whose self-sensitivity on branch 1 leaves a denominator of
    [1e-7], between the two thresholds. *)
Definition PTDF_band : matrix := Mat 2 2 [[0; 1]; [0; 9999999 # 10000000]].
Definition A_band : matrix := Mat 2 2 [[1; 0]; [0; 1]].

(** A square root that is exact on the perfect squares used below. *)
Definition sqrt_floor (q : Q) : Q := inject_Z (Z.sqrt (Qfloor q)).

End Corr.

(* ================================================================= *)
(** ** [solvers/gurobi_interface.py] *)

Module Gurobi.

(** A gurobipy variable is identified by the name of its family and its
    indices; a constraint carries its name in the same form. *)
Definition var : Type := (string * list nat)%type.

Definition var_eqb (u v : var) : bool :=
  andb (String.eqb (fst u) (fst v))
       (if list_eq_dec Nat.eq_dec (snd u) (snd v) then true else false).

(** A linear expression: terms [coefficient * variable] and a constant. *)
Record linexpr : Type := LinExpr {
  terms : list (Q * var);
  constant : Q
}.

Definition lin_var (v : var) : linexpr := LinExpr [(1, v)] 0.
Definition lin_const (c : Q) : linexpr := LinExpr [] c.
Definition lin_scale (k : Q) (e : linexpr) : linexpr :=
  LinExpr (map (fun cv => (k * fst cv, snd cv)) (terms e)) (k * constant e).
Definition lin_add (e1 e2 : linexpr) : linexpr :=
  LinExpr (terms e1 ++ terms e2) (constant e1 + constant e2).
Definition lin_sub (e1 e2 : linexpr) : linexpr := lin_add e1 (lin_scale (-1) e2).
Definition lin_sum (es : list linexpr) : linexpr := fold_left lin_add es (lin_const 0).

Inductive sense : Type := LE | GE | EQ.

Record constr : Type := Constr {
  cname : string * list nat;
  lhs : linexpr;
  csense : sense;
  rhs : linexpr
}.

(** Bounds of a variable; [None] is an infinite bound. *)
Record var_decl : Type := VarDecl {
  dvar : var;
  lb : option Q;
  ub : option Q
}.

(** The [gp.Model] behind the wrapper: variables, objective (always
    minimised by the engine), constraints. *)
Record Model : Type := {
  mvars : list var_decl;
  mobjective : linexpr;
  mconstrs : list constr
}.

Inductive var_array : Type :=
| Arr1 (vs : list var)
| Arr2 (rows cols : nat) (vs : list (list var)).

Inductive val_array : Type :=
| Val1 (xs : vec)
| Val2 (M : matrix).

(** [GurobiSolver]: the model and the registry [self.vars]. *)
Record GurobiSolver : Type := {
  model : Model;
  vars : list (string * var_array)
}.

Definition new_solver : GurobiSolver :=
  {| model := {| mvars := []; mobjective := lin_const 0; mconstrs := [] |};
     vars := [] |}.

(** [self.model.addVars(...)] followed by [self.vars[name] = var_array]. *)
Definition declare (s : GurobiSolver) (ds : list var_decl)
           (reg : list (string * var_array)) : GurobiSolver :=
  {| model := {| mvars := mvars (model s) ++ ds;
                 mobjective := mobjective (model s);
                 mconstrs := mconstrs (model s) |};
     vars := vars s ++ reg |}.

Definition array_vars (arr : var_array) : list var :=
  match arr with
  | Arr1 vs => vs
  | Arr2 _ _ rows => concat rows
  end.

Definition array2 (name : string) (r c : nat) : var_array :=
  Arr2 r c (map (fun i => map (fun j => (name, [i; j])) (seq 0 c)) (seq 0 r)).

(** [add_continuous_vars(name, shape, lb)]; the upper bound is always left
    at its default, infinity. *)
Definition add_continuous_vars (s : GurobiSolver) (name : string) (shape : list nat)
           (lower : option Q) : res (GurobiSolver * var_array) :=
  arr <-
    match shape with
    | [k] => Ok (Arr1 (map (fun i => (name, [i])) (seq 0 k)))
    | [r; c] => Ok (array2 name r c)
    | _ => Raise ValueError
    end ;;
  Ok (declare s (map (fun v => VarDecl v lower None) (array_vars arr)) [(name, arr)],
      arr).

(** [solver.model.addVar(lb=0, name=...)]: the variable is not registered
    in [self.vars]. *)
Definition addVar (s : GurobiSolver) (v : var) (lower : option Q) : GurobiSolver :=
  declare s [VarDecl v lower None] [].

Definition set_objective (s : GurobiSolver) (e : linexpr) : GurobiSolver :=
  {| model := {| mvars := mvars (model s);
                 mobjective := e;
                 mconstrs := mconstrs (model s) |};
     vars := vars s |}.

Definition addConstrs (s : GurobiSolver) (cs : list constr) : GurobiSolver :=
  {| model := {| mvars := mvars (model s);
                 mobjective := mobjective (model s);
                 mconstrs := mconstrs (model s) ++ cs |};
     vars := vars s |}.

(** Status codes of gurobipy's [GRB] class. *)
Definition GRB_OPTIMAL : Z := 2.
Definition GRB_INFEASIBLE : Z := 3.
Definition GRB_INF_OR_UNBD : Z := 4.
Definition GRB_UNBOUNDED : Z := 5.
Definition GRB_ITERATION_LIMIT : Z := 7.
Definition GRB_TIME_LIMIT : Z := 9.

(** The attributes of the model once [optimize()] has returned. *)
Record attrs : Type := {
  Status : Z;
  ObjVal : Q;
  X : var -> Q;
  Runtime : Q;
  IterCount : Q;
  IsMIP : bool;
  MIPGap : Q
}.

Record SolverResult : Type := {
  status : string;
  objective_value : option Q;
  solution : option (list (string * val_array));
  solve_time : Q;
  iterations : option Q;
  gap : option Q
}.

Definition status_map : list (Z * string) :=
  [(GRB_OPTIMAL, "optimal"%string);
   (GRB_INFEASIBLE, "infeasible"%string);
   (GRB_UNBOUNDED, "unbounded"%string);
   (GRB_INF_OR_UNBD, "inf_or_unbd"%string);
   (GRB_TIME_LIMIT, "time_limit"%string);
   (GRB_ITERATION_LIMIT, "iteration_limit"%string)].

(** [dict.get(key, default)] *)
Fixpoint dict_get {V} (d : list (Z * V)) (k : Z) (default : V) : V :=
  match d with
  | [] => default
  | (k', v) :: d' => if Z.eqb k k' then v else dict_get d' k default
  end.

Definition _extract_solution (s : GurobiSolver) (x : var -> Q) : list (string * val_array) :=
  map (fun na =>
         (fst na,
          match snd na with
          | Arr1 vs => Val1 (map x vs)
          | Arr2 r c rows => Val2 (Mat r c (map (map x) rows))
          end))
      (vars s).

(** [GurobiSolver.solve], from the attributes left by [optimize()]. *)
Definition solve (s : GurobiSolver) (a : attrs) : SolverResult :=
  let status := dict_get status_map (Status a) "unknown"%string in
  if String.eqb status "optimal" then
    {| status := status;
       objective_value := Some (ObjVal a);
       solution := Some (_extract_solution s (X a));
       solve_time := Runtime a;
       iterations := Some (IterCount a);
       gap := Some (if IsMIP a then MIPGap a else 0) |}
  else
    {| status := status;
       objective_value := None;
       solution := None;
       solve_time := Runtime a;
       iterations := Some (IterCount a);
       gap := None |}.

(** *** What the optimiser guarantees *)

Definition eval (x : var -> Q) (e : linexpr) : Q :=
  fold_right (fun cv acc => fst cv * x (snd cv) + acc) (constant e) (terms e).

Definition sat (x : var -> Q) (c : constr) : Prop :=
  match csense c with
  | LE => eval x (lhs c) <= eval x (rhs c)
  | GE => eval x (rhs c) <= eval x (lhs c)
  | EQ => eval x (lhs c) == eval x (rhs c)
  end.

Definition in_bounds (x : var -> Q) (d : var_decl) : Prop :=
  match lb d with Some l => l <= x (dvar d) | None => True end /\
  match ub d with Some u => x (dvar d) <= u | None => True end.

Definition feasible (m : Model) (x : var -> Q) : Prop :=
  Forall (in_bounds x) (mvars m) /\ Forall (sat x) (mconstrs m).

Definition optimal_for (m : Model) (x : var -> Q) : Prop :=
  feasible m x /\
  forall y, feasible m y -> eval x (mobjective m) <= eval y (mobjective m).

(** The optimiser is an oracle from models to attributes; it is sound on a
    model when an [OPTIMAL] status comes with a minimiser and its value. *)
Definition optimizer : Type := Model -> attrs.

Definition sound_on (opt : optimizer) (m : Model) : Prop :=
  Status (opt m) = GRB_OPTIMAL ->
  optimal_for m (X (opt m)) /\ ObjVal (opt m) == eval (X (opt m)) (mobjective m).

End Gurobi.

(* ================================================================= *)
(** ** [models/capacity_decision.py] and [models/operational.py] *)

Module Cap.

Record CapacityDecision : Type := {
  x_g : vec;
  x_es_p : vec;
  x_es_e : vec;
  x_br : vec;
  x_em : vec
}.

(** [CapacityDecision.zeros] *)
Definition CapacityDecision_zeros (n_generators n_storage n_branches n_scenarios : nat)
  : CapacityDecision :=
  {| x_g := repeat 0 n_generators;
     x_es_p := repeat 0 n_storage;
     x_es_e := repeat 0 n_storage;
     x_br := repeat 0 n_branches;
     x_em := repeat 0 n_scenarios |}.

Record InvestmentCosts : Type := {
  c_g : vec;
  c_es_p : vec;
  c_es_e : vec;
  c_br : vec;
  c_em : vec
}.

(** [InvestmentCosts.calculate_cost]: five [np.dot] products. *)
Definition calculate_cost (c : InvestmentCosts) (x : CapacityDecision) : res Q :=
  a1 <- dot (c_g c) (x_g x) ;;
  a2 <- dot (c_es_p c) (x_es_p x) ;;
  a3 <- dot (c_es_e c) (x_es_e x) ;;
  a4 <- dot (c_br c) (x_br x) ;;
  a5 <- dot (c_em c) (x_em x) ;;
  Ok (a1 + a2 + a3 + a4 + a5).

Record OperationalVariables : Type := {
  p_g : matrix;
  r_g : matrix;
  p_es : matrix;
  p_chg : matrix;
  p_dis : matrix;
  r_dis : matrix;
  q : matrix;
  p_br : matrix;
  p_dc : matrix;
  p_sh : matrix
}.

Definition all_ge (M : matrix) (bound : Q) : bool :=
  forallb (forallb (Qle_bool bound)) (mdata M).

(** [OperationalVariables.__post_init__]: the assertions on the time
    extent and on non-negativity up to [1e-6]. *)
Definition post_init (v : OperationalVariables) : res OperationalVariables :=
  let T := nrows (p_g v) in
  let tol := - (1 # 1000000) in
  if andb (andb (andb (Nat.eqb (nrows (r_g v)) T) (Nat.eqb (nrows (p_es v)) T))
                (andb (Nat.eqb (nrows (p_br v)) T) (Nat.eqb (nrows (p_sh v)) T)))
          (andb (andb (all_ge (p_g v) tol) (andb (all_ge (r_g v) tol) (all_ge (p_chg v) tol)))
                (andb (all_ge (p_dis v) tol) (andb (all_ge (q v) tol) (all_ge (p_sh v) tol))))
  then Ok v
  else Raise AssertionError.

(** [OperationalVariables.zeros] *)
Definition op_zeros (T G S b beta D : nat) : res OperationalVariables :=
  post_init {| p_g := zeros T G; r_g := zeros T G; p_es := zeros T S;
               p_chg := zeros T S; p_dis := zeros T S; r_dis := zeros T S;
               q := zeros T S; p_br := zeros T b; p_dc := zeros T beta;
               p_sh := zeros T D |}.

End Cap.

(* ================================================================= *)
(** ** [algorithms/operational_subproblem.py] *)

Module Oper.

Import Net Kernel Gurobi Cap.

Record ScenarioData : Type := {
  c_g : matrix;       (* T x G *)
  a_g : matrix;       (* T x G *)
  p_d : matrix;       (* T x D *)
  c_sh : Q;
  c_vio : Q
}.

Record OperationalParameters : Type := {
  w_g : vec;
  w_es_p : vec;
  w_es_e : vec;
  w_br : vec;
  R : vec;
  e : vec;
  A_g : matrix;
  A_es : matrix;
  A_d : matrix;
  eta : Q;
  gamma_es : Q;
  gamma_d : Q;
  eta_c : Q
}.

(** A contingency index [(t, i, j)]; the Python set of such triples is
    represented by the list of its elements in iteration order. *)
Definition triple : Type := (nat * nat * nat)%type.

Record OperationalSubproblem : Type := {
  network : Network;
  params : OperationalParameters;
  scenario : ScenarioData;
  x_br_hat : vec;
  contingencies : list triple;
  T : nat;
  G : nat;
  S_ : nat;      (* self.S; the name S is nat's successor *)
  D : nat;
  n_bus : nat;
  b_br : nat;
  PTDF : matrix;
  LODF : matrix
}.

(** [_compute_power_transfer_matrices]: the [try] covers the PTDF only and
    catches [LinAlgError] only; the LODF loop follows it. *)
Definition _compute_power_transfer_matrices (net : Network) (x_br_hat : vec)
  : res (matrix * matrix) :=
  susceptances <- get_susceptances net (Some x_br_hat) ;;
  let B := diag susceptances in
  A <- A_br net ;;
  let A_reduced := drop_first_row A in
  M <- ATBA A_reduced B ;;
  PTDF <-
    match inv M with
    | Raise LinAlgError => Ok (zeros (Net.b net) (Net.n net - 1))
    | Raise ex => Raise ex
    | Ok ATBA_inv => PTDF_of A_reduced B ATBA_inv
    end ;;
  LODF <- fill_LODF PTDF A_reduced (Net.b net) ;;
  Ok (PTDF, LODF).

(** [OperationalSubproblem.__init__] *)
Definition init (net : Network) (params : OperationalParameters)
           (scenario : ScenarioData) (x_br_hat : vec)
           (contingencies : list triple) : res OperationalSubproblem :=
  '(PTDF, LODF) <- _compute_power_transfer_matrices net x_br_hat ;;
  Ok {| network := net; params := params; scenario := scenario;
        x_br_hat := x_br_hat; contingencies := contingencies;
        T := nrows (c_g scenario); G := ncols (c_g scenario);
        S_ := length (w_es_p params); D := ncols (p_d scenario);
        n_bus := Net.n net; b_br := Net.b net;
        PTDF := PTDF; LODF := LODF |}.

(** *** The variables and constraints added by [solve] *)

Definition v2 (name : string) (t k : nat) : var := (name, [t; k]).
Definition s_c_var (c : triple) : var :=
  let '(t, i, j) := c in ("s_c"%string, [t; i; j]).

Definition vget (v : vec) (i : nat) : res Q := of_option IndexError (nth_error v i).

(** Indexing a [T x cols] variable array. *)
Definition arr_get (name : string) (rows cols t k : nat) : res var :=
  if andb (Nat.ltb t rows) (Nat.ltb k cols) then Ok (v2 name t k) else Raise IndexError.

Definition named (name : string) (idx : list nat) : string * list nat := (name, idx).

Section Build.

Variable sp : OperationalSubproblem.
Variable x : CapacityDecision.
Variable x_em_omega : Q.

Let prm := params sp.
Let scn := scenario sp.

Definition P_g t g := lin_var (v2 "p_g" t g).
Definition R_g t g := lin_var (v2 "r_g" t g).
Definition P_es t s := lin_var (v2 "p_es" t s).
Definition P_chg t s := lin_var (v2 "p_chg" t s).
Definition P_dis t s := lin_var (v2 "p_dis" t s).
Definition R_dis t s := lin_var (v2 "r_dis" t s).
Definition Q_soc t s := lin_var (v2 "q" t s).
Definition P_br t j := lin_var (v2 "p_br" t j).
Definition P_sh t d := lin_var (v2 "p_sh" t d).

(** Objective (Eq. 14): generation cost, shedding penalty, violation penalty. *)
Definition objective : res linexpr :=
  gen <- mapM (fun t => mapM (fun g =>
                 c <- mget (c_g scn) t g ;; Ok (lin_scale c (P_g t g)))
               (seq 0 (G sp))) (seq 0 (T sp)) ;;
  let shed := map (fun t => map (fun d => lin_scale (c_sh scn) (P_sh t d))
                                (seq 0 (D sp))) (seq 0 (T sp)) in
  let vio := map (fun c => lin_scale (c_vio scn) (lin_var (s_c_var c)))
                 (contingencies sp) in
  Ok (lin_sum (concat gen ++ concat shed ++ vio)).

(** Generation constraints (Eq. 3a-3c). *)
Definition generation_constraints : res (list constr) :=
  total_capacity <- vadd (w_g prm) (x_g x) ;;
  per_t <- mapM (fun t =>
      caps <- mapM (fun g =>
                a <- mget (a_g scn) t g ;;
                cap <- vget total_capacity g ;;
                Ok (Constr (named "gen_cap" [t; g])
                           (lin_add (P_g t g) (R_g t g)) LE (lin_const (a * cap))))
              (seq 0 (G sp)) ;;
      ramps <- (if Nat.ltb 0 t then
                  mapM (fun g =>
                    r <- vget (R prm) g ;;
                    cap <- vget total_capacity g ;;
                    Ok [Constr (named "ramp_down" [t; g])
                               (lin_sub (P_g t g) (P_g (t - 1) g)) GE
                               (lin_const (- r * cap));
                        Constr (named "ramp_up" [t; g])
                               (lin_sub (P_g t g) (P_g (t - 1) g)) LE
                               (lin_const (r * cap))])
                  (seq 0 (G sp))
                else Ok []) ;;
      Ok (caps ++ concat ramps))
    (seq 0 (T sp)) ;;
  Ok (concat per_t).

(** Total emissions (Eq. 3d). *)
Definition emissions_constraint : res (list constr) :=
  es <- mapM (fun t => mapM (fun g =>
                 eg <- vget (e prm) g ;; Ok (lin_scale eg (P_g t g)))
               (seq 0 (G sp))) (seq 0 (T sp)) ;;
  Ok [Constr (named "emissions" []) (lin_sum (concat es)) LE (lin_const x_em_omega)].

(** Storage constraints (Eq. 4a-4f). *)
Definition storage_constraints : res (list constr) :=
  storage_power_cap <- vadd (w_es_p prm) (x_es_p x) ;;
  storage_energy_cap <- vadd (w_es_e prm) (x_es_e x) ;;
  per_ts <- mapM (fun t => mapM (fun s =>
      pcap <- vget storage_power_cap s ;;
      ecap <- vget storage_energy_cap s ;;
      let q_prev := if Nat.eqb t 0 then lin_const (gamma_es prm * ecap)
                    else Q_soc (t - 1) s in
      Ok [Constr (named "storage_net" [t; s])
                 (P_es t s) EQ (lin_sub (P_dis t s) (P_chg t s));
          Constr (named "storage_power" [t; s])
                 (lin_add (lin_add (P_chg t s) (P_dis t s)) (R_dis t s)) LE
                 (lin_const pcap);
          Constr (named "storage_energy_max" [t; s])
                 (Q_soc t s) LE (lin_const ecap);
          Constr (named "storage_energy_min" [t; s])
                 (Q_soc t s) GE (R_dis t s);
          Constr (named "storage_dynamics" [t; s])
                 (Q_soc t s) EQ
                 (lin_sub (lin_add q_prev (lin_scale (eta prm) (P_chg t s)))
                          (lin_scale (/ eta prm) (P_dis t s)))])
    (seq 0 (S_ sp))) (seq 0 (T sp)) ;;
  continuity <- mapM (fun s =>
      ecap <- vget storage_energy_cap s ;;
      match T sp with
      | O => Raise IndexError
      | S t_last =>
          Ok (Constr (named "storage_continuity" [s])
                     (Q_soc t_last s) EQ (lin_const (gamma_es prm * ecap)))
      end)
    (seq 0 (S_ sp)) ;;
  Ok (concat (concat per_ts) ++ continuity).

(** System reserve (Eq. 5). *)
Definition reserve_constraints : res (list constr) :=
  mapM (fun t =>
      loads <- mapM (fun d => mget (p_d scn) t d) (seq 0 (D sp)) ;;
      let total_reserves :=
        lin_add (lin_sum (map (R_g t) (seq 0 (G sp))))
                (lin_sum (map (R_dis t) (seq 0 (S_ sp)))) in
      let total_load := vsum loads in
      Ok (Constr (named "reserve" [t]) total_reserves GE
                 (lin_const (gamma_d prm * total_load))))
    (seq 0 (T sp)).

(** [_add_power_flow_constraints]: the branch capacity limits (Eq. 7) are
    the only rows this method adds. *)
Definition _add_power_flow_constraints : res (list constr) :=
  branch_capacity <- vadd (w_br prm) (x_br x) ;;
  per_t <- mapM (fun t => mapM (fun j =>
      cap <- vget branch_capacity j ;;
      Ok [Constr (named "branch_cap_pos" [t; j]) (P_br t j) LE (lin_const cap);
          Constr (named "branch_cap_neg" [t; j]) (P_br t j) GE (lin_const (- cap))])
    (seq 0 (b_br sp))) (seq 0 (T sp)) ;;
  Ok (concat (concat per_t)).

(** The two rows of one contingency (Eq. 12):
    [p_brc >= -eta_c * cap - s_c] and [p_brc <= eta_c * cap + s_c] with
    [p_brc = p_br[t,i] + LODF[i,j] * p_br[t,j]]. *)
Definition p_brc (t i j : nat) (lam : Q) : linexpr :=
  lin_add (lin_var (v2 "p_br" t i)) (lin_scale lam (lin_var (v2 "p_br" t j))).

Definition cont_neg_row (c : triple) (lam cap : Q) : constr :=
  let '(t, i, j) := c in
  Constr (named "cont_neg" [t; i; j]) (p_brc t i j lam) GE
         (lin_sub (lin_const (- eta_c prm * cap)) (lin_var (s_c_var c))).

Definition cont_pos_row (c : triple) (lam cap : Q) : constr :=
  let '(t, i, j) := c in
  Constr (named "cont_pos" [t; i; j]) (p_brc t i j lam) LE
         (lin_add (lin_const (eta_c prm * cap)) (lin_var (s_c_var c))).

Definition contingency_rows (branch_capacity : vec) (c : triple) : res (list constr) :=
  let '(t, i, j) := c in
  _ <- arr_get "p_br" (T sp) (b_br sp) t i ;;
  lam <- mget (LODF sp) i j ;;
  _ <- arr_get "p_br" (T sp) (b_br sp) t j ;;
  cap <- vget branch_capacity i ;;
  Ok [cont_neg_row c lam cap; cont_pos_row c lam cap].

(** [_add_contingency_constraints] *)
Definition _add_contingency_constraints : res (list constr) :=
  branch_capacity <- vadd (w_br prm) (x_br x) ;;
  rows <- mapM (contingency_rows branch_capacity) (contingencies sp) ;;
  Ok (concat rows).

(** The model handed to [solver.solve] at the end of [solve]. *)
Definition build_model : res GurobiSolver :=
  let s := new_solver in
  '(s, _) <- add_continuous_vars s "p_g" [T sp; G sp] (Some 0) ;;
  '(s, _) <- add_continuous_vars s "r_g" [T sp; G sp] (Some 0) ;;
  '(s, _) <- add_continuous_vars s "p_es" [T sp; S_ sp] None ;;
  '(s, _) <- add_continuous_vars s "p_chg" [T sp; S_ sp] (Some 0) ;;
  '(s, _) <- add_continuous_vars s "p_dis" [T sp; S_ sp] (Some 0) ;;
  '(s, _) <- add_continuous_vars s "r_dis" [T sp; S_ sp] (Some 0) ;;
  '(s, _) <- add_continuous_vars s "q" [T sp; S_ sp] (Some 0) ;;
  '(s, _) <- add_continuous_vars s "p_br" [T sp; b_br sp] None ;;
  '(s, _) <- add_continuous_vars s "p_dc" [T sp; Net.beta (network sp)] None ;;
  '(s, _) <- add_continuous_vars s "p_sh" [T sp; D sp] (Some 0) ;;
  let s := fold_left (fun s c => addVar s (s_c_var c) (Some 0)) (contingencies sp) s in
  obj <- objective ;;
  let s := set_objective s obj in
  gen <- generation_constraints ;;
  let s := addConstrs s gen in
  em <- emissions_constraint ;;
  let s := addConstrs s em in
  sto <- storage_constraints ;;
  let s := addConstrs s sto in
  rsv <- reserve_constraints ;;
  let s := addConstrs s rsv in
  flow <- _add_power_flow_constraints ;;
  let s := addConstrs s flow in
  cont <- (match contingencies sp with
           | [] => Ok []
           | _ => _add_contingency_constraints
           end) ;;
  Ok (addConstrs s cont).

End Build.

Definition lookup (sol : list (string * val_array)) (name : string) : res matrix :=
  match find (fun na => String.eqb (fst na) name) sol with
  | Some (_, Val2 M) => Ok M
  | _ => Raise IndexError
  end.

(** [OperationalSubproblem.solve] *)
Definition solve (opt : optimizer) (sp : OperationalSubproblem)
           (x : CapacityDecision) (x_em_omega : Q)
  : res (SolverResult * OperationalVariables) :=
  solver <- build_model sp x x_em_omega ;;
  let result := Gurobi.solve solver (opt (model solver)) in
  op_vars <-
    (if String.eqb (status result) "optimal" then
       match solution result with
       | None => Raise IndexError
       | Some sol =>
           p_g <- lookup sol "p_g" ;; r_g <- lookup sol "r_g" ;;
           p_es <- lookup sol "p_es" ;; p_chg <- lookup sol "p_chg" ;;
           p_dis <- lookup sol "p_dis" ;; r_dis <- lookup sol "r_dis" ;;
           q <- lookup sol "q" ;; p_br <- lookup sol "p_br" ;;
           p_dc <- lookup sol "p_dc" ;; p_sh <- lookup sol "p_sh" ;;
           post_init {| Cap.p_g := p_g; Cap.r_g := r_g; Cap.p_es := p_es;
                        Cap.p_chg := p_chg; Cap.p_dis := p_dis; Cap.r_dis := r_dis;
                        Cap.q := q; Cap.p_br := p_br; Cap.p_dc := p_dc;
                        Cap.p_sh := p_sh |}
       end
     else op_zeros (T sp) (G sp) (S_ sp) (b_br sp) (Net.beta (network sp)) (D sp)) ;;
  Ok (result, op_vars).

(** *** The dispatch properties of the specification

    Nodal balance is stated here from the specification; the source has no
    counterpart of it (see [_add_power_flow_constraints]). *)

Definition matvec (M : matrix) (v : vec) : res vec :=
  if Nat.eqb (ncols M) (length v)
  then Ok (map (fun r => dot_aux r v) (mdata M))
  else Raise ValueError.

(** [A_g p_g + A_es p_es + A_d (p_sh - p_d) - (A p_br + A_dc p_dc)] at
    period [t], one entry per bus. *)
Definition nodal_residual (net : Network) (prm : OperationalParameters)
           (scn : ScenarioData) (ov : OperationalVariables) (t : nat) : res vec :=
  pg <- mrow (Cap.p_g ov) t ;;
  pes <- mrow (Cap.p_es ov) t ;;
  psh <- mrow (Cap.p_sh ov) t ;;
  pd <- mrow (p_d scn) t ;;
  pbr <- mrow (Cap.p_br ov) t ;;
  pdc <- mrow (Cap.p_dc ov) t ;;
  A <- A_br net ;;
  Adc <- A_dc net ;;
  l1 <- matvec (A_g prm) pg ;;
  l2 <- matvec (A_es prm) pes ;;
  shed <- vsub psh pd ;;
  l3 <- matvec (A_d prm) shed ;;
  r1 <- matvec A pbr ;;
  r2 <- matvec Adc pdc ;;
  l12 <- vadd l1 l2 ;;
  l <- vadd l12 l3 ;;
  r <- vadd r1 r2 ;;
  vsub l r.

Definition nodal_balance_within (tol : Q) (net : Network) (prm : OperationalParameters)
           (scn : ScenarioData) (ov : OperationalVariables) : Prop :=
  forall t, (t < nrows (Cap.p_g ov))%nat ->
            exists r, nodal_residual net prm scn ov t = Ok r /\
                      Forall (fun a => Qabs a <= tol) r.

(** [|p_br[t,j]| <= w_br[j] + x_br[j]] *)
Definition branch_limits_hold (prm : OperationalParameters) (x : CapacityDecision)
           (ov : OperationalVariables) : Prop :=
  forall t j f, mget (Cap.p_br ov) t j = Ok f ->
    exists cap, (branch_capacity <- vadd (w_br prm) (x_br x) ;; vget branch_capacity j)
                = Ok cap /\ Qabs f <= cap.

(** *** A concrete instance: one generator at bus 0 (100 MW, cost 10), a
    load of 60 MW at bus 1, one 100 MW line, one period, no storage. *)

Definition params_two_bus : OperationalParameters :=
  {| w_g := [100]; w_es_p := []; w_es_e := []; w_br := [100];
     R := [1]; e := [0];
     A_g := Mat 2 1 [[1]; [0]];
     A_es := Mat 2 0 [[]; []];
     A_d := Mat 2 1 [[0]; [1]];
     eta := 9 # 10; gamma_es := 1 # 2; gamma_d := 15 # 100; eta_c := 1 |}.

Definition scenario_two_bus : ScenarioData :=
  {| c_g := Mat 1 1 [[10]]; a_g := Mat 1 1 [[1]]; p_d := Mat 1 1 [[60]];
     c_sh := 10000; c_vio := 2000 |}.

Definition x_zero_two_bus : CapacityDecision := CapacityDecision_zeros 1 0 1 1.

(** Nothing is generated, shed or transported; the reserve of 9 MW is held. *)
Definition idle_dispatch (v : var) : Q :=
  if var_eqb v (v2 "r_g" 0 0) then 9 else 0.

Definition idle_attrs : attrs :=
  {| Status := GRB_OPTIMAL; ObjVal := 0; X := idle_dispatch;
     Runtime := 0; IterCount := 0; IsMIP := false; MIPGap := 0 |}.

(** *** Views of the model used in the statements *)

Definition is_contingency_row (c : constr) : bool :=
  orb (String.eqb (fst (cname c)) "cont_neg") (String.eqb (fst (cname c)) "cont_pos").

Definition base_row (c : constr) : Prop := is_contingency_row c = false.

(** The declaration [solver.model.addVar(lb=0, name="s_c_t_i_j")]. *)
Definition slack_decl (c : triple) : var_decl := VarDecl (s_c_var c) (Some 0) None.

(** The declarations made through [add_continuous_vars], in order. *)
Definition array_decls (name : string) (r c : nat) (lower : option Q) : list var_decl :=
  map (fun v => VarDecl v lower None) (array_vars (array2 name r c)).

Definition base_decls (sp : OperationalSubproblem) : list var_decl :=
  array_decls "p_g" (T sp) (G sp) (Some 0) ++
  array_decls "r_g" (T sp) (G sp) (Some 0) ++
  array_decls "p_es" (T sp) (S_ sp) None ++
  array_decls "p_chg" (T sp) (S_ sp) (Some 0) ++
  array_decls "p_dis" (T sp) (S_ sp) (Some 0) ++
  array_decls "r_dis" (T sp) (S_ sp) (Some 0) ++
  array_decls "q" (T sp) (S_ sp) (Some 0) ++
  array_decls "p_br" (T sp) (b_br sp) None ++
  array_decls "p_dc" (T sp) (Net.beta (network sp)) None ++
  array_decls "p_sh" (T sp) (D sp) (Some 0).

(** The registry [self.vars] at the end of [solve]. *)
Definition registry (sp : OperationalSubproblem) : list (string * var_array) :=
  [("p_g"%string, array2 "p_g" (T sp) (G sp));
   ("r_g"%string, array2 "r_g" (T sp) (G sp));
   ("p_es"%string, array2 "p_es" (T sp) (S_ sp));
   ("p_chg"%string, array2 "p_chg" (T sp) (S_ sp));
   ("p_dis"%string, array2 "p_dis" (T sp) (S_ sp));
   ("r_dis"%string, array2 "r_dis" (T sp) (S_ sp));
   ("q"%string, array2 "q" (T sp) (S_ sp));
   ("p_br"%string, array2 "p_br" (T sp) (b_br sp));
   ("p_dc"%string, array2 "p_dc" (T sp) (Net.beta (network sp)));
   ("p_sh"%string, array2 "p_sh" (T sp) (D sp))].

(** The values of a registered array, as [_extract_solution] reads them,
    and the primal assembled from them by [solve]. *)
Definition values (name : string) (r c : nat) (xv : var -> Q) : matrix :=
  match array2 name r c with
  | Arr2 r c rows => Mat r c (map (map xv) rows)
  | Arr1 _ => zeros r c
  end.

Definition primal (sp : OperationalSubproblem) (xv : var -> Q) : OperationalVariables :=
  {| Cap.p_g := values "p_g" (T sp) (G sp) xv;
     Cap.r_g := values "r_g" (T sp) (G sp) xv;
     Cap.p_es := values "p_es" (T sp) (S_ sp) xv;
     Cap.p_chg := values "p_chg" (T sp) (S_ sp) xv;
     Cap.p_dis := values "p_dis" (T sp) (S_ sp) xv;
     Cap.r_dis := values "r_dis" (T sp) (S_ sp) xv;
     Cap.q := values "q" (T sp) (S_ sp) xv;
     Cap.p_br := values "p_br" (T sp) (b_br sp) xv;
     Cap.p_dc := values "p_dc" (T sp) (Net.beta (network sp)) xv;
     Cap.p_sh := values "p_sh" (T sp) (D sp) xv |}.

(** The path 0 - 1 - 2 with the generator at bus 0 and the load at bus 2. *)
Definition params_path3 : OperationalParameters :=
  {| w_g := [100]; w_es_p := []; w_es_e := []; w_br := [100; 100];
     R := [1]; e := [0];
     A_g := Mat 3 1 [[1]; [0]; [0]];
     A_es := Mat 3 0 [[]; []; []];
     A_d := Mat 3 1 [[0]; [0]; [1]];
     eta := 9 # 10; gamma_es := 1 # 2; gamma_d := 15 # 100; eta_c := 1 |}.

Definition x_path3 : CapacityDecision :=
  {| x_g := [0]; x_es_p := []; x_es_e := []; x_br := [20; 0]; x_em := [0] |}.

End Oper.

(* ================================================================= *)
(** ** [algorithms/bundle_method.py] *)

Module Bundle.

Import Net Gurobi Cap Oper.

(** A Python float that may be [np.inf]. *)
Inductive ext : Type :=
| Fin (u : Q)
| PInf.

Record BundleIteration : Type := {
  k : nat;
  x_k : CapacityDecision;
  f_k : Q;
  L_k : Q;
  gap : Q;
  theta_lev_k : Q
}.

Definition cut : Type := (Q * vec)%type.

(** The attributes of [BundleMethod] that [solve] reads or writes. *)
Record BundleMethod : Type := {
  network : Network;
  costs : InvestmentCosts;
  scenarios : list ScenarioData;
  op_params : OperationalParameters;
  alpha : Q;
  epsilon : Q;
  max_iterations : nat;
  cutting_planes : list (list cut);
  contingencies : list (list triple);
  iterations : list BundleIteration
}.

Definition default_alpha : Q := 3 # 10.
Definition default_epsilon : Q := 1 # 100.
Definition default_max_iterations : nat := 200.

(** [BundleMethod.__init__] *)
Definition init (net : Network) (investment_costs : InvestmentCosts)
           (scns : list ScenarioData) (operational_params : OperationalParameters)
           (alpha epsilon : Q) (max_iterations : nat) : BundleMethod :=
  {| network := net; costs := investment_costs; scenarios := scns;
     op_params := operational_params; alpha := alpha; epsilon := epsilon;
     max_iterations := max_iterations;
     cutting_planes := map (fun _ => []) scns;
     contingencies := map (fun _ => []) scns;
     iterations := [] |}.

Definition with_cutting_planes (self : BundleMethod) (cp : list (list cut)) : BundleMethod :=
  {| network := network self; costs := costs self; scenarios := scenarios self;
     op_params := op_params self; alpha := alpha self; epsilon := epsilon self;
     max_iterations := max_iterations self;
     cutting_planes := cp;
     contingencies := contingencies self;
     iterations := iterations self |}.

Definition with_contingencies (self : BundleMethod) (cs : list (list triple)) : BundleMethod :=
  {| network := network self; costs := costs self; scenarios := scenarios self;
     op_params := op_params self; alpha := alpha self; epsilon := epsilon self;
     max_iterations := max_iterations self;
     cutting_planes := cutting_planes self;
     contingencies := cs;
     iterations := iterations self |}.

Definition with_iterations (self : BundleMethod) (its : list BundleIteration) : BundleMethod :=
  {| network := network self; costs := costs self; scenarios := scenarios self;
     op_params := op_params self; alpha := alpha self; epsilon := epsilon self;
     max_iterations := max_iterations self;
     cutting_planes := cutting_planes self;
     contingencies := contingencies self;
     iterations := its |}.

(** [_identify_violated_contingencies]: the source returns the empty set. *)
Definition _identify_violated_contingencies (self : BundleMethod)
           (op_vars : OperationalVariables) (x_k : CapacityDecision) (omega : nat)
  : list triple := [].

(** [_solve_master_problem]: the source returns [0.0]. *)
Definition _solve_master_problem (self : BundleMethod) (x_current : CapacityDecision) : Q := 0.

(** The start and every later iterate: [CapacityDecision.zeros(...)]. *)
Definition zero_decision (self : BundleMethod) : CapacityDecision :=
  CapacityDecision_zeros (length (w_g (op_params self)))
                         (length (w_es_p (op_params self)))
                         (Net.b (network self))
                         (length (scenarios self)).

(** [_compute_analytic_center]: the source returns the zero decision. *)
Definition _compute_analytic_center (self : BundleMethod) (theta_lev : Q)
  : CapacityDecision := zero_decision self.

(** The zero subgradient over all components of the decision. *)
Definition zero_subgradient (x_k : CapacityDecision) : vec :=
  repeat 0 (length (x_g x_k) + length (x_es_p x_k) + length (x_es_e x_k)
            + length (x_br x_k) + length (x_em x_k)).

Definition big_cost : Q := 1000000000000.     (* 1e12 *)

(** [set.update] *)
Definition triple_eq_dec (a c : triple) : {a = c} + {a <> c}.
Proof. repeat decide equality. Defined.

Definition set_update (s new : list triple) : list triple :=
  fold_left (fun acc c => if in_dec triple_eq_dec c acc then acc else acc ++ [c]) new s.

(** The body of the loop over scenarios in [_solve_subproblems]. *)
Definition solve_scenario (opt : optimizer) (self : BundleMethod)
           (x_k : CapacityDecision) (x_br_hat : vec) (omega : nat)
  : res (BundleMethod * (Q * vec * Q)) :=
  scn <- of_option IndexError (nth_error (scenarios self) omega) ;;
  conts <- of_option IndexError (nth_error (contingencies self) omega) ;;
  subproblem <- Oper.init (network self) (op_params self) scn x_br_hat conts ;;
  x_em_omega <- vget (x_em x_k) omega ;;
  '(result, op_vars) <- Oper.solve opt subproblem x_k x_em_omega ;;
  if String.eqb (status result) "optimal" then
    theta <- of_option AssertionError (objective_value result) ;;
    let g := zero_subgradient x_k in
    let new_violations := _identify_violated_contingencies self op_vars x_k omega in
    let self := with_contingencies self
                  (list_set (contingencies self) omega (set_update conts new_violations)) in
    let sigma := inject_Z (Z.of_nat (length new_violations)) * c_vio scn * 10 in
    Ok (self, (theta, g, sigma))
  else
    Ok (self, (big_cost, zero_subgradient x_k, 0)).

(** [_solve_subproblems]: the three lists, scenario by scenario. *)
Fixpoint solve_scenarios (opt : optimizer) (self : BundleMethod)
         (x_k : CapacityDecision) (x_br_hat : vec) (omegas : list nat)
  : res (BundleMethod * list (Q * vec * Q)) :=
  match omegas with
  | [] => Ok (self, [])
  | omega :: rest =>
      '(self, r) <- solve_scenario opt self x_k x_br_hat omega ;;
      '(self, rs) <- solve_scenarios opt self x_k x_br_hat rest ;;
      Ok (self, r :: rs)
  end.

Definition _solve_subproblems (opt : optimizer) (self : BundleMethod)
           (x_k : CapacityDecision) (x_br_hat : vec)
  : res (BundleMethod * (list Q * list vec * list Q)) :=
  '(self, rs) <- solve_scenarios opt self x_k x_br_hat
                                 (seq 0 (length (scenarios self))) ;;
  Ok (self, (map (fun r => fst (fst r)) rs, map (fun r => snd (fst r)) rs, map snd rs)).

(** [self.cutting_planes[omega].append((theta_k[omega], g_k[omega]))] for
    every scenario. *)
Definition append_cuts (cp : list (list cut)) (theta_k : list Q) (g_k : list vec)
  : list (list cut) :=
  map (fun cc => fst cc ++ [snd cc]) (combine cp (combine theta_k g_k)).

(** [gap = (U_k - L_k) / U_k if U_k > 0 else 0.0] *)
Definition relative_gap (U_k L_k : Q) : Q :=
  if Qltb 0 U_k then (U_k - L_k) / U_k else 0.

(** [min(U_k, f_k)] with [U_k] possibly infinite. *)
Definition ext_min (U_k : ext) (f_k : Q) : Q :=
  match U_k with
  | PInf => f_k
  | Fin u => Qmin u f_k
  end.

(** The local variables of [solve] that live across iterations. *)
Record locals : Type := {
  self_ : BundleMethod;
  cur_L : Q;
  cur_U : ext;
  cur_x : CapacityDecision;
  x_star : option CapacityDecision
}.

Definition set_last_theta_lev (its : list BundleIteration) (theta_lev : Q)
  : list BundleIteration :=
  match rev its with
  | [] => []
  | it :: before =>
      rev before ++ [{| k := k it; x_k := x_k it; f_k := f_k it; L_k := L_k it;
                        gap := gap it; theta_lev_k := theta_lev |}]
  end.

(** One pass of the [for k in range(1, max_iterations + 1)] loop; the
    boolean tells whether the pass ended in [break]. *)
Definition iteration (opt : optimizer) (x_br_hat : vec) (kk : nat) (st : locals)
  : res (locals * bool) :=
  '(self, (theta_k, g_k, sigma_k)) <-
     _solve_subproblems opt (self_ st) (cur_x st) x_br_hat ;;
  let self := with_cutting_planes self (append_cuts (cutting_planes self) theta_k g_k) in
  inv_cost <- calculate_cost (costs self) (cur_x st) ;;
  let f := inv_cost + vsum (map (fun ts => fst ts + snd ts) (combine theta_k sigma_k)) in
  let U := ext_min (cur_U st) f in
  let star := if Qeq_bool U f then Some (cur_x st) else x_star st in
  let L := _solve_master_problem self (cur_x st) in
  let g := relative_gap U L in
  let iter_result := {| k := kk; x_k := cur_x st; f_k := f; L_k := L; gap := g;
                        theta_lev_k := 0 |} in
  let self := with_iterations self (iterations self ++ [iter_result]) in
  if Qltb g (epsilon self) then
    Ok ({| self_ := self; cur_L := L; cur_U := Fin U; cur_x := cur_x st;
           x_star := star |}, true)
  else
    let theta_lev := L + alpha self * (U - L) in
    let self := with_iterations self (set_last_theta_lev (iterations self) theta_lev) in
    Ok ({| self_ := self; cur_L := L; cur_U := Fin U;
           cur_x := _compute_analytic_center self theta_lev;
           x_star := star |}, false).

Fixpoint loop (opt : optimizer) (x_br_hat : vec) (ks : list nat) (st : locals)
  : res locals :=
  match ks with
  | [] => Ok st
  | kk :: ks' =>
      '(st', broke) <- iteration opt x_br_hat kk st ;;
      if broke then Ok st' else loop opt x_br_hat ks' st'
  end.

Definition start (self : BundleMethod) : locals :=
  {| self_ := self; cur_L := 0; cur_U := PInf; cur_x := zero_decision self;
     x_star := None |}.

(** [BundleMethod.solve]: returns [(x_star, U_k)]; the updated object is
    returned with them. *)
Definition solve (opt : optimizer) (self : BundleMethod) (x_br_hat : vec)
  : res (BundleMethod * (option CapacityDecision * ext)) :=
  st <- loop opt x_br_hat (seq 1 (max_iterations self)) (start self) ;;
  Ok (self_ st, (x_star st, cur_U st)).

(** *** The termination test of the specification *)

(** [(U_k - L_k) / max(|U_k|, 1)] *)
Definition spec_gap (U_k L_k : Q) : Q := (U_k - L_k) / Qmax (Qabs U_k) 1.

(** *** Concrete engines on the two-bus network *)

Definition costs_two_bus : InvestmentCosts :=
  {| Cap.c_g := [1000]; c_es_p := []; c_es_e := []; c_br := [100000]; c_em := [0] |}.

Definition engine (scn : ScenarioData) (epsilon : Q) (max_iterations : nat) : BundleMethod :=
  init two_bus costs_two_bus [scn] params_two_bus default_alpha epsilon max_iterations.

(** The solver answering with the idle dispatch. *)
Definition opt_idle : optimizer := fun _ => idle_attrs.

(** A generator that is paid 5 per MWh produced: the optimum produces
    91 MW next to the 9 MW of reserve, at a cost of -455. *)
Definition scenario_credit : ScenarioData :=
  {| Oper.c_g := Mat 1 1 [[-5]]; a_g := Mat 1 1 [[1]]; p_d := Mat 1 1 [[60]];
     c_sh := 10000; c_vio := 2000 |}.

Definition credit_dispatch (v : var) : Q :=
  if var_eqb v (v2 "p_g" 0 0) then 91
  else if var_eqb v (v2 "r_g" 0 0) then 9 else 0.

Definition opt_credit : optimizer := fun _ =>
  {| Status := GRB_OPTIMAL; ObjVal := -455; X := credit_dispatch;
     Runtime := 0; IterCount := 0; IsMIP := false; MIPGap := 0 |}.

(** A load of 1000 MW asks for 150 MW of reserve from a 100 MW generator:
    the LP is infeasible. *)
Definition scenario_overload : ScenarioData :=
  {| Oper.c_g := Mat 1 1 [[10]]; a_g := Mat 1 1 [[1]]; p_d := Mat 1 1 [[1000]];
     c_sh := 10000; c_vio := 2000 |}.

Definition opt_infeasible : optimizer := fun _ =>
  {| Status := GRB_INFEASIBLE; ObjVal := 0; X := fun _ => 0;
     Runtime := 0; IterCount := 0; IsMIP := false; MIPGap := 0 |}.

End Bundle.

(* ================================================================= *)
(** ** [solvers/gurobi_interface.py]: the registry of constraints and
       [solve_lp] *)

Module Lp.

Import Gurobi.

(** [GurobiSolver] with its third attribute, the dictionary [self.constrs];
    a key is a name prefix and an index, as in [f"ineq_{i}"]. *)
Record Solver : Type := {
  base : GurobiSolver;
  constrs : list (var * constr)
}.

(** [GurobiSolver("lp")] *)
Definition new : Solver := {| base := new_solver; constrs := [] |}.

(** [d[key] = value] on a dictionary kept in insertion order. *)
Fixpoint dict_set (d : list (var * constr)) (key : var) (value : constr)
  : list (var * constr) :=
  match d with
  | [] => [(key, value)]
  | (k, v) :: d' =>
      if var_eqb k key then (k, value) :: d' else (k, v) :: dict_set d' key value
  end.

(** [add_continuous_vars(name, shape, lb, ub)] with both bounds. *)
Definition add_continuous_vars (s : Solver) (name : string) (shape : list nat)
           (lower upper : option Q) : res (Solver * var_array) :=
  arr <-
    match shape with
    | [k] => Ok (Arr1 (map (fun i => (name, [i])) (seq 0 k)))
    | [r; c] => Ok (array2 name r c)
    | _ => Raise ValueError
    end ;;
  Ok ({| base := declare (base s)
                         (map (fun v => VarDecl v lower upper) (array_vars arr))
                         [(name, arr)];
         constrs := constrs s |},
      arr).

Definition set_objective (s : Solver) (e : linexpr) : Solver :=
  {| base := Gurobi.set_objective (base s) e; constrs := constrs s |}.

(** [add_constraint]: [self.constrs[name] = constraint], and nothing else. *)
Definition add_constraint (s : Solver) (name : var) (c : constr) : Solver :=
  {| base := base s; constrs := dict_set (constrs s) name c |}.

(** [x[j]] on the one-dimensional array of variables. *)
Definition x_at (x : var_array) (j : nat) : res var :=
  of_option IndexError (nth_error (array_vars x) j).

(** [gp.quicksum(A[i, j] * x[j] for j in range(n))] compared with [b[i]]. *)
Definition row (prefix : string) (sn : sense) (A : matrix) (bv : vec)
           (x : var_array) (n i : nat) : res constr :=
  ts <- mapM (fun j => a <- mget A i j ;; xj <- x_at x j ;;
                       Ok (lin_scale a (lin_var xj)))
             (seq 0 n) ;;
  bi <- of_option IndexError (nth_error bv i) ;;
  Ok (Constr (prefix, [i]) (lin_sum ts) sn (lin_const bi)).

(** One of the two loops [for i in range(A.shape[0])]. *)
Fixpoint add_rows (s : Solver) (prefix : string) (sn : sense) (A : matrix) (bv : vec)
         (x : var_array) (n : nat) (rows : list nat) : res Solver :=
  match rows with
  | [] => Ok s
  | i :: rows' =>
      c <- row prefix sn A bv x n i ;;
      add_rows (add_constraint s (prefix, [i]) c) prefix sn A bv x n rows'
  end.

(** The body of [solve_lp] up to the call of [solver.solve()].  A bound
    [None] is an infinite bound; without [bounds] the variables are
    non-negative. *)
Definition build (c : vec) (A_ub : option matrix) (b_ub : option vec)
           (A_eq : option matrix) (b_eq : option vec)
           (bounds : option (option Q * option Q)) : res Solver :=
  let n := length c in
  let '(lb, ub) := match bounds with Some p => p | None => (Some 0, None) end in
  let solver := new in
  '(solver, x) <- add_continuous_vars solver "x" [n] lb ub ;;
  obj <- mapM (fun i => ci <- of_option IndexError (nth_error c i) ;;
                        xi <- x_at x i ;;
                        Ok (lin_scale ci (lin_var xi)))
              (seq 0 n) ;;
  let solver := set_objective solver (lin_sum obj) in
  solver <- match A_ub, b_ub with
            | Some A, Some bv =>
                add_rows solver "ineq" LE A bv x n (seq 0 (nrows A))
            | _, _ => Ok solver
            end ;;
  match A_eq, b_eq with
  | Some A, Some bv => add_rows solver "eq" EQ A bv x n (seq 0 (nrows A))
  | _, _ => Ok solver
  end.

(** [solve_lp] *)
Definition solve_lp (opt : optimizer) (c : vec) (A_ub : option matrix)
           (b_ub : option vec) (A_eq : option matrix) (b_eq : option vec)
           (bounds : option (option Q * option Q)) : res SolverResult :=
  solver <- build c A_ub b_ub A_eq b_eq bounds ;;
  Ok (Gurobi.solve (base solver) (opt (model (base solver)))).

(** The answer of a solver for [minimize x] over [x >= 0]. *)
Definition opt_origin : optimizer := fun _ =>
  {| Status := GRB_OPTIMAL; ObjVal := 0; X := fun _ => 0;
     Runtime := 0; IterCount := 0; IsMIP := false; MIPGap := 0 |}.

End Lp.

(* ================================================================= *)
(** ** The variables a row mentions *)

Module Blocks.

Import Gurobi.

(** The families of the variables in a linear expression and in a row. *)
Definition expr_names (e : linexpr) : list string :=
  map (fun cv => fst (snd cv)) (terms e).

Definition row_names (c : constr) : list string :=
  expr_names (lhs c) ++ expr_names (rhs c).

Definition among (names : list string) (l : list string) : bool :=
  forallb (fun nm => existsb (String.eqb nm) names) l.

Definition uses_only (names : list string) (c : constr) : bool :=
  among names (row_names c).

Definition generation_block : list string := ["p_g"; "r_g"; "r_dis"]%string.
Definition storage_block : list string :=
  ["p_es"; "p_chg"; "p_dis"; "r_dis"; "q"]%string.
Definition network_block : list string := ["p_br"; "s_c"]%string.
Definition objective_block : list string := ["p_g"; "p_sh"; "s_c"]%string.

Definition in_one_block (c : constr) : bool :=
  orb (uses_only generation_block c)
      (orb (uses_only storage_block c) (uses_only network_block c)).

End Blocks.

(** The dispatch that [OperationalSubproblem.solve] returns when the status
    is not "optimal": [OperationalVariables.zeros]. *)
Module Placeholder.

Import Cap Oper.

Definition zero_dispatch (sp : OperationalSubproblem) : OperationalVariables :=
  {| p_g := zeros (T sp) (G sp); r_g := zeros (T sp) (G sp);
     p_es := zeros (T sp) (S_ sp); p_chg := zeros (T sp) (S_ sp);
     p_dis := zeros (T sp) (S_ sp); r_dis := zeros (T sp) (S_ sp);
     q := zeros (T sp) (S_ sp); p_br := zeros (T sp) (b_br sp);
     p_dc := zeros (T sp) (Net.beta (Oper.network sp));
     p_sh := zeros (T sp) (D sp) |}.

End Placeholder.

(* ================================================================= *)
(** ** Predicates and views used in the statements *)

Module Inv.

Import Net CycleBasis Gurobi Cap Bundle.

(** A well-formed array: as many rows as [nrows], each of length [ncols]. *)
Definition wf (M : matrix) : Prop :=
  length (mdata M) = nrows M /\ Forall (fun r => length r = ncols M) (mdata M).

(** The entry of row [i] in the column of a branch with ends [ft]. *)
Definition entry (ft : nat * nat) (i : nat) (otherwise : res Q) : res Q :=
  if Nat.eqb i (snd ft) then Ok 1
  else if Nat.eqb i (fst ft) then Ok (-1)
  else otherwise.

(** A branch that names a bus the network does not have. *)
Definition out_of_range (net : Network) (br : Branch) : Prop :=
  (Net.n net <= from_node br)%nat \/ (Net.n net <= to_node br)%nat.




(** The number of periods over all scenarios. *)
Definition periods (p : list matrix) : nat := list_sum (map nrows p).

(** The invariant of the marking loop: rows from [k] on are still zero, and
    no row holds more than a single one. *)
Definition marked (k : nat) (C : matrix) : Prop :=
  wf C /\
  (forall i j v, mget C i j = Ok v -> v = 0 \/ v = 1) /\
  (forall i j v, (k <= i)%nat -> mget C i j = Ok v -> v = 0) /\
  (forall i j1 j2, mget C i j1 = Ok 1 -> mget C i j2 = Ok 1 -> j1 = j2).

Section Orientation.

Variable C : matrix.

(** An entry of the directed basis: zero, or a sign on an edge of the
    undirected cycle. *)
Definition oriented_entry (i j : nat) (v : Q) : Prop :=
  v = 0 \/ ((v = 1 \/ v = -1) /\ exists c, mget C i j = Ok c /\ 0 < c).

Definition oriented (D : matrix) : Prop :=
  wf D /\ nrows D = nrows C /\ ncols D = ncols C /\
  forall i j v, mget D i j = Ok v -> oriented_entry i j v.

Definition on_cycle (kappa j : nat) : Prop := exists c, mget C kappa j = Ok c /\ 0 < c.

End Orientation.

(** The engine attributes that [solve] only reads. *)
Definition same_setup (a c : BundleMethod) : Prop :=
  Bundle.network a = Bundle.network c /\ costs a = costs c /\
  scenarios a = scenarios c /\ op_params a = op_params c /\
  alpha a = alpha c /\ epsilon a = epsilon c /\
  max_iterations a = max_iterations c /\
  Bundle.contingencies a = Bundle.contingencies c.

(** The cost [f_k] of a decision as [solve] computes it: the investment
    cost and, over the scenarios, the operating cost and the penalty
    estimate returned by [_solve_subproblems]. *)
Definition total_cost (opt : optimizer) (self : BundleMethod) (x : CapacityDecision)
           (hat : vec) : res Q :=
  '(self1, (theta_k, g_k, sigma_k)) <- _solve_subproblems opt self x hat ;;
  inv_cost <- calculate_cost (costs self) x ;;
  Ok (inv_cost + vsum (map (fun ts => fst ts + snd ts) (combine theta_k sigma_k))).

(** [U_k = min(U_k, f_k)] over the passes with costs [fs]. *)
Fixpoint upper_bound (U : ext) (fs : list Q) : ext :=
  match fs with
  | [] => U
  | f :: fs' => upper_bound (Fin (ext_min U f)) fs'
  end.

(** [if U_k == f_k: x_star = x_k] over the recorded passes. *)
Fixpoint incumbent (U : ext) (star : option CapacityDecision)
         (its : list BundleIteration) : option CapacityDecision :=
  match its with
  | [] => star
  | it :: rest =>
      let u := ext_min U (f_k it) in
      incumbent (Fin u) (if Qeq_bool u (f_k it) then Some (x_k it) else star) rest
  end.

End Inv.

(* ================================================================= *)
(** * Properties *)

Module Facts.

Lemma Qltb_lt (a b : Q) : Qltb a b = true <-> a < b.
Proof.
  unfold Qltb. rewrite negb_true_iff.
  destruct (Qle_bool b a) eqn:E.
  - apply Qle_bool_iff in E. split; [discriminate | intro H; exfalso; lra].
  - split; [intros _ | reflexivity].
    destruct (Qlt_le_dec a b) as [H | H]; [exact H |].
    apply Qle_bool_iff in H. congruence.
Qed.

Lemma Qltb_ge (a b : Q) : Qltb a b = false <-> b <= a.
Proof.
  unfold Qltb. rewrite negb_false_iff. apply Qle_bool_iff.
Qed.

Lemma bind_ok {A B} (m : res A) (k : A -> res B) (r : B) :
  bind m k = Ok r -> exists a, m = Ok a /\ k a = Ok r.
Proof.
  destruct m as [a | e]; simpl; [intro H; exists a; auto | discriminate].
Qed.

Lemma mapM_nth_error {A B} (f : A -> res B) (l : list A) (r : list B) :
  mapM f l = Ok r ->
  forall i a, nth_error l i = Some a ->
              exists y, f a = Ok y /\ nth_error r i = Some y.
Proof.
  revert r. induction l as [| x l IH]; intros r H i a Hi.
  - destruct i; discriminate.
  - simpl in H. apply bind_ok in H as [y [Hy H]].
    apply bind_ok in H as [ys [Hys H]]. injection H as <-.
    destruct i as [| i]; simpl in Hi.
    + injection Hi as ->. exists y. split; [exact Hy | reflexivity].
    + simpl. eapply IH; eauto.
Qed.

Lemma nth_error_seq (start len i : nat) :
  (i < len)%nat -> nth_error (seq start len) i = Some (start + i)%nat.
Proof.
  revert start i. induction len as [| len IH]; intros start i H; [lia |].
  destruct i as [| i]; simpl; [f_equal; lia |].
  rewrite IH by lia. f_equal. lia.
Qed.

Lemma mapM_Forall {A B} (P : B -> Prop) (f : A -> res B) (l : list A) (r : list B) :
  mapM f l = Ok r ->
  (forall a y, In a l -> f a = Ok y -> P y) ->
  Forall P r.
Proof.
  revert r. induction l as [| a l IH]; intros r H HP.
  - injection H as <-. constructor.
  - simpl in H. apply bind_ok in H as [y [Hy H]].
    apply bind_ok in H as [ys [Hys H]]. injection H as <-.
    constructor.
    + apply (HP a); [left; reflexivity | exact Hy].
    + apply IH; [exact Hys |]. intros a' y' Hin. apply HP. right. exact Hin.
Qed.

Lemma mapM_In {A B} (f : A -> res B) (l : list A) (r : list B) (a : A) :
  mapM f l = Ok r -> In a l -> exists y, f a = Ok y /\ In y r.
Proof.
  revert r. induction l as [| a' l IH]; intros r H Hin; [destruct Hin |].
  simpl in H. apply bind_ok in H as [y [Hy H]].
  apply bind_ok in H as [ys [Hys H]]. injection H as <-.
  destruct Hin as [-> | Hin].
  - exists y. split; [exact Hy | left; reflexivity].
  - destruct (IH ys Hys Hin) as [z [Hz Hzin]]. exists z. split; [exact Hz | right; exact Hzin].
Qed.

Lemma mapM_In_inv {A B} (f : A -> res B) (l : list A) (r : list B) (y : B) :
  mapM f l = Ok r -> In y r -> exists a, In a l /\ f a = Ok y.
Proof.
  revert r. induction l as [| a' l IH]; intros r H Hin.
  - injection H as <-. destruct Hin.
  - simpl in H. apply bind_ok in H as [z [Hz H]].
    apply bind_ok in H as [zs [Hzs H]]. injection H as <-.
    destruct Hin as [<- | Hin].
    + exists a'. split; [left; reflexivity | exact Hz].
    + destruct (IH zs Hzs Hin) as [a [Ha Hfa]]. exists a. split; [right; exact Ha | exact Hfa].
Qed.

Lemma mapM_length {A B} (f : A -> res B) (l : list A) (r : list B) :
  mapM f l = Ok r -> length r = length l.
Proof.
  revert r. induction l as [| a l IH]; intros r H.
  - injection H as <-. reflexivity.
  - cbn [mapM] in H. apply bind_ok in H as [y [_ H]].
    apply bind_ok in H as [ys [Hys H]]. injection H as <-.
    cbn [length]. f_equal. apply IH. exact Hys.
Qed.

Lemma abs_le_iff (a b : Q) : Qabs a <= b <-> - b <= a /\ a <= b.
Proof. apply Qabs_Qle_condition. Qed.

End Facts.

(* ================================================================= *)
(** ** Network: bridges *)

Module NetProps.

Import Net.

Lemma reach_nil (u v : nat) : reach [] u v -> u = v.
Proof.
  induction 1 as [| u v w [H | H] _ _]; [reflexivity | destruct H | destruct H].
Qed.

Lemma identify_length (net : Network) :
  length (identify_non_islanding_branches net) = b net.
Proof. unfold identify_non_islanding_branches. apply length_seq. Qed.

Lemma identify_all (net : Network) (j : nat) :
  In j (identify_non_islanding_branches net) <-> (j < b net)%nat.
Proof.
  unfold identify_non_islanding_branches. rewrite in_seq. lia.
Qed.

(** C3 (code defect).  On the two-bus network the only line is a bridge, yet
    [identify_non_islanding_branches] returns it: the returned list is not
    the set of non-bridge branches. *)
Theorem identify_non_islanding_returns_bridge :
  identify_non_islanding_branches two_bus = [0%nat] /\
  is_bridge two_bus 0 /\
  ~ (forall j, In j (identify_non_islanding_branches two_bus) <-> ~ is_bridge two_bus j).
Proof.
  assert (Hb : is_bridge two_bus 0).
  { exists (mk_branch 0 1 100 (1 # 10)). split; [reflexivity |].
    simpl. intro H. apply reach_nil in H. discriminate. }
  split; [reflexivity | split; [exact Hb |]].
  intro H. destruct (H 0%nat) as [H1 _].
  apply H1; [left; reflexivity | exact Hb].
Qed.

End NetProps.

(* ================================================================= *)
(** ** PTDF / LODF kernel *)

Module KernelProps.

Import Net Kernel Corr Facts.

(** C6 (as amended).  After the double loop, the diagonal of the LODF matrix
    is zero, and an off-diagonal entry [(i, j)] is
    [numerator / denominator] when [|denominator| > 1e-6] and zero
    otherwise, where the denominator [1 - PTDF[j,:] . A[:,j]] depends on the
    column only: column [j] is zero as soon as [|denominator| <= 1e-6]. *)
Theorem lodf_kernel_entries (PTDF A : matrix) (b : nat) (L : matrix) (i j : nat) :
  fill_LODF PTDF A b = Ok L ->
  (i < b)%nat -> (j < b)%nat ->
  exists v, mget L i j = Ok v /\
    (i = j -> v = 0) /\
    (i <> j ->
     exists num den,
       numerator PTDF A i j = Ok num /\
       denominator PTDF A j = Ok den /\
       (lodf_threshold < Qabs den -> v = num / den) /\
       (Qabs den <= lodf_threshold -> v = 0)).
Proof.
  intros H Hi Hj. unfold fill_LODF in H.
  apply bind_ok in H as [rows [Hrows H]]. injection H as <-.
  destruct (mapM_nth_error _ _ Hrows i (nth_error_seq 0 Hi)) as [row [Hrow Hnth]].
  destruct (mapM_nth_error _ _ Hrow j (nth_error_seq 0 Hj)) as [v [Hv Hnthv]].
  simpl in Hv, Hnth, Hnthv.
  exists v. split.
  { unfold mget, mrow. simpl. rewrite Hnth. simpl. rewrite Hnthv. reflexivity. }
  unfold lodf_entry in Hv. split.
  - intros ->. rewrite Nat.eqb_refl in Hv. injection Hv as <-. reflexivity.
  - intro Hne. apply Nat.eqb_neq in Hne. rewrite Hne in Hv.
    apply bind_ok in Hv as [num [Hnum Hv]].
    apply bind_ok in Hv as [den [Hden Hv]].
    exists num, den. repeat split; [exact Hnum | exact Hden | |].
    + intro Hlt. apply Qltb_lt in Hlt. rewrite Hlt in Hv. injection Hv as <-. reflexivity.
    + intro Hle. apply Qltb_ge in Hle. rewrite Hle in Hv. injection Hv as <-. reflexivity.
Qed.

Lemma lodf_kernel_entries_witness :
  exists v, mget (Mat 2 2 [[0; 0]; [0; 0]]) 0 1 = Ok v /\
    (0%nat = 1%nat -> v = 0) /\
    (0%nat <> 1%nat ->
     exists num den,
       numerator PTDF_band A_band 0 1 = Ok num /\
       denominator PTDF_band A_band 1 = Ok den /\
       (lodf_threshold < Qabs den -> v = num / den) /\
       (Qabs den <= lodf_threshold -> v = 0)).
Proof.
  apply (@lodf_kernel_entries PTDF_band A_band 2 (Mat 2 2 [[0; 0]; [0; 0]]) 0 1).
  - vm_compute. reflexivity.
  - lia.
  - lia.
Defined.

(** C6, the claim as written fails.  (a) With a denominator of [1e-7], which
    is not below [1e-9], the entry is zero and not [numerator / denominator].
    (b) On the path 0 - 1 - 2 the denominator of branch 0 is zero and its
    column is zero, yet branch 0 stays in the list of contingency-eligible
    branches. *)
Lemma lodf_threshold_counterexample :
  (numerator PTDF_band A_band 0 1 = Ok 1 /\
   denominator PTDF_band A_band 1 = Ok (1 # 10000000) /\
   ~ Qabs (1 # 10000000) < 1 # 1000000000 /\
   (exists L, fill_LODF PTDF_band A_band 2 = Ok L /\ mget L 0 1 = Ok 0) /\
   ~ 0 == 1 / (1 # 10000000)) /\
  (exists PTDF LODF A,
     compute_power_transfer_matrices path3 [0; 0] = Ok (PTDF, LODF) /\
     A_br path3 = Ok A /\
     denominator PTDF (drop_first_row A) 0 = Ok 0 /\
     mcol LODF 0 = Ok [0; 0] /\
     In 0%nat (identify_non_islanding_branches path3)).
Proof.
  split.
  - split; [vm_compute; reflexivity |].
    split; [vm_compute; reflexivity |].
    split; [vm_compute; discriminate |].
    split; [| vm_compute; discriminate].
    eexists. split; vm_compute; reflexivity.
  - do 3 eexists.
    split; [vm_compute; reflexivity |].
    split; [vm_compute; reflexivity |].
    split; [vm_compute; reflexivity |].
    split; [vm_compute; reflexivity |].
    left. reflexivity.
Qed.

End KernelProps.

(* ================================================================= *)
(** ** Transmission correction *)

Module CorrProps.

Import Net Kernel Corr Facts Inv.

(** Within range, the source reads [delta_cont_sorted[ceil(r_i)]] with a
    zero-based index. *)
Lemma branch_update_zero_based (w_i c_br_i eta_c c_vio : Q) (delta_base : list Q)
      (d : Q) (ds : list Q) (k : nat) (x : Q) :
  Qceiling (c_br_i / (eta_c * c_vio)) = Z.of_nat k ->
  nth_error (sorted_desc (d :: ds)) k = Some x ->
  branch_update w_i c_br_i eta_c c_vio delta_base (d :: ds) =
  Ok (clip (Qmax (match delta_base with [] => 0 | _ => list_max delta_base end) x)
           0 (w_i * 2)).
Proof.
  intros Hc Hn. unfold branch_update. rewrite Hc.
  assert (Hlt : (k < length (sorted_desc (d :: ds)))%nat).
  { apply nth_error_Some. rewrite Hn. discriminate. }
  replace (Z.ltb (Z.of_nat k) (Z.of_nat (length (sorted_desc (d :: ds))))) with true
    by (symmetry; apply Z.ltb_lt; lia).
  unfold py_index.
  replace (Z.leb 0 (Z.of_nat k)) with true by (symmetry; apply Z.leb_le; lia).
  rewrite Nat2Z.id, Hn. reflexivity.
Qed.

(** C5 (code defect).  On the path 0 - 1 - 2 with [c_br = 3000],
    [eta_c = 1] and [c_vio = 2000] the rank is [ceil(1.5) = 2]; the
    contingency violations of branch 0 are 30, 10 and 5, its base-case bound
    is 0 and its cap is 200.  The second largest violation is 10; the source
    returns 5, the third largest, at which the cost of the branch
    sub-problem is higher (75000 against 70000). *)
Theorem rtep_returns_next_smaller_violation :
  (exists PTDF LODF,
     compute_power_transfer_matrices path3 [0; 0] = Ok (PTDF, LODF) /\
     branch_deltas path3 PTDF LODF 1 100 0 p_ni_path3 = Ok ([0; 0; 0], [30; 10; 5])) /\
  Qceiling (3000 / (1 * 2000)) = 2%Z /\
  sorted_desc [30; 10; 5] = [30; 10; 5] /\
  transmission_correction_rtep path3 p_ni_path3 [0; 0] 1 (Some [3000; 3000]) 2000
  = Ok [5; 30] /\
  branch_cost 3000 1 2000 [30; 10; 5] 10 == 70000 /\
  branch_cost 3000 1 2000 [30; 10; 5] 5 == 75000.
Proof.
  split.
  - do 2 eexists. split; vm_compute; reflexivity.
  - repeat split; vm_compute; reflexivity.
Qed.

Section Loop.

Variable fsqrt : Q -> Q.
Variable net : Network.
Variable p_ni_star : list matrix.
Variable tol : Q.

Let change := rel_change fsqrt.





End Loop.


End CorrProps.

(* ================================================================= *)
(** ** Solver interface *)

Module GurobiProps.

Import Gurobi.

Lemma gurobi_solve_optimal (s : GurobiSolver) (a : attrs) :
  Status a = GRB_OPTIMAL ->
  status (Gurobi.solve s a) = "optimal"%string /\
  objective_value (Gurobi.solve s a) = Some (ObjVal a) /\
  solution (Gurobi.solve s a) = Some (_extract_solution s (X a)).
Proof.
  intro H. unfold Gurobi.solve. rewrite H. cbn. repeat split.
Qed.

Lemma status_is_mapped (s : GurobiSolver) (a : attrs) :
  status (Gurobi.solve s a) = dict_get status_map (Status a) "unknown"%string.
Proof.
  unfold Gurobi.solve.
  destruct (String.eqb (dict_get status_map (Status a) "unknown"%string) "optimal"%string);
    reflexivity.
Qed.

(** C10.  [GurobiSolver.solve] is a total function of the attributes left
    by the optimiser.  In its result, [objective_value] is [None] exactly
    when the status is not "optimal", and so is [solution]; the six solver
    codes are mapped to their strings and every other code to "unknown". *)
Theorem solve_reports_every_outcome (s : GurobiSolver) (a : attrs) :
  let r := Gurobi.solve s a in
  (objective_value r = None <-> status r <> "optimal"%string) /\
  (solution r = None <-> status r <> "optimal"%string) /\
  (Status a = GRB_OPTIMAL -> status r = "optimal"%string) /\
  (Status a = GRB_INFEASIBLE -> status r = "infeasible"%string) /\
  (Status a = GRB_UNBOUNDED -> status r = "unbounded"%string) /\
  (Status a = GRB_INF_OR_UNBD -> status r = "inf_or_unbd"%string) /\
  (Status a = GRB_TIME_LIMIT -> status r = "time_limit"%string) /\
  (Status a = GRB_ITERATION_LIMIT -> status r = "iteration_limit"%string) /\
  (~ In (Status a) [GRB_OPTIMAL; GRB_INFEASIBLE; GRB_UNBOUNDED; GRB_INF_OR_UNBD;
                    GRB_TIME_LIMIT; GRB_ITERATION_LIMIT] ->
   status r = "unknown"%string).
Proof.
  cbv zeta.
  split; [| split].
  - unfold Gurobi.solve.
    destruct (String.eqb (dict_get status_map (Status a) "unknown"%string) "optimal"%string) eqn:E;
      cbn [objective_value status].
    + apply String.eqb_eq in E. split; [discriminate | congruence].
    + apply String.eqb_neq in E. split; [intros _; exact E | reflexivity].
  - unfold Gurobi.solve.
    destruct (String.eqb (dict_get status_map (Status a) "unknown"%string) "optimal"%string) eqn:E;
      cbn [solution status].
    + apply String.eqb_eq in E. split; [discriminate | congruence].
    + apply String.eqb_neq in E. split; [intros _; exact E | reflexivity].
  - rewrite status_is_mapped.
    repeat split; try (intros ->; reflexivity).
    intro Hnot. unfold status_map, dict_get.
    repeat match goal with
           | |- context [Z.eqb ?x ?y] =>
               destruct (Z.eqb_spec x y) as [Heq | _];
               [exfalso; apply Hnot; rewrite Heq; cbn; tauto |]
           end.
    reflexivity.
Qed.

End GurobiProps.

(* ================================================================= *)
(** ** Operational subproblem *)

Module OperProps.

Import Net Kernel Gurobi Cap Oper Facts GurobiProps.


Lemma generation_rows_base sp x l :
  generation_constraints sp x = Ok l -> Forall base_row l.
Proof.
  unfold generation_constraints. intro H.
  apply bind_ok in H as [tc [_ H]].
  apply bind_ok in H as [per_t [Hper H]]. injection H as <-.
  apply Forall_concat.
  eapply mapM_Forall; [exact Hper |].
  intros t y _ Hy. cbv beta in Hy.
  apply bind_ok in Hy as [caps [Hcaps Hy]].
  apply bind_ok in Hy as [ramps [Hramps Hy]]. injection Hy as <-.
  apply Forall_app. split.
  - eapply mapM_Forall; [exact Hcaps |].
    intros g c _ Hc. cbv beta in Hc.
    apply bind_ok in Hc as [a [_ Hc]].
    apply bind_ok in Hc as [cap [_ Hc]]. injection Hc as <-. reflexivity.
  - apply Forall_concat. destruct (Nat.ltb 0 t).
    + eapply mapM_Forall; [exact Hramps |].
      intros g c _ Hc. cbv beta in Hc.
      apply bind_ok in Hc as [a [_ Hc]].
      apply bind_ok in Hc as [cap [_ Hc]]. injection Hc as <-.
      repeat constructor.
    + injection Hramps as <-. constructor.
Qed.

Lemma emissions_rows_base sp xem l :
  emissions_constraint sp xem = Ok l -> Forall base_row l.
Proof.
  unfold emissions_constraint. intro H.
  apply bind_ok in H as [es [_ H]]. injection H as <-.
  repeat constructor.
Qed.

Lemma storage_rows_base sp x l :
  storage_constraints sp x = Ok l -> Forall base_row l.
Proof.
  unfold storage_constraints. intro H.
  apply bind_ok in H as [pc [_ H]].
  apply bind_ok in H as [ec [_ H]].
  apply bind_ok in H as [per_ts [Hper H]].
  apply bind_ok in H as [cont [Hcont H]]. injection H as <-.
  apply Forall_app. split.
  - apply Forall_concat, Forall_concat.
    eapply mapM_Forall; [exact Hper |].
    intros t y _ Hy. cbv beta in Hy.
    eapply mapM_Forall; [exact Hy |].
    intros s c _ Hc. cbv beta in Hc.
    apply bind_ok in Hc as [a [_ Hc]].
    apply bind_ok in Hc as [cap [_ Hc]]. injection Hc as <-.
    repeat constructor.
  - eapply mapM_Forall; [exact Hcont |].
    intros s c _ Hc. cbv beta in Hc.
    apply bind_ok in Hc as [a [_ Hc]].
    destruct (T sp); [discriminate |]. injection Hc as <-. reflexivity.
Qed.

Lemma reserve_rows_base sp l :
  reserve_constraints sp = Ok l -> Forall base_row l.
Proof.
  unfold reserve_constraints. intro H.
  eapply mapM_Forall; [exact H |].
  intros t c _ Hc. cbv beta in Hc.
  apply bind_ok in Hc as [a [_ Hc]]. injection Hc as <-. reflexivity.
Qed.

Lemma flow_rows_base sp x l :
  _add_power_flow_constraints sp x = Ok l -> Forall base_row l.
Proof.
  unfold _add_power_flow_constraints. intro H.
  apply bind_ok in H as [bc [_ H]].
  apply bind_ok in H as [per_t [Hper H]]. injection H as <-.
  apply Forall_concat, Forall_concat.
  eapply mapM_Forall; [exact Hper |].
  intros t y _ Hy. cbv beta in Hy.
  eapply mapM_Forall; [exact Hy |].
  intros j c _ Hc. cbv beta in Hc.
  apply bind_ok in Hc as [cap [_ Hc]]. injection Hc as <-.
  repeat constructor.
Qed.

(** Projections of the solver state through its updates. *)
Lemma mvars_declare s ds reg : mvars (model (declare s ds reg)) = mvars (model s) ++ ds.
Proof. reflexivity. Qed.
Lemma mconstrs_declare s ds reg : mconstrs (model (declare s ds reg)) = mconstrs (model s).
Proof. reflexivity. Qed.
Lemma mobjective_declare s ds reg :
  mobjective (model (declare s ds reg)) = mobjective (model s).
Proof. reflexivity. Qed.
Lemma vars_declare s ds reg : vars (declare s ds reg) = vars s ++ reg.
Proof. reflexivity. Qed.
Lemma mvars_set_objective s e : mvars (model (set_objective s e)) = mvars (model s).
Proof. reflexivity. Qed.
Lemma mconstrs_set_objective s e :
  mconstrs (model (set_objective s e)) = mconstrs (model s).
Proof. reflexivity. Qed.
Lemma mobjective_set_objective s e : mobjective (model (set_objective s e)) = e.
Proof. reflexivity. Qed.
Lemma vars_set_objective s e : vars (set_objective s e) = vars s.
Proof. reflexivity. Qed.
Lemma mvars_addConstrs s cs : mvars (model (addConstrs s cs)) = mvars (model s).
Proof. reflexivity. Qed.
Lemma mconstrs_addConstrs s cs :
  mconstrs (model (addConstrs s cs)) = mconstrs (model s) ++ cs.
Proof. reflexivity. Qed.
Lemma mobjective_addConstrs s cs :
  mobjective (model (addConstrs s cs)) = mobjective (model s).
Proof. reflexivity. Qed.
Lemma vars_addConstrs s cs : vars (addConstrs s cs) = vars s.
Proof. reflexivity. Qed.

Lemma fold_addVar (cs : list triple) (s : GurobiSolver) :
  let s' := fold_left (fun s c => addVar s (s_c_var c) (Some 0)) cs s in
  mvars (model s') = mvars (model s) ++ map slack_decl cs /\
  mconstrs (model s') = mconstrs (model s) /\
  mobjective (model s') = mobjective (model s) /\
  vars s' = vars s.
Proof.
  revert s. induction cs as [| c cs IH]; intro s; simpl.
  - rewrite app_nil_r. repeat split.
  - destruct (IH (addVar s (s_c_var c) (Some 0))) as (H1 & H2 & H3 & H4).
    rewrite H1, H2, H3, H4. unfold addVar.
    rewrite mvars_declare, mconstrs_declare, mobjective_declare, vars_declare.
    rewrite <- app_assoc, app_nil_r. repeat split.
Qed.

Create Rewrite HintDb solver.
#[local] Hint Rewrite mvars_declare mconstrs_declare mobjective_declare vars_declare
  mvars_set_objective mconstrs_set_objective mobjective_set_objective
  vars_set_objective mvars_addConstrs mconstrs_addConstrs mobjective_addConstrs
  vars_addConstrs : solver.

Lemma build_model_inv (sp : OperationalSubproblem) (x : CapacityDecision)
      (x_em_omega : Q) (s : GurobiSolver) :
  build_model sp x x_em_omega = Ok s ->
  exists obj gen em sto rsv flow cont,
    objective sp = Ok obj /\
    generation_constraints sp x = Ok gen /\
    emissions_constraint sp x_em_omega = Ok em /\
    storage_constraints sp x = Ok sto /\
    reserve_constraints sp = Ok rsv /\
    _add_power_flow_constraints sp x = Ok flow /\
    match contingencies sp with
    | [] => Ok []
    | _ => _add_contingency_constraints sp x
    end = Ok cont /\
    mobjective (model s) = obj /\
    mconstrs (model s) = gen ++ em ++ sto ++ rsv ++ flow ++ cont /\
    mvars (model s) = base_decls sp ++ map slack_decl (contingencies sp) /\
    vars s = registry sp.
Proof.
  unfold build_model, add_continuous_vars. cbn [bind].
  intro H.
  apply bind_ok in H as [obj [Hobj H]].
  apply bind_ok in H as [gen [Hgen H]].
  apply bind_ok in H as [em [Hem H]].
  apply bind_ok in H as [sto [Hsto H]].
  apply bind_ok in H as [rsv [Hrsv H]].
  apply bind_ok in H as [flow [Hflow H]].
  apply bind_ok in H as [cont [Hcont H]].
  injection H as <-.
  exists obj, gen, em, sto, rsv, flow, cont.
  repeat (split; [assumption |]).
  match goal with
  | |- context [fold_left ?f ?cs ?s0] =>
      destruct (fold_addVar cs s0) as (H1 & H2 & H3 & H4)
  end.
  cbv zeta in H1, H2, H3, H4.
  split; [autorewrite with solver; reflexivity |].
  split.
  { autorewrite with solver. rewrite H2. autorewrite with solver.
    simpl. rewrite <- !app_assoc. reflexivity. }
  split.
  { autorewrite with solver. rewrite H1. autorewrite with solver.
    simpl. unfold base_decls, array_decls, array_vars, array2.
    rewrite <- !app_assoc. reflexivity. }
  autorewrite with solver. rewrite H4. autorewrite with solver. reflexivity.
Qed.

(** On a sub-problem that could be constructed (on a meshed network it
    cannot, see the section on meshed networks), the model built by [solve] for a decision [x] holds, for every triple
    [(t, i, j)] of the contingency set, the rows [cont_neg] and [cont_pos],
    which together say
    [|p_br[t,i] + L[i,j] * p_br[t,j]| <= eta_c * (w_br[i] + x_br[i]) + s_c[t,i,j]],
    with the slack declared with lower bound 0 and [L] the LODF matrix
    computed at construction from [x_br_hat]; the model has no other row
    named as a contingency row. *)
Lemma contingency_rows_of_model
        (net : Network) (prm : OperationalParameters) (scn : ScenarioData)
        (x_hat : vec) (conts : list triple) (sp : OperationalSubproblem)
        (x : CapacityDecision) (x_em_omega : Q) (s : GurobiSolver) :
  init net prm scn x_hat conts = Ok sp ->
  build_model sp x x_em_omega = Ok s ->
  exists PTDF_hat LODF_hat branch_capacity,
    _compute_power_transfer_matrices net x_hat = Ok (PTDF_hat, LODF_hat) /\
    vadd (w_br prm) (x_br x) = Ok branch_capacity /\
    (forall t i j, In (t, i, j) conts ->
       exists lam cap,
         mget LODF_hat i j = Ok lam /\
         vget branch_capacity i = Ok cap /\
         In (cont_neg_row sp (t, i, j) lam cap) (mconstrs (model s)) /\
         In (cont_pos_row sp (t, i, j) lam cap) (mconstrs (model s)) /\
         In (slack_decl (t, i, j)) (mvars (model s)) /\
         forall X,
           sat X (cont_neg_row sp (t, i, j) lam cap) /\
           sat X (cont_pos_row sp (t, i, j) lam cap) <->
           Qabs (X (v2 "p_br" t i) + lam * X (v2 "p_br" t j))
           <= eta_c prm * cap + X (s_c_var (t, i, j))) /\
    (forall c, In c (mconstrs (model s)) -> is_contingency_row c = true ->
       exists t i j lam cap,
         In (t, i, j) conts /\
         mget LODF_hat i j = Ok lam /\
         vget branch_capacity i = Ok cap /\
         (c = cont_neg_row sp (t, i, j) lam cap \/
          c = cont_pos_row sp (t, i, j) lam cap)).
Proof.
  intros Hinit Hbuild.
  unfold init in Hinit. apply bind_ok in Hinit as [[P L] [Hpt Hsp]].
  injection Hsp as Hsp.
  assert (Hprm : params sp = prm) by (rewrite <- Hsp; reflexivity).
  assert (Hconts : contingencies sp = conts) by (rewrite <- Hsp; reflexivity).
  assert (HL : LODF sp = L) by (rewrite <- Hsp; reflexivity).
  clear Hsp.
  destruct (build_model_inv _ _ _ Hbuild)
    as (obj & gen & em & sto & rsv & flow & cont & Hobj & Hgen & Hem & Hsto
        & Hrsv & Hflow & Hcont & _ & Hcs & Hvs & _).
  rewrite Hconts in Hcont, Hvs.
  assert (Hbc : exists bc, vadd (w_br prm) (x_br x) = Ok bc).
  { pose proof Hflow as H. unfold _add_power_flow_constraints in H.
    rewrite Hprm in H. apply bind_ok in H as [bc [Hbc _]]. exists bc. exact Hbc. }
  destruct Hbc as [bc Hbc].
  assert (Hrows : exists rows,
             mapM (contingency_rows sp bc) conts = Ok rows /\ cont = concat rows).
  { destruct conts as [| c0 conts'].
    - injection Hcont as <-. exists []. split; reflexivity.
    - unfold _add_contingency_constraints in Hcont.
      rewrite Hprm, Hbc, Hconts in Hcont. simpl in Hcont.
      apply bind_ok in Hcont as [rows [Hrows Hcont]]. injection Hcont as <-.
      exists rows. split; [exact Hrows | reflexivity]. }
  destruct Hrows as [rows [Hrows ->]].
  exists P, L, bc. split; [exact Hpt |]. split; [exact Hbc |]. split.
  - intros t i j Hin.
    destruct (mapM_In _ _ (t, i, j) Hrows Hin) as [two [Htwo Htwo_in]].
    unfold contingency_rows in Htwo. rewrite HL in Htwo.
    apply bind_ok in Htwo as [vi [_ Htwo]].
    apply bind_ok in Htwo as [lam [Hlam Htwo]].
    apply bind_ok in Htwo as [vj [_ Htwo]].
    apply bind_ok in Htwo as [cap [Hcap Htwo]].
    injection Htwo as <-.
    exists lam, cap. split; [exact Hlam |]. split; [exact Hcap |].
    assert (Hsub : forall c, In c [cont_neg_row sp (t, i, j) lam cap;
                                   cont_pos_row sp (t, i, j) lam cap] ->
                             In c (mconstrs (model s))).
    { intros c Hc. rewrite Hcs. rewrite !in_app_iff. do 5 right.
      apply in_concat. eexists. split; [exact Htwo_in | exact Hc]. }
    split; [apply Hsub; left; reflexivity |].
    split; [apply Hsub; right; left; reflexivity |].
    split.
    { rewrite Hvs. apply in_app_iff. right. apply in_map. exact Hin. }
    intro X. unfold sat, cont_neg_row, cont_pos_row, p_brc, eval, lin_sub, lin_add,
      lin_scale, lin_var, lin_const.
    cbn [csense lhs rhs terms constant fold_right app map fst snd].
    rewrite Hprm, abs_le_iff.
    split; intros [H1 H2]; split; lra.
  - intros c Hc Hname. rewrite Hcs in Hc.
    assert (Hbase : forall l, Forall base_row l -> ~ In c l).
    { intros l Hl Hin. rewrite Forall_forall in Hl. specialize (Hl c Hin).
      unfold base_row in Hl. congruence. }
    rewrite !in_app_iff in Hc.
    destruct Hc as [Hc | [Hc | [Hc | [Hc | [Hc | Hc]]]]].
    + exfalso. revert Hc. apply Hbase. eapply generation_rows_base; eauto.
    + exfalso. revert Hc. apply Hbase. eapply emissions_rows_base; eauto.
    + exfalso. revert Hc. apply Hbase. eapply storage_rows_base; eauto.
    + exfalso. revert Hc. apply Hbase. eapply reserve_rows_base; eauto.
    + exfalso. revert Hc. apply Hbase. eapply flow_rows_base; eauto.
    + apply in_concat in Hc as [two [Htwo_in Hc]].
      destruct (mapM_In_inv _ _ _ Hrows Htwo_in) as [[[t i] j] [Hin Htwo]].
      unfold contingency_rows in Htwo. rewrite HL in Htwo.
      apply bind_ok in Htwo as [vi [_ Htwo]].
      apply bind_ok in Htwo as [lam [Hlam Htwo]].
      apply bind_ok in Htwo as [vj [_ Htwo]].
      apply bind_ok in Htwo as [cap [Hcap Htwo]].
      injection Htwo as <-.
      exists t, i, j, lam, cap.
      split; [exact Hin |]. split; [exact Hlam |]. split; [exact Hcap |].
      destruct Hc as [<- | [<- | []]]; [left | right]; reflexivity.
Qed.

(** The path 0 - 1 - 2 with the contingency (period 0, monitored branch 0,
    outaged branch 1) and 20 MW added on branch 0. *)
Lemma contingency_rows_of_model_witness :
  exists sp s,
    init path3 params_path3 scenario_two_bus [0; 0] [(0, 0, 1)%nat] = Ok sp /\
    build_model sp x_path3 0 = Ok s /\
    In (cont_pos_row sp (0, 0, 1)%nat (-1) 120) (mconstrs (model s)).
Proof.
  destruct (init path3 params_path3 scenario_two_bus [0; 0] [(0, 0, 1)%nat])
    as [sp | ex] eqn:Hinit; [| vm_compute in Hinit; discriminate].
  destruct (build_model sp x_path3 0) as [s | ex] eqn:Hbuild.
  2: { exfalso. vm_compute in Hinit. injection Hinit as <-.
       vm_compute in Hbuild. discriminate. }
  exists sp, s. split; [reflexivity |]. split; [exact Hbuild |].
  destruct (contingency_rows_of_model _ _ _ _ _ _ _ Hinit Hbuild)
    as (P & L & bc & Hpt & Hbc & Hall & _).
  destruct (Hall 0%nat 0%nat 1%nat (or_introl eq_refl))
    as (lam & cap & Hlam & Hcap & _ & Hpos & _).
  vm_compute in Hpt. injection Hpt as <- <-.
  vm_compute in Hbc. injection Hbc as <-.
  vm_compute in Hlam. injection Hlam as <-.
  vm_compute in Hcap. injection Hcap as <-.
  exact Hpos.
Defined.
Lemma solve_optimal (opt : optimizer) (sp : OperationalSubproblem)
      (x : CapacityDecision) (x_em_omega : Q) (s : GurobiSolver) :
  build_model sp x x_em_omega = Ok s ->
  Status (opt (model s)) = GRB_OPTIMAL ->
  solve opt sp x x_em_omega =
  (ov <- post_init (primal sp (X (opt (model s)))) ;;
   Ok (Gurobi.solve s (opt (model s)), ov)).
Proof.
  intros Hb Hst.
  destruct (build_model_inv _ _ _ Hb) as (obj & gen & em & sto & rsv & flow & cont & H).
  destruct H as (_ & _ & _ & _ & _ & _ & _ & _ & _ & _ & Hvars).
  destruct (gurobi_solve_optimal s _ Hst) as (H1 & _ & H3).
  unfold solve. rewrite Hb. cbn [bind]. rewrite H1, H3.
  unfold _extract_solution. rewrite Hvars.
  reflexivity.
Qed.

Lemma all_ge_true (M : matrix) (bound : Q) :
  Forall (Forall (Qle bound)) (mdata M) -> all_ge M bound = true.
Proof.
  intro H. unfold all_ge. apply forallb_forall. intros r Hr.
  rewrite Forall_forall in H. specialize (H r Hr).
  apply forallb_forall. intros a Ha. rewrite Forall_forall in H.
  apply Qle_bool_iff. apply H. exact Ha.
Qed.

(** C1 (code defect).  Two buses, a generator at bus 0, a load of 60 MW at
    bus 1, one line.  The model built by [solve] has an optimal solution (the
    idle dispatch), and whenever the solver reports an optimal solution of
    that model, [solve] returns it with status "optimal", the branch limits
    hold, and the nodal balance is violated by more than [1e-6]. *)
Theorem solve_optimal_violates_nodal_balance :
  exists sp s,
    init two_bus params_two_bus scenario_two_bus [0] [] = Ok sp /\
    build_model sp x_zero_two_bus 0 = Ok s /\
    optimal_for (model s) idle_dispatch /\
    forall opt : optimizer,
      sound_on opt (model s) ->
      Status (opt (model s)) = GRB_OPTIMAL ->
      exists r ov,
        solve opt sp x_zero_two_bus 0 = Ok (r, ov) /\
        status r = "optimal"%string /\
        branch_limits_hold params_two_bus x_zero_two_bus ov /\
        ~ nodal_balance_within (1 # 1000000) two_bus params_two_bus
            scenario_two_bus ov.
Proof.
  destruct (init two_bus params_two_bus scenario_two_bus [0] [])
    as [sp | ex] eqn:Hinit; [| vm_compute in Hinit; discriminate].
  destruct (build_model sp x_zero_two_bus 0) as [s | ex] eqn:Hbuild.
  2: { exfalso. vm_compute in Hinit. injection Hinit as <-.
       vm_compute in Hbuild. discriminate. }
  exists sp, s. split; [reflexivity |]. split; [exact Hbuild |].
  pose proof Hbuild as Hb.
  vm_compute in Hinit. injection Hinit as Hsp.
  rewrite <- Hsp in Hb. vm_compute in Hb. injection Hb as Hs.
  assert (Hfeas : forall y, feasible (model s) y ->
            0 <= y (v2 "p_g" 0 0) /\ 0 <= y (v2 "r_g" 0 0) /\
            0 <= y (v2 "p_sh" 0 0) /\
            y (v2 "p_br" 0 0) <= 100 /\ -100 <= y (v2 "p_br" 0 0)).
  { intros y [Hbd Hct]. rewrite <- Hs in Hbd, Hct. cbn [model mvars mconstrs] in Hbd, Hct.
    repeat match goal with
           | H : Forall _ (_ :: _) |- _ => inversion H; subst; clear H
           end.
    repeat match goal with
           | H : in_bounds _ _ |- _ => unfold in_bounds in H; cbn in H
           | H : sat _ _ |- _ => unfold sat, eval in H; cbn in H
           end.
    unfold v2. repeat split; lra. }
  assert (Hopt : optimal_for (model s) idle_dispatch).
  { split.
    - rewrite <- Hs. split; cbn [model mvars mconstrs].
      + repeat constructor; vm_compute; discriminate.
      + repeat constructor; vm_compute; discriminate.
    - intros y Hy. destruct (Hfeas y Hy) as (H1 & _ & H2 & _).
      unfold v2 in H1, H2. rewrite <- Hs. unfold eval. cbn. lra. }
  split; [exact Hopt |].
  intros opt Hsound Hst.
  destruct (Hsound Hst) as [[HfeasX HoptX] _].
  specialize (HoptX _ (proj1 Hopt)).
  destruct (Hfeas _ HfeasX) as (Hpg & Hrg & Hpsh & Hbr1 & Hbr2).
  rewrite (solve_optimal opt sp x_zero_two_bus 0 Hbuild Hst).
  unfold v2 in Hpg, Hrg, Hpsh, Hbr1, Hbr2.
  remember (X (opt (model s))) as xv eqn:Hxv. clear Hxv HfeasX Hsound.
  rewrite <- Hs in HoptX. unfold eval in HoptX. cbn in HoptX.
  assert (Hpi : post_init (primal sp xv) = Ok (primal sp xv)).
  { unfold post_init. rewrite <- Hsp.
    rewrite !all_ge_true; [reflexivity | ..];
      cbn; repeat constructor; lra. }
  exists (Gurobi.solve s (opt (model s))), (primal sp xv).
  rewrite Hpi. split; [reflexivity |].
  split; [apply gurobi_solve_optimal; exact Hst |].
  split.
  - intros t j f Hget. rewrite <- Hsp in Hget.
    destruct t as [| t]; [| destruct t; discriminate].
    destruct j as [| j]; [| destruct j; discriminate].
    cbn in Hget. injection Hget as <-.
    eexists. split; [reflexivity |].
    apply abs_le_iff. cbn. split; lra.
  - intro Hbal. destruct (Hbal 0%nat) as [r [Hr Hall]].
    { rewrite <- Hsp. cbn. lia. }
    rewrite <- Hsp in Hr.
    cbv - [Qplus Qmult Qminus Qopp] in Hr. injection Hr as <-.
    inversion Hall as [| a1 l1 H1 Hall1]; subst.
    inversion Hall1 as [| a2 l2 H2 _]; subst.
    apply abs_le_iff in H1, H2. lra.
Qed.

Lemma nth_error_seq_inv (start len i k : nat) :
  nth_error (seq start len) i = Some k -> (i < len)%nat /\ k = (start + i)%nat.
Proof.
  intro H. assert (Hi : (i < len)%nat).
  { assert (Hn : nth_error (seq start len) i <> None) by congruence.
    apply nth_error_Some in Hn. rewrite length_seq in Hn. exact Hn. }
  split; [exact Hi |]. rewrite (nth_error_seq start Hi) in H. congruence.
Qed.

Lemma mget_values (name : string) (r c : nat) (xv : var -> Q) (t j : nat) (f : Q) :
  mget (values name r c xv) t j = Ok f ->
  (t < r)%nat /\ (j < c)%nat /\ f = xv (name, [t; j]).
Proof.
  unfold mget, mrow, values, array2. cbn [mdata].
  rewrite !nth_error_map.
  destruct (nth_error (seq 0 r) t) as [t' |] eqn:Ht; [| discriminate].
  apply nth_error_seq_inv in Ht as [Ht ->].
  cbn [option_map of_option bind].
  rewrite !nth_error_map.
  destruct (nth_error (seq 0 c) j) as [j' |] eqn:Hj; [| discriminate].
  apply nth_error_seq_inv in Hj as [Hj ->].
  cbn. intro H. injection H as <-. auto.
Qed.

(** The true half of C1: whatever feasible point the solver returns, the
    base-case branch limits hold at the primal that [solve] assembles. *)
Lemma feasible_respects_branch_limits (sp : OperationalSubproblem)
      (x : CapacityDecision) (x_em_omega : Q) (s : GurobiSolver) (xv : var -> Q) :
  build_model sp x x_em_omega = Ok s ->
  feasible (model s) xv ->
  branch_limits_hold (params sp) x (primal sp xv).
Proof.
  intros Hb [_ Hsat] t j f Hget.
  apply mget_values in Hget as (Ht & Hj & ->).
  destruct (build_model_inv _ _ _ Hb)
    as (obj & gen & em & sto & rsv & flow & cont & _ & _ & _ & _ & _ & Hflow & _ & _ & Hcs & _).
  unfold _add_power_flow_constraints in Hflow.
  apply bind_ok in Hflow as [bc [Hbc Hflow]].
  apply bind_ok in Hflow as [per_t [Hper Hflow]]. injection Hflow as <-.
  destruct (mapM_nth_error _ _ Hper t (nth_error_seq 0 Ht)) as [row [Hrow Hrow_in]].
  destruct (mapM_nth_error _ _ Hrow j (nth_error_seq 0 Hj)) as [two [Htwo Htwo_in]].
  cbn [Nat.add] in Htwo. apply bind_ok in Htwo as [cap [Hcap Htwo]].
  injection Htwo as <-.
  exists cap. split; [rewrite Hbc; exact Hcap |].
  assert (Hin : forall c,
             In c [Constr (named "branch_cap_pos" [t; j]) (P_br t j) LE (lin_const cap);
                   Constr (named "branch_cap_neg" [t; j]) (P_br t j) GE
                          (lin_const (- cap))] ->
             sat xv c).
  { intros c Hc. rewrite Forall_forall in Hsat. apply Hsat. rewrite Hcs.
    rewrite !in_app_iff. do 4 right. left.
    apply in_concat. eexists. split.
    - apply in_concat. eexists. split; [eapply nth_error_In; exact Hrow_in |].
      eapply nth_error_In. exact Htwo_in.
    - exact Hc. }
  pose proof (Hin _ (or_introl eq_refl)) as Hpos.
  pose proof (Hin _ (or_intror (or_introl eq_refl))) as Hneg.
  unfold sat, eval in Hpos, Hneg. cbn in Hpos, Hneg.
  apply abs_le_iff. unfold v2 in *. split; lra.
Qed.
End OperProps.

(* ================================================================= *)
(** ** Bundle method *)

Module BundleProps.
Import Net Gurobi Cap Oper Bundle Facts GurobiProps OperProps.

Lemma list_set_same {A} (l : list A) (i : nat) (a : A) :
  nth_error l i = Some a -> list_set l i a = l.
Proof.
  revert i. induction l as [| c l IH]; intros i H; [reflexivity |].
  destruct i as [| i]; simpl in *.
  - injection H as ->. reflexivity.
  - f_equal. apply IH. exact H.
Qed.

Lemma of_option_ok {A} (e : exn) (o : option A) (a : A) :
  of_option e o = Ok a -> o = Some a.
Proof. destruct o; simpl; congruence. Qed.

(** The contingency oracle of the source finds nothing, so the loop over
    scenarios leaves the engine as it was. *)
Lemma solve_scenario_self opt self x_k hat omega self' r :
  solve_scenario opt self x_k hat omega = Ok (self', r) -> self' = self.
Proof.
  unfold solve_scenario. intro H.
  apply bind_ok in H as [scn [_ H]].
  apply bind_ok in H as [conts [Hc H]]. apply of_option_ok in Hc.
  apply bind_ok in H as [sp [_ H]].
  apply bind_ok in H as [xem [_ H]].
  apply bind_ok in H as [[result ov] [_ H]].
  destruct (String.eqb (status result) "optimal").
  - apply bind_ok in H as [theta [_ H]]. injection H as <- _.
    unfold _identify_violated_contingencies, set_update. cbn [fold_left].
    rewrite (list_set_same _ _ Hc). destruct self. reflexivity.
  - injection H as <- _. reflexivity.
Qed.

Lemma solve_scenarios_spec opt self x_k hat omegas self' rs :
  solve_scenarios opt self x_k hat omegas = Ok (self', rs) ->
  self' = self /\
  Forall2 (fun omega r => solve_scenario opt self x_k hat omega = Ok (self, r)) omegas rs.
Proof.
  revert self' rs. induction omegas as [| omega rest IH]; intros self' rs H.
  - injection H as <- <-. split; [reflexivity | constructor].
  - simpl in H. apply bind_ok in H as [[s1 r] [H1 H]].
    pose proof (solve_scenario_self _ _ _ _ _ H1) as ->.
    apply bind_ok in H as [[s2 rs'] [H2 H]]. injection H as <- <-.
    destruct (IH _ _ H2) as [-> HF].
    split; [reflexivity |]. constructor; assumption.
Qed.

Lemma Forall2_nth_error {A B} (P : A -> B -> Prop) (l : list A) (l' : list B) :
  Forall2 P l l' ->
  forall i a, nth_error l i = Some a -> exists y, nth_error l' i = Some y /\ P a y.
Proof.
  induction 1 as [| a0 y0 l l' Hp _ IH]; intros i a Hi.
  - destruct i; discriminate.
  - destruct i as [| i]; simpl in Hi.
    + injection Hi as <-. exists y0. split; [reflexivity | exact Hp].
    + apply IH. exact Hi.
Qed.

(** What one pass computes, read off the definition of [iteration]. *)
Lemma iteration_inv opt hat kk st st' broke :
  iteration opt hat kk st = Ok (st', broke) ->
  exists rs inv_cost,
    let self1 := self_ st in
    let theta_k := map (fun r => fst (fst r)) rs in
    let g_k := map (fun r => snd (fst r)) rs in
    let sigma_k := map snd rs in
    let f := inv_cost + vsum (map (fun ts => fst ts + snd ts) (combine theta_k sigma_k)) in
    let U := ext_min (cur_U st) f in
    Forall2 (fun omega r => solve_scenario opt self1 (cur_x st) hat omega = Ok (self1, r))
            (seq 0 (length (scenarios self1))) rs /\
    calculate_cost (costs self1) (cur_x st) = Ok inv_cost /\
    cur_U st' = Fin U /\
    cur_L st' = 0 /\
    broke = Qltb (relative_gap U 0) (epsilon self1) /\
    x_star st' = (if Qeq_bool U f then Some (cur_x st) else x_star st) /\
    cur_x st' = (if broke then cur_x st else zero_decision self1) /\
    cutting_planes (self_ st') = append_cuts (cutting_planes self1) theta_k g_k /\
    epsilon (self_ st') = epsilon self1.
Proof.
  unfold iteration, _solve_subproblems. intro H.
  apply bind_ok in H as [[self [[theta g] sigma]] [H1 H]].
  apply bind_ok in H1 as [[self0 rs] [H1 H2]].
  injection H2 as <- <- <- <-.
  apply solve_scenarios_spec in H1 as [-> HF].
  apply bind_ok in H as [inv_cost [Hc H]].
  exists rs, inv_cost. cbv zeta.
  split; [exact HF |]. split; [exact Hc |].
  unfold _solve_master_problem in H. cbn [epsilon with_iterations with_cutting_planes] in H.
  destruct (Qltb _ _) eqn:E in H; injection H as <- <-; cbn; rewrite ?E;
    repeat split; reflexivity.
Qed.

(** Where the test of the source and the test of the specification can
    part: with [L_k = 0], as the master problem returns it, and a positive
    [epsilon] they give the same answer for every upper bound outside the
    open interval (0, 1). *)
Lemma source_and_spec_gap_agree (U eps : Q) :
  0 < eps -> U <= 0 \/ 1 <= U ->
  (spec_gap U 0 < eps <-> relative_gap U 0 < eps).
Proof.
  intros Heps [HU | HU]; unfold spec_gap, relative_gap.
  - assert (E : Qltb 0 U = false) by (apply Qltb_ge; exact HU). rewrite E.
    assert (Hm : 1 <= Qmax (Qabs U) 1).
    { unfold Qmax. destruct (Qle_bool (Qabs U) 1) eqn:Em; [lra |].
      destruct (Qle_bool 1 (Qabs U)) eqn:E1; [apply Qle_bool_iff; exact E1 |].
      exfalso. destruct (Qlt_le_dec (Qabs U) 1) as [Hlt | Hge].
      - assert (Hle : Qabs U <= 1) by lra. apply Qle_bool_iff in Hle. congruence.
      - apply Qle_bool_iff in Hge. congruence. }
    split; [intros _; exact Heps | intros _].
    apply Qle_lt_trans with 0; [| exact Heps].
    assert (Hinv : 0 < / Qmax (Qabs U) 1) by (apply Qinv_lt_0_compat; lra).
    unfold Qdiv. setoid_replace (U - 0) with U by ring. nra.
  - assert (E : Qltb 0 U = true) by (apply Qltb_lt; lra). rewrite E.
    assert (Hm : Qmax (Qabs U) 1 == U).
    { assert (Ha : Qabs U == U) by (apply Qabs_pos; lra).
      unfold Qmax. destruct (Qle_bool (Qabs U) 1) eqn:Em; [| exact Ha].
      apply Qle_bool_iff in Em. lra. }
    rewrite Hm. reflexivity.
Qed.

(** C4, the claim as written fails.  With [epsilon = 0] and a generator that
    earns 5 per MWh, the optimal scenario cost is -455.  [solve] records
    [f_1 = -455] and [L_1 = 0] in its first pass: the gap of the
    specification, [(U_1 - L_1) / max(|U_1|, 1) = -1], is below [epsilon],
    yet [solve] does not stop there; the gap it records is [0], not below
    [epsilon], and it runs all 3 passes of its cap.  The two formulas also
    differ for a positive bound below 1. *)
Lemma spec_gap_counterexample :
  (exists sp s,
     Oper.init two_bus params_two_bus scenario_credit [0] [] = Ok sp /\
     build_model sp x_zero_two_bus 0 = Ok s /\
     optimal_for (model s) credit_dispatch /\
     eval credit_dispatch (mobjective (model s)) == -455) /\
  (exists self' x_star U it1 it2 it3,
     Bundle.solve opt_credit (engine scenario_credit 0 3) [0] = Ok (self', (x_star, U)) /\
     max_iterations (engine scenario_credit 0 3) = 3%nat /\
     iterations self' = [it1; it2; it3] /\
     k it1 = 1%nat /\ f_k it1 == -455 /\ L_k it1 = 0 /\
     spec_gap (f_k it1) (L_k it1) == -1 /\
     spec_gap (f_k it1) (L_k it1) < epsilon (engine scenario_credit 0 3) /\
     gap it1 == 0 /\
     ~ gap it1 < epsilon (engine scenario_credit 0 3)) /\
  spec_gap (1 # 2) 0 == 1 # 2 /\ relative_gap (1 # 2) 0 == 1.
Proof.
  split; [| split].
  - destruct (Oper.init two_bus params_two_bus scenario_credit [0] [])
      as [sp | ex] eqn:Hinit; [| vm_compute in Hinit; discriminate].
    destruct (build_model sp x_zero_two_bus 0) as [s | ex] eqn:Hbuild.
    2: { exfalso. vm_compute in Hinit. injection Hinit as <-.
         vm_compute in Hbuild. discriminate. }
    exists sp, s. split; [reflexivity |]. split; [exact Hbuild |].
    vm_compute in Hinit. injection Hinit as Hsp.
    rewrite <- Hsp in Hbuild. vm_compute in Hbuild. injection Hbuild as Hs.
    rewrite <- Hs. cbn [model mobjective].
    split; [| vm_compute; reflexivity].
    split.
    + split; cbn [mvars mconstrs]; repeat constructor; vm_compute; discriminate.
    + intros y [Hbd Hct]. cbn [mvars mconstrs] in Hbd, Hct.
      repeat match goal with
             | H : Forall _ (_ :: _) |- _ => inversion H; subst; clear H
             end.
      repeat match goal with
             | H : in_bounds _ _ |- _ => unfold in_bounds in H; cbn in H
             | H : sat _ _ |- _ => unfold sat, eval in H; cbn in H
             end.
      unfold eval. cbn. lra.
  - do 6 eexists. split; [vm_compute; reflexivity |].
    split; [reflexivity |]. split; [reflexivity |].
    cbn [k f_k L_k gap].
    split; [reflexivity |]. split; [reflexivity |]. split; [reflexivity |].
    split; [vm_compute; reflexivity |]. split; [vm_compute; reflexivity |].
    split; [reflexivity |]. vm_compute. intro H. discriminate H.
  - split; vm_compute; reflexivity.
Qed.

Lemma all_ge_zeros (r c : nat) : all_ge (zeros r c) (- (1 # 1000000)) = true.
Proof.
  apply all_ge_true. unfold zeros. cbn [mdata].
  apply Forall_forall. intros row Hrow. apply repeat_spec in Hrow as ->.
  apply Forall_forall. intros a Ha. apply repeat_spec in Ha as ->.
  discriminate.
Qed.

Lemma op_zeros_ok (T G S b beta D : nat) : exists ov, op_zeros T G S b beta D = Ok ov.
Proof.
  unfold op_zeros, post_init. cbn [Cap.p_g Cap.r_g Cap.p_es Cap.p_chg Cap.p_dis
    Cap.r_dis Cap.q Cap.p_br Cap.p_dc Cap.p_sh].
  rewrite !all_ge_zeros. unfold zeros. cbn [nrows]. rewrite !Nat.eqb_refl.
  cbn [andb]. eexists. reflexivity.
Qed.

(** A status other than "optimal" makes [OperationalSubproblem.solve] return
    the result with the zero placeholder; nothing is raised. *)
Lemma solve_nonoptimal (opt : optimizer) (sp : OperationalSubproblem)
      (x : CapacityDecision) (x_em_omega : Q) (s : GurobiSolver) :
  build_model sp x x_em_omega = Ok s ->
  status (Gurobi.solve s (opt (model s))) <> "optimal"%string ->
  exists ov,
    Oper.solve opt sp x x_em_omega = Ok (Gurobi.solve s (opt (model s)), ov).
Proof.
  intros Hb Hst. unfold Oper.solve. rewrite Hb. cbn [bind].
  apply String.eqb_neq in Hst. rewrite Hst.
  destruct (op_zeros_ok (T sp) (G sp) (S_ sp) (b_br sp) (Net.beta (Oper.network sp)) (D sp))
    as [ov Hov].
  rewrite Hov. exists ov. reflexivity.
Qed.

Lemma append_cuts_nth (cp : list (list cut)) (theta_k : list Q) (g_k : list vec)
      (omega : nat) (old : list cut) (theta : Q) (g : vec) :
  nth_error cp omega = Some old ->
  nth_error theta_k omega = Some theta ->
  nth_error g_k omega = Some g ->
  nth_error (append_cuts cp theta_k g_k) omega = Some (old ++ [(theta, g)]).
Proof.
  unfold append_cuts. revert theta_k g_k omega.
  induction cp as [| c cp IH]; intros theta_k g_k omega H1 H2 H3.
  - destruct omega; discriminate.
  - destruct theta_k as [| t theta_k]; [destruct omega; discriminate |].
    destruct g_k as [| g0 g_k]; [destruct omega; discriminate |].
    destruct omega as [| omega]; simpl in *.
    + injection H1 as ->. injection H2 as ->. injection H3 as ->. reflexivity.
    + apply IH; assumption.
Qed.

(** C9 (as amended).  When the solver's status for a scenario is not
    "optimal", the scenario step raises nothing and returns the cost [1e12],
    the zero subgradient and no penalty; the pass appends the cut
    [(1e12, 0)] to that scenario's cutting-plane model, and the loop goes on
    unless the gap test ends it. *)
Theorem nonoptimal_scenario_gets_big_constant_cut
        (opt : optimizer) (hat : vec) (kk : nat) (ks : list nat)
        (st st' : locals) (broke : bool) (omega : nat)
        (scn : ScenarioData) (conts : list triple) (sp : OperationalSubproblem)
        (xem : Q) (s : GurobiSolver) (old : list cut) :
  iteration opt hat kk st = Ok (st', broke) ->
  nth_error (scenarios (self_ st)) omega = Some scn ->
  nth_error (Bundle.contingencies (self_ st)) omega = Some conts ->
  Oper.init (Bundle.network (self_ st)) (op_params (self_ st)) scn hat conts = Ok sp ->
  vget (x_em (cur_x st)) omega = Ok xem ->
  build_model sp (cur_x st) xem = Ok s ->
  status (Gurobi.solve s (opt (model s))) <> "optimal"%string ->
  nth_error (cutting_planes (self_ st)) omega = Some old ->
  solve_scenario opt (self_ st) (cur_x st) hat omega
  = Ok (self_ st, (big_cost, zero_subgradient (cur_x st), 0)) /\
  nth_error (cutting_planes (self_ st')) omega
  = Some (old ++ [(big_cost, zero_subgradient (cur_x st))]) /\
  loop opt hat (kk :: ks) st = (if broke then Ok st' else loop opt hat ks st').
Proof.
  intros Hit Hscn Hconts Hinit Hxem Hb Hst Hold.
  assert (Hstep : solve_scenario opt (self_ st) (cur_x st) hat omega
                  = Ok (self_ st, (big_cost, zero_subgradient (cur_x st), 0))).
  { unfold solve_scenario. rewrite Hscn, Hconts. cbn [of_option bind].
    rewrite Hinit. cbn [bind]. rewrite Hxem. cbn [bind].
    destruct (solve_nonoptimal opt sp (cur_x st) xem Hb Hst) as [ov Hov].
    rewrite Hov. cbn [bind].
    apply String.eqb_neq in Hst. rewrite Hst. reflexivity. }
  split; [exact Hstep |].
  split; [| cbn [loop]; rewrite Hit; reflexivity].
  pose proof (iteration_inv _ _ _ _ Hit) as (rs & inv_cost & Hinv).
  cbv zeta in Hinv. destruct Hinv as (HF & _ & _ & _ & _ & _ & _ & Hcp & _).
  assert (Hlt : (omega < length (scenarios (self_ st)))%nat).
  { apply nth_error_Some. congruence. }
  destruct (Forall2_nth_error HF omega (nth_error_seq 0 Hlt)) as [r [Hr Hsr]].
  cbn [Nat.add] in Hsr. rewrite Hstep in Hsr. injection Hsr as <-.
  rewrite Hcp. apply append_cuts_nth; [exact Hold | |];
    rewrite nth_error_map, Hr; reflexivity.
Qed.

(** The overloaded two-bus engine with a solver answering "infeasible". *)
Lemma nonoptimal_scenario_witness :
  exists st',
    iteration opt_infeasible [0] 1 (start (engine scenario_overload default_epsilon 2))
    = Ok (st', false) /\
    nth_error (cutting_planes (self_ st')) 0 = Some [(big_cost, [0; 0; 0])].
Proof.
  destruct (iteration opt_infeasible [0] 1
              (start (engine scenario_overload default_epsilon 2)))
    as [[st' broke] | ex] eqn:Hit; [| vm_compute in Hit; discriminate].
  destruct (Oper.init two_bus params_two_bus scenario_overload [0] [])
    as [sp | ex] eqn:Hinit; [| vm_compute in Hinit; discriminate].
  destruct (build_model sp x_zero_two_bus 0) as [s | ex] eqn:Hbuild.
  2: { exfalso. vm_compute in Hinit. injection Hinit as <-.
       vm_compute in Hbuild. discriminate. }
  destruct (@nonoptimal_scenario_gets_big_constant_cut
              opt_infeasible [0] 1 [2%nat] _ st' broke 0 scenario_overload [] sp 0 s []
              Hit eq_refl eq_refl Hinit eq_refl Hbuild)
    as (_ & Hcut & _).
  - rewrite status_is_mapped. vm_compute. discriminate.
  - reflexivity.
  - assert (Hb : broke = false).
    { vm_compute in Hit. injection Hit as _ <-. reflexivity. }
    subst broke. exists st'. split; [reflexivity | exact Hcut].
Defined.

(** C9, the claim as written fails.  The LP of the overloaded scenario has
    no feasible point.  Its cost is recorded as the finite number [1e12]:
    the upper bound after the pass is [1e12], not infinity; and the cut that
    is appended has a zero subgradient, so it bounds the scenario cost by the
    same constant at every capacity decision and excludes none. *)
Lemma big_cost_counterexample :
  (exists sp s,
     Oper.init two_bus params_two_bus scenario_overload [0] [] = Ok sp /\
     build_model sp x_zero_two_bus 0 = Ok s /\
     forall y, ~ feasible (model s) y) /\
  (exists st1,
     iteration opt_infeasible [0] 1 (start (engine scenario_overload default_epsilon 2))
     = Ok (st1, false) /\
     cur_U st1 = Fin big_cost /\
     cur_U st1 <> PInf /\
     cutting_planes (self_ st1) = [[(big_cost, [0; 0; 0])]] /\
     forall x : vec, big_cost + dot_aux [0; 0; 0] x == big_cost).
Proof.
  split.
  - destruct (Oper.init two_bus params_two_bus scenario_overload [0] [])
      as [sp | ex] eqn:Hinit; [| vm_compute in Hinit; discriminate].
    destruct (build_model sp x_zero_two_bus 0) as [s | ex] eqn:Hbuild.
    2: { exfalso. vm_compute in Hinit. injection Hinit as <-.
         vm_compute in Hbuild. discriminate. }
    exists sp, s. split; [reflexivity |]. split; [exact Hbuild |].
    vm_compute in Hinit. injection Hinit as Hsp.
    rewrite <- Hsp in Hbuild. vm_compute in Hbuild. injection Hbuild as Hs.
    intros y [Hbd Hct]. rewrite <- Hs in Hbd, Hct. cbn [model mvars mconstrs] in Hbd, Hct.
    repeat match goal with
           | H : Forall _ (_ :: _) |- _ => inversion H; subst; clear H
           end.
    repeat match goal with
           | H : in_bounds _ _ |- _ => unfold in_bounds in H; cbn in H
           | H : sat _ _ |- _ => unfold sat, eval in H; cbn in H
           end.
    lra.
  - eexists. split; [vm_compute; reflexivity |].
    split; [reflexivity |]. split; [discriminate |]. split; [reflexivity |].
    intro x. destruct x as [| a [| b [| c x]]]; cbn; lra.
Qed.
End BundleProps.

(* ================================================================= *)
(** ** Cycle basis *)

Module CycleProps.

Import Net CycleBasis Facts.

(** On the unit row of the triangle every feasible point of the integer
    program contains the marked edge, so it is not shorter than the row. *)
Lemma unit_row_not_improved (v : vec) :
  ip_feasible (Mat 1 3 [[0; 0; 1]]) 0 v -> 1 <= vsum v.
Proof.
  intros (w & u & Hw & Hk & Hv & Hbin & Hsum).
  cbn [nrows ncols] in *.
  destruct w as [| w0 [| w1 w]]; try discriminate.
  cbn in Hk. subst w0.
  destruct v as [| a [| b [| c [| d v]]]]; try discriminate.
  inversion Hbin as [| ? ? Ha Hbin1]; subst.
  inversion Hbin1 as [| ? ? Hb Hbin2]; subst.
  inversion Hbin2 as [| ? ? Hc _]; subst.
  specialize (Hsum 2%nat ltac:(lia)).
  remember (nth 2 u 0%Z) as z eqn:Hz. clear Hz.
  remember (inject_Z (2 * z)) as q eqn:Hq.
  cbn in Hsum.
  assert (Hc1 : c == 1).
  { destruct Hc as [Hc | Hc]; [| exact Hc]. exfalso.
    rewrite Hc in Hsum.
    assert (H2 : inject_Z 1 == inject_Z (2 * z)).
    { rewrite <- Hq. change (inject_Z 1) with 1. clear Hq. lra. }
    apply (proj1 (inject_Z_injective _ _)) in H2. lia. }
  unfold vsum. cbn. clear Hq.
  destruct Ha as [Ha | Ha], Hb as [Hb | Hb]; lra.
Qed.

(** C2 (code defect).  For the triangle, a valid connected topology with
    [b - n + 1 = 1], the fundamental basis of the source is the single row
    [0 0 1], the integer program cannot shorten it, the orientation step
    leaves it as it is, and the product [D . A^T] is [-1 0 1], not zero: the
    row is one edge, not a closed cycle. *)
Theorem minimal_basis_of_triangle_is_not_closed :
  A_br triangle = Ok A_triangle /\
  compute_fundamental_cycle_basis A_triangle = Ok (Mat 1 3 [[0; 0; 1]]) /\
  compute_minimal_cycle_basis solve_shortest_cycle_ip A_triangle None
  = Ok (Mat 1 3 [[0; 0; 1]]) /\
  matmul (Mat 1 3 [[0; 0; 1]]) (transpose A_triangle) = Ok (Mat 1 3 [[-1; 0; 1]]) /\
  ~ closed_cycles (Mat 1 3 [[0; 0; 1]]) A_triangle /\
  entries_in_unit (Mat 1 3 [[0; 0; 1]]).
Proof.
  split; [vm_compute; reflexivity |].
  split; [vm_compute; reflexivity |].
  split; [vm_compute; reflexivity |].
  split; [vm_compute; reflexivity |].
  split.
  - unfold closed_cycles. vm_compute. discriminate.
  - unfold entries_in_unit. cbn [mdata].
    constructor; [| constructor].
    constructor; [right; left; reflexivity |].
    constructor; [right; left; reflexivity |].
    constructor; [right; right; reflexivity | constructor].
Qed.

(** The same basis comes out with any solver for the integer program that
    returns feasible points only. *)
Lemma triangle_basis_for_any_sound_solver (ip : matrix -> nat -> option vec) :
  (forall v, ip (Mat 1 3 [[0; 0; 1]]) 0%nat = Some v ->
             ip_feasible (Mat 1 3 [[0; 0; 1]]) 0 v) ->
  compute_minimal_cycle_basis ip A_triangle None = Ok (Mat 1 3 [[0; 0; 1]]).
Proof.
  intro Hsound. unfold compute_minimal_cycle_basis.
  replace (compute_fundamental_cycle_basis A_triangle) with (Ok (Mat 1 3 [[0; 0; 1]]))
    by (vm_compute; reflexivity).
  cbn [bind]. 
  change (negb _) with false. cbv iota.
  change (Z.to_nat _) with 1%nat.
  change (mabs _) with (Mat 1 3 [[0; 0; 1]]).
  cbn [seq fold_left bind].
  unfold improve. cbn [mrow mdata nth_error of_option bind].
  destruct (ip (Mat 1 3 [[0; 0; 1]]) 0%nat) as [v |] eqn:Hip.
  - specialize (Hsound v eq_refl). apply unit_row_not_improved in Hsound.
    rename Hsound into Hlen.
    replace (Qltb (vsum v) (vsum [0; 0; 1])) with false.
    + vm_compute. reflexivity.
    + symmetry. apply Qltb_ge. vm_compute (vsum [0; 0; 1]). exact Hlen.
  - vm_compute. reflexivity.
Qed.

End CycleProps.

(* ================================================================= *)
(** * Further properties of the sources *)

(** ** Arrays *)

Module ArrayFacts.

Import Facts Inv.

Lemma length_list_set {A} (l : list A) (i : nat) (a : A) :
  length (list_set l i a) = length l.
Proof.
  revert i. induction l as [| c l IH]; intro i; [reflexivity |].
  destruct i; simpl; [reflexivity | f_equal; apply IH].
Qed.

Lemma nth_error_list_set_eq {A} (l : list A) (i : nat) (a : A) :
  (i < length l)%nat -> nth_error (list_set l i a) i = Some a.
Proof.
  revert i. induction l as [| c l IH]; intros i H; simpl in H; [lia |].
  destruct i; simpl; [reflexivity | apply IH; lia].
Qed.

Lemma nth_error_list_set_neq {A} (l : list A) (i k : nat) (a : A) :
  i <> k -> nth_error (list_set l i a) k = nth_error l k.
Proof.
  revert i k. induction l as [| c l IH]; intros i k H; [reflexivity |].
  destruct i, k; simpl; try reflexivity; [congruence | apply IH; congruence].
Qed.

Lemma wf_zeros (r c : nat) : wf (zeros r c).
Proof.
  split; cbn [mdata nrows ncols zeros].
  - apply repeat_length.
  - apply Forall_forall. intros row H. apply repeat_spec in H as ->. apply repeat_length.
Qed.

Lemma wf_row (M : matrix) (i : nat) (row : vec) :
  wf M -> nth_error (mdata M) i = Some row -> length row = ncols M.
Proof.
  intros [_ H] Hi. rewrite Forall_forall in H. apply H. eapply nth_error_In. exact Hi.
Qed.

Lemma mset_inv (M M' : matrix) (i j : nat) (a : Q) :
  mset M i j a = Ok M' ->
  (i < nrows M)%nat /\ (j < ncols M)%nat /\
  M' = Mat (nrows M) (ncols M)
           (list_set (mdata M) i (list_set (nth i (mdata M) []) j a)).
Proof.
  unfold mset. destruct (Nat.ltb_spec i (nrows M)) as [Hi | Hi]; [| discriminate].
  destruct (Nat.ltb_spec j (ncols M)) as [Hj | Hj]; [| discriminate].
  cbn [andb]. intro H. injection H as <-. auto.
Qed.

Lemma mset_raises (M : matrix) (i j : nat) (a : Q) :
  (nrows M <= i)%nat \/ (ncols M <= j)%nat -> mset M i j a = Raise IndexError.
Proof.
  unfold mset. intros [H | H].
  - destruct (Nat.ltb_spec i (nrows M)) as [Hi | Hi]; [lia | reflexivity].
  - destruct (Nat.ltb_spec j (ncols M)) as [Hj | Hj];
      [lia | rewrite andb_false_r; reflexivity].
Qed.

Lemma mset_ok (M : matrix) (i j : nat) (a : Q) :
  (i < nrows M)%nat -> (j < ncols M)%nat -> exists M', mset M i j a = Ok M'.
Proof.
  intros Hi Hj. unfold mset.
  destruct (Nat.ltb_spec i (nrows M)) as [Hi' | Hi']; [| lia].
  destruct (Nat.ltb_spec j (ncols M)) as [Hj' | Hj']; [| lia].
  eexists. reflexivity.
Qed.

Lemma mset_wf (M M' : matrix) (i j : nat) (a : Q) :
  wf M -> mset M i j a = Ok M' ->
  wf M' /\ nrows M' = nrows M /\ ncols M' = ncols M.
Proof.
  intros [Hlen Hrows] H. apply mset_inv in H as (Hi & Hj & ->).
  cbn [nrows ncols]. split; [| auto]. split; cbn [mdata nrows ncols].
  - rewrite length_list_set. exact Hlen.
  - apply Forall_forall. intros row Hin.
    apply In_nth_error in Hin as [k Hk].
    destruct (Nat.eq_dec i k) as [<- | Hne].
    + rewrite nth_error_list_set_eq in Hk by lia. injection Hk as <-.
      rewrite length_list_set.
      rewrite Forall_forall in Hrows. apply Hrows. apply nth_In. lia.
    + rewrite nth_error_list_set_neq in Hk by exact Hne.
      rewrite Forall_forall in Hrows. apply Hrows. eapply nth_error_In. exact Hk.
Qed.

(** Reading an array after one assignment. *)
Lemma mget_mset (M M' : matrix) (i j : nat) (a : Q) (i' j' : nat) :
  wf M -> mset M i j a = Ok M' ->
  mget M' i' j' = if andb (Nat.eqb i' i) (Nat.eqb j' j) then Ok a else mget M i' j'.
Proof.
  intros Hwf H. pose proof Hwf as [Hlen Hrows].
  apply mset_inv in H as (Hi & Hj & ->).
  unfold mget, mrow. cbn [mdata].
  destruct (Nat.eqb_spec i' i) as [-> | Hne]; cbn [andb].
  - rewrite nth_error_list_set_eq by lia. cbn [of_option bind].
    assert (Hrow : nth_error (mdata M) i = Some (nth i (mdata M) [])).
    { apply nth_error_nth'. lia. }
    rewrite Hrow. cbn [of_option bind].
    destruct (Nat.eqb_spec j' j) as [-> | Hnej].
    + rewrite nth_error_list_set_eq; [reflexivity |].
      rewrite (@wf_row M i _ Hwf Hrow). exact Hj.
    + rewrite nth_error_list_set_neq by congruence. reflexivity.
  - rewrite nth_error_list_set_neq by congruence. reflexivity.
Qed.

Lemma mget_zeros (r c i j : nat) :
  (i < r)%nat -> (j < c)%nat -> mget (zeros r c) i j = Ok 0.
Proof.
  intros Hi Hj. unfold mget, mrow, zeros. cbn [mdata].
  rewrite (nth_error_repeat _ Hi). cbn [of_option bind].
  rewrite (nth_error_repeat _ Hj). reflexivity.
Qed.

Lemma broadcast2_eq (f : Q -> Q -> Q) (u v : vec) :
  length u = length v ->
  broadcast2 f u v = Ok (map (fun p => f (fst p) (snd p)) (combine u v)).
Proof.
  intro H. unfold broadcast2. rewrite H, Nat.eqb_refl. reflexivity.
Qed.

Lemma length_zip (f : Q -> Q -> Q) (u v : vec) :
  length (map (fun p => f (fst p) (snd p)) (combine u v)) = Nat.min (length u) (length v).
Proof.
  rewrite length_map. apply length_combine.
Qed.

Lemma nth_error_zip (f : Q -> Q -> Q) (u v : vec) (k : nat) (a c : Q) :
  nth_error u k = Some a -> nth_error v k = Some c ->
  nth_error (map (fun p => f (fst p) (snd p)) (combine u v)) k = Some (f a c).
Proof.
  revert v k. induction u as [| a0 u IH]; intros v k Ha Hc.
  - destruct k; discriminate.
  - destruct v as [| c0 v]; [destruct k; discriminate |].
    destruct k; cbn in *; [congruence | apply IH; assumption].
Qed.

End ArrayFacts.

(** ** Network *)

Module NetMore.

Import Net Facts ArrayFacts Inv.

Lemma fill_incidence_spec (ends : list (nat * nat)) :
  forall (A0 A : matrix) (j0 : nat),
    wf A0 -> fill_incidence A0 j0 ends = Ok A ->
    wf A /\ nrows A = nrows A0 /\ ncols A = ncols A0 /\
    Forall (fun ft => (fst ft < nrows A0)%nat /\ (snd ft < nrows A0)%nat) ends /\
    forall i j,
      mget A i j =
      match nth_error ends (j - j0) with
      | Some ft => if Nat.leb j0 j then entry ft i (mget A0 i j) else mget A0 i j
      | None => mget A0 i j
      end.
Proof.
  induction ends as [| [f t] ends IH]; intros A0 A j0 Hwf H.
  - injection H as <-.
    split; [exact Hwf |]. split; [reflexivity |]. split; [reflexivity |].
    split; [constructor |].
    intros i j. destruct (j - j0)%nat; reflexivity.
  - cbn [fill_incidence] in H.
    apply bind_ok in H as [A1 [H1 H]].
    apply bind_ok in H as [A2 [H2 H]].
    destruct (@mset_wf _ _ _ _ _ Hwf H1) as (Hwf1 & Hr1 & Hc1).
    destruct (@mset_wf _ _ _ _ _ Hwf1 H2) as (Hwf2 & Hr2 & Hc2).
    destruct (IH _ _ _ Hwf2 H) as (HwfA & HrA & HcA & Hends & Hget).
    pose proof (@mset_inv _ _ _ _ _ H1) as (Hf & Hj0 & _).
    pose proof (@mset_inv _ _ _ _ _ H2) as (Ht & _ & _).
    split; [exact HwfA |]. split; [congruence |]. split; [congruence |]. split.
    { constructor; [cbn; lia |].
      eapply Forall_impl; [| exact Hends]. cbn. intros ft Hft. lia. }
    intros i j. rewrite Hget.
    rewrite (@mget_mset _ _ _ _ _ i j Hwf1 H2), (@mget_mset _ _ _ _ _ i j Hwf H1).
    destruct (Nat.lt_trichotomy j j0) as [Hlt | [-> | Hgt]].
    + replace (j - j0)%nat with 0%nat by lia.
      replace (j - S j0)%nat with 0%nat by lia.
      change (nth_error ((f, t) :: ends) 0) with (Some (f, t)).
      destruct (Nat.leb_spec (S j0) j) as [Hx | _]; [lia |].
      destruct (Nat.leb_spec j0 j) as [Hx | _]; [lia |].
      assert (Hjj : Nat.eqb j j0 = false) by (apply Nat.eqb_neq; lia).
      rewrite Hjj, !andb_false_r. destruct (nth_error ends 0); reflexivity.
    + rewrite Nat.sub_diag.
      replace (j0 - S j0)%nat with 0%nat by lia.
      change (nth_error ((f, t) :: ends) 0) with (Some (f, t)).
      destruct (Nat.leb_spec (S j0) j0) as [Hx | _]; [lia |].
      rewrite Nat.leb_refl.
      unfold entry. cbn [fst snd]. rewrite Nat.eqb_refl, !andb_true_r.
      destruct (nth_error ends 0); reflexivity.
    + replace (j - j0)%nat with (S (j - S j0)) by lia.
      change (nth_error ((f, t) :: ends) (S (j - S j0)))
        with (nth_error ends (j - S j0)).
      destruct (Nat.leb_spec (S j0) j) as [_ | Hx]; [| lia].
      destruct (Nat.leb_spec j0 j) as [_ | Hx]; [| lia].
      assert (Hjj : Nat.eqb j j0 = false) by (apply Nat.eqb_neq; lia).
      rewrite Hjj, !andb_false_r. reflexivity.
Qed.


Lemma fill_incidence_ok (ends : list (nat * nat)) :
  forall (A0 : matrix) (j0 : nat),
    wf A0 -> (j0 + length ends <= ncols A0)%nat ->
    Forall (fun ft => (fst ft < nrows A0)%nat /\ (snd ft < nrows A0)%nat) ends ->
    exists A, fill_incidence A0 j0 ends = Ok A.
Proof.
  induction ends as [| [f t] ends IH]; intros A0 j0 Hwf Hj Hall.
  - eexists. reflexivity.
  - inversion Hall as [| ? ? [Hf Ht] Hrest]; subst. cbn [fst snd length] in *.
    destruct (@mset_ok A0 f j0 (-1) Hf ltac:(lia)) as [A1 H1].
    destruct (@mset_wf _ _ _ _ _ Hwf H1) as (Hwf1 & Hr1 & Hc1).
    destruct (@mset_ok A1 t j0 1 ltac:(lia) ltac:(lia)) as [A2 H2].
    destruct (@mset_wf _ _ _ _ _ Hwf1 H2) as (Hwf2 & Hr2 & Hc2).
    destruct (IH A2 (S j0) Hwf2) as [A HA].
    + lia.
    + eapply Forall_impl; [| exact Hrest]. cbn. intros ft Hft. lia.
    + exists A. cbn [fill_incidence]. rewrite H1. cbn [bind]. rewrite H2. exact HA.
Qed.

Lemma fill_incidence_error (ends : list (nat * nat)) :
  forall (A0 : matrix) (j0 : nat) (ex : exn),
    fill_incidence A0 j0 ends = Raise ex -> ex = IndexError.
Proof.
  induction ends as [| [f t] ends IH]; intros A0 j0 ex H; [discriminate |].
  cbn [fill_incidence] in H.
  unfold mset at 1 in H.
  destruct (andb _ _) in H; [| cbn in H; congruence]. cbn [bind] in H.
  unfold mset at 1 in H.
  destruct (andb _ _) in H; [| cbn in H; congruence]. cbn [bind] in H.
  eapply IH. exact H.
Qed.

Lemma incidence_spec (net : Network) (A : matrix) :
  _build_branch_incidence_matrix net = Ok A ->
  wf A /\ nrows A = n net /\ ncols A = b net /\
  Forall (fun br => (from_node br < n net)%nat /\ (to_node br < n net)%nat)
         (branches net) /\
  forall j br i,
    nth_error (branches net) j = Some br -> (i < n net)%nat ->
    mget A i j = Ok (if Nat.eqb i (to_node br) then 1
                     else if Nat.eqb i (from_node br) then -1 else 0).
Proof.
  unfold _build_branch_incidence_matrix. intro H.
  destruct (@fill_incidence_spec _ _ _ 0%nat (wf_zeros (n net) (b net)) H)
    as (Hwf & Hr & Hc & Hends & Hget).
  cbn [nrows ncols zeros] in Hr, Hc, Hends.
  split; [exact Hwf |]. split; [exact Hr |]. split; [exact Hc |]. split.
  - apply Forall_forall. intros br Hbr.
    rewrite Forall_forall in Hends.
    apply (Hends (from_node br, to_node br)).
    apply (in_map (fun br => (from_node br, to_node br))). exact Hbr.
  - intros j br i Hj Hi. rewrite Hget, Nat.sub_0_r, nth_error_map, Hj.
    cbn [option_map Nat.leb]. unfold entry. cbn [fst snd].
    assert (Hjb : (j < b net)%nat).
    { unfold b. apply nth_error_Some. congruence. }
    rewrite (mget_zeros Hi Hjb).
    destruct (Nat.eqb i (to_node br)); [reflexivity |].
    destruct (Nat.eqb i (from_node br)); reflexivity.
Qed.

Lemma incidence_matrix_shape (net : Network) (A : matrix) :
  _build_branch_incidence_matrix net = Ok A -> nrows A = n net /\ ncols A = b net.
Proof.
  intro H. destruct (@incidence_spec _ _ H) as (_ & Hr & Hc & _). split; assumption.
Qed.

(** X1.  When the network is constructed, the branch incidence matrix is
    [n x b], every branch ends at existing buses, and column [j] holds [1] at
    the to-bus of branch [j], [-1] at its from-bus (the to-bus wins for a
    branch from a bus to itself) and [0] elsewhere. *)
Theorem incidence_matrix_entries (net : Network) (A : matrix) :
  _build_branch_incidence_matrix net = Ok A ->
  nrows A = n net /\ ncols A = b net /\
  Forall (fun br => (from_node br < n net)%nat /\ (to_node br < n net)%nat)
         (branches net) /\
  forall j br i,
    nth_error (branches net) j = Some br -> (i < n net)%nat ->
    mget A i j = Ok (if Nat.eqb i (to_node br) then 1
                     else if Nat.eqb i (from_node br) then -1 else 0).
Proof.
  intro H. exact (proj2 (@incidence_spec _ _ H)).
Qed.

Lemma incidence_matrix_entries_witness :
  mget (Mat 2 1 [[-1]; [1]]) 1 0 = Ok 1.
Proof.
  exact (proj2 (proj2 (proj2 (@incidence_matrix_entries two_bus (Mat 2 1 [[-1]; [1]])
                                 eq_refl)))
               0%nat (mk_branch 0 1 100 (1 # 10)) 1%nat eq_refl ltac:(cbn; lia)).
Defined.

(** X2.  Constructing the incidence matrix raises [IndexError] exactly when
    some branch names a bus index that is not below the number of nodes; no
    other exception can come out of it. *)
Theorem incidence_matrix_index_error (net : Network) :
  (_build_branch_incidence_matrix net = Raise IndexError <->
   Exists (out_of_range net) (branches net)) /\
  (forall ex, _build_branch_incidence_matrix net = Raise ex -> ex = IndexError).
Proof.
  assert (Herr : forall ex, _build_branch_incidence_matrix net = Raise ex ->
                            ex = IndexError).
  { intros ex H. eapply fill_incidence_error. exact H. }
  split; [| exact Herr]. split.
  - intro H.
    destruct (Forall_Exists_dec
                (fun br => (from_node br < n net)%nat /\ (to_node br < n net)%nat)
                (fun br => match lt_dec (from_node br) (n net),
                                 lt_dec (to_node br) (n net) with
                           | left a, left c => left (conj a c)
                           | right a, _ => right (fun h => a (proj1 h))
                           | _, right c => right (fun h => c (proj2 h))
                           end)
                (branches net)) as [Hall | Hex].
    + exfalso.
      destruct (@fill_incidence_ok
                  (map (fun br => (from_node br, to_node br)) (branches net))
                  (zeros (n net) (b net)) 0%nat (wf_zeros _ _)) as [A HA].
      * cbn [ncols zeros]. rewrite length_map. unfold b. lia.
      * apply Forall_map. cbn [nrows zeros fst snd]. exact Hall.
      * unfold _build_branch_incidence_matrix in H. congruence.
    + eapply Exists_impl; [| exact Hex]. intros br Hbr. unfold out_of_range. cbn in Hbr.
      lia.
  - intro Hex.
    destruct (_build_branch_incidence_matrix net) as [A | ex] eqn:HA.
    + exfalso. apply incidence_spec in HA as (_ & _ & _ & Hall & _).
      apply Exists_exists in Hex as [br [Hin Hout]].
      rewrite Forall_forall in Hall. specialize (Hall br Hin).
      unfold out_of_range in Hout. lia.
    + f_equal. apply Herr. reflexivity.
Qed.

Lemma get_susceptances_length (net : Network) (x : vec) :
  length x = b net ->
  exists s, get_susceptances net (Some x) = Ok s /\ length s = b net.
Proof.
  intro Hlen. unfold b in Hlen.
  unfold get_susceptances, vmul, vadd, vdiv, get_branch_impedances, get_branch_capacities.
  rewrite (@broadcast2_eq Qmult), (@broadcast2_eq Qplus) by (rewrite ?length_map; congruence).
  cbn [bind].
  rewrite (@broadcast2_eq Qdiv)
    by (rewrite !length_zip, !length_map, Hlen; reflexivity).
  cbn [bind].
  eexists. split; [reflexivity |].
  rewrite length_map, !length_zip, !length_map. unfold b. lia.
Qed.

(** X3.  Impedance feedback.  With one capacity addition per branch,
    [get_susceptances] raises nothing and returns one susceptance per
    branch; where the impedance, the capacity and the total capacity are not
    zero, the susceptance of branch [j] is
    [(w_j + x_j) / (chi0_j * w_j)]: it grows linearly with the total
    capacity and equals [1 / chi0_j] when nothing is added. *)
Theorem susceptance_feedback (net : Network) (x : vec) :
  length x = b net ->
  exists s,
    get_susceptances net (Some x) = Ok s /\ length s = b net /\
    forall j br xj,
      nth_error (branches net) j = Some br -> nth_error x j = Some xj ->
      ~ impedance br == 0 -> ~ capacity_mw br == 0 -> ~ capacity_mw br + xj == 0 ->
      exists sj, nth_error s j = Some sj /\
                 sj == (capacity_mw br + xj) / (impedance br * capacity_mw br) /\
                 (xj == 0 -> sj == 1 / impedance br).
Proof.
  intro Hlen. unfold b in Hlen.
  unfold get_susceptances, vmul, vadd, vdiv, get_branch_impedances, get_branch_capacities.
  rewrite (@broadcast2_eq Qmult), (@broadcast2_eq Qplus) by (rewrite ?length_map; congruence).
  cbn [bind].
  rewrite (@broadcast2_eq Qdiv)
    by (rewrite !length_zip, !length_map, Hlen; reflexivity).
  cbn [bind].
  eexists. split; [reflexivity |]. split.
  { rewrite length_map, !length_zip, !length_map. unfold b. lia. }
  intros j br xj Hbr Hxj Hz Hw Hwx.
  erewrite nth_error_map, nth_error_zip; cycle 1.
  { apply nth_error_zip; rewrite nth_error_map, Hbr; reflexivity. }
  { apply nth_error_zip; [rewrite nth_error_map, Hbr; reflexivity | exact Hxj]. }
  cbn [option_map].
  eexists. split; [reflexivity |].
  rewrite Qred_correct. split.
  - field. repeat split; assumption.
  - intro H0. rewrite H0. field. repeat split; assumption.
Qed.

Lemma susceptance_feedback_witness :
  exists s, get_susceptances path3 (Some [0; 100]) = Ok s /\
            exists sj, nth_error s 1 = Some sj /\ sj == 20.
Proof.
  destruct (@susceptance_feedback path3 [0; 100] eq_refl) as (s & Hs & _ & H).
  exists s. split; [exact Hs |].
  destruct (H 1%nat (mk_branch 1 2 100 (1 # 10)) 100 eq_refl eq_refl)
    as (sj & H1 & H2 & _); try (intro h; vm_compute in h; discriminate h).
  exists sj. split; [exact H1 |]. rewrite H2. reflexivity.
Defined.

End NetMore.

(* ================================================================= *)
(** ** Networks with [b <> n - 1] *)

Module MeshProps.

Import Net Kernel Facts ArrayFacts NetMore Inv.

Lemma ATBA_shape_mismatch (net : Network) (x : vec) (A : matrix) (s : vec) :
  A_br net = Ok A -> length s = b net -> b net <> (n net - 1)%nat ->
  ATBA (drop_first_row A) (diag s) = Raise ValueError.
Proof.
  intros HA Hs Hne.
  destruct (@incidence_matrix_shape _ _ HA) as [Hr Hc].
  unfold ATBA, matmul. cbn [ncols nrows transpose drop_first_row diag].
  rewrite Hr, Hs.
  replace (Nat.eqb (pred (n net)) (b net)) with false; [reflexivity |].
  symmetry. apply Nat.eqb_neq. lia.
Qed.

Lemma ptm_mesh (net : Network) (x : vec) (A : matrix) :
  A_br net = Ok A -> length x = b net -> b net <> (n net - 1)%nat ->
  Corr.compute_power_transfer_matrices net x = Raise ValueError /\
  Oper._compute_power_transfer_matrices net x = Raise ValueError.
Proof.
  intros HA Hx Hne.
  destruct (@get_susceptances_length net x Hx) as (s & Hs & Hls).
  pose proof (@ATBA_shape_mismatch net x A s HA Hls Hne) as HM.
  unfold Corr.compute_power_transfer_matrices, Oper._compute_power_transfer_matrices.
  rewrite Hs, HA. cbn [bind]. rewrite HM. split; reflexivity.
Qed.

Lemma triangle_has_no_bridge_among_0_1 :
  ~ is_bridge triangle 0 /\ ~ is_bridge triangle 1.
Proof.
  split; intros [br [Hbr Hn]]; injection Hbr as <-; apply Hn; cbn.
  - apply reach_step with (v := 2%nat); [left; right; left; reflexivity |].
    apply reach_step with (v := 1%nat); [right; left; reflexivity | apply reach_refl].
  - apply reach_step with (v := 0%nat); [right; left; reflexivity |].
    apply reach_step with (v := 2%nat); [left; right; left; reflexivity | apply reach_refl].
Qed.

(** C7 (code defect).  The triangle 0 - 1 - 2 has three buses and three
    branches, none of branches 0 and 1 a bridge, so [(t, 0, 1)] is a
    contingency the claim speaks of.  Whatever the capacity additions
    [x_br_hat], the parameters, the scenario and the contingency set, the
    constructor of the operational sub-problem raises [ValueError] while it
    computes the LODF matrix ([A.T @ B @ A] multiplies a [3 x 2] matrix by the
    [3 x 3] susceptance matrix), so the model with the contingency rows is
    never built. *)
Theorem contingency_model_of_triangle_cannot_be_built :
  n triangle = 3%nat /\ b triangle = 3%nat /\
  ~ is_bridge triangle 0 /\ ~ is_bridge triangle 1 /\
  forall (x0 x1 x2 : Q) (prm : Oper.OperationalParameters) (scn : Oper.ScenarioData)
         (conts : list Oper.triple),
    Oper._compute_power_transfer_matrices triangle [x0; x1; x2] = Raise ValueError /\
    Oper.init triangle prm scn [x0; x1; x2] conts = Raise ValueError.
Proof.
  split; [reflexivity |]. split; [reflexivity |].
  destruct triangle_has_no_bridge_among_0_1 as [H0 H1].
  split; [exact H0 |]. split; [exact H1 |].
  intros x0 x1 x2 prm scn conts.
  destruct (A_br triangle) as [A | ex] eqn:HA; [| vm_compute in HA; discriminate HA].
  destruct (@ptm_mesh triangle [x0; x1; x2] A HA eq_refl ltac:(vm_compute; discriminate))
    as [_ Ho].
  split; [exact Ho |]. unfold Oper.init. rewrite Ho. reflexivity.
Qed.

(** X4.  The product [A.T @ B @ A] of both PTDF routines multiplies a
    [b x (n-1)] matrix by the [b x b] susceptance matrix.  On a network whose
    number of branches differs from [n - 1] (any network with a loop), with
    one capacity addition per branch, both routines raise [ValueError]; the
    [try] around them catches [LinAlgError] only. *)
Theorem power_transfer_matrices_need_tree_shape (net : Network) (x : vec) (A : matrix) :
  A_br net = Ok A -> length x = b net -> b net <> (n net - 1)%nat ->
  Corr.compute_power_transfer_matrices net x = Raise ValueError /\
  Oper._compute_power_transfer_matrices net x = Raise ValueError.
Proof.
  exact (@ptm_mesh net x A).
Qed.

Lemma power_transfer_matrices_need_tree_shape_witness :
  Corr.compute_power_transfer_matrices triangle [0; 0; 0] = Raise ValueError /\
  Oper._compute_power_transfer_matrices triangle [0; 0; 0] = Raise ValueError.
Proof.
  destruct (A_br triangle) as [A | ex] eqn:HA; [| vm_compute in HA; discriminate HA].
  apply (@power_transfer_matrices_need_tree_shape triangle [0; 0; 0] A HA eq_refl).
  vm_compute. discriminate.
Defined.

(** X5.  The [ValueError] of the PTDF routines is caught nowhere: on a
    network with [b <> n - 1] the RTEP correction raises it, the iterative
    correction raises it in its first pass (unless it is asked for zero
    passes), the operational sub-problem cannot be constructed, and the
    bundle method raises it in its first pass as soon as it has a scenario. *)
Theorem meshed_network_fails_at_every_entry_point
        (fsqrt : Q -> Q) (opt : Gurobi.optimizer)
        (net : Network) (x : vec) (A : matrix) :
  A_br net = Ok A -> length x = b net -> b net <> (n net - 1)%nat ->
  (forall p_ni_star eta_c c_br c_vio,
      Corr.transmission_correction_rtep net p_ni_star x eta_c c_br c_vio
      = Raise ValueError) /\
  (forall p_ni_star max_iterations tolerance,
      max_iterations <> Some 0%nat ->
      Corr.iterative_transmission_correction fsqrt net p_ni_star x
                                             max_iterations tolerance
      = Raise ValueError) /\
  (forall prm scn conts, Oper.init net prm scn x conts = Raise ValueError) /\
  (forall self,
      Bundle.network self = net ->
      Bundle.scenarios self <> [] -> Bundle.contingencies self <> [] ->
      Bundle.max_iterations self <> 0%nat ->
      Bundle.solve opt self x = Raise ValueError).
Proof.
  intros HA Hx Hne.
  destruct (@ptm_mesh net x A HA Hx Hne) as [Hc Ho].
  assert (Hrtep : forall p_ni_star eta_c c_br c_vio,
             Corr.transmission_correction_rtep net p_ni_star x eta_c c_br c_vio
             = Raise ValueError).
  { intros. unfold Corr.transmission_correction_rtep. rewrite Hc. reflexivity. }
  assert (Hinit : forall prm scn conts, Oper.init net prm scn x conts = Raise ValueError).
  { intros. unfold Oper.init. rewrite Ho. reflexivity. }
  split; [exact Hrtep |]. split; [| split; [exact Hinit |]].
  - intros p_ni_star mi tol Hmi.
    unfold Corr.iterative_transmission_correction.
    assert (Hloop : forall m t, Corr.corr_loop fsqrt net p_ni_star t (S m) x
                                = Raise ValueError).
    { intros m t. cbn [Corr.corr_loop]. unfold Corr.E. rewrite Hrtep. reflexivity. }
    destruct mi as [[| m] |]; [congruence | apply Hloop | apply Hloop].
  - intros self Hnet Hs Hcs Hm.
    unfold Bundle.solve.
    destruct (Bundle.max_iterations self) as [| m]; [congruence |].
    cbn [seq Bundle.loop]. unfold Bundle.iteration, Bundle._solve_subproblems.
    cbn [Bundle.start Bundle.self_ Bundle.cur_x].
    destruct (Bundle.scenarios self) as [| scn scns] eqn:Escn; [congruence |].
    destruct (Bundle.contingencies self) as [| c cs] eqn:Ec; [congruence |].
    cbn [length seq Bundle.solve_scenarios]. unfold Bundle.solve_scenario.
    rewrite Escn, Ec, Hnet. cbn [nth_error of_option bind].
    rewrite Hinit. reflexivity.
Qed.

Lemma meshed_network_fails_at_every_entry_point_witness :
  Corr.iterative_transmission_correction Corr.sqrt_floor triangle [] [0; 0; 0] None None
  = Raise ValueError.
Proof.
  destruct (A_br triangle) as [A | ex] eqn:HA; [| vm_compute in HA; discriminate HA].
  refine (proj1 (proj2 (@meshed_network_fails_at_every_entry_point
                          Corr.sqrt_floor Bundle.opt_idle triangle [0; 0; 0] A
                          HA eq_refl _)) [] None None _).
  - vm_compute. discriminate.
  - discriminate.
Defined.


(** *** Tree-shaped networks *)

Lemma mapM_ok {A B} (f : A -> res B) (l : list A) :
  (forall a, In a l -> exists y, f a = Ok y) -> exists r, mapM f l = Ok r.
Proof.
  induction l as [| a l IH]; intro H; [eexists; reflexivity |].
  destruct (H a (or_introl eq_refl)) as [y Hy].
  destruct IH as [r Hr]; [intros c Hc; apply H; right; exact Hc |].
  exists (y :: r). cbn [mapM]. rewrite Hy. cbn [bind]. rewrite Hr. reflexivity.
Qed.

Lemma inv_cases (M : matrix) :
  inv M = Raise LinAlgError \/
  exists Mi, inv M = Ok Mi /\ nrows Mi = nrows M /\ ncols Mi = nrows M.
Proof.
  unfold inv. destruct (negb _); [left; reflexivity |].
  destruct (gauss_jordan _ _); [right | left; reflexivity].
  eexists. split; [reflexivity |]. split; reflexivity.
Qed.

Lemma fill_LODF_ok (PTDF A : matrix) (b k : nat) :
  (forall i, (i < b)%nat -> exists row, mrow PTDF i = Ok row /\ length row = k) ->
  (forall j, (j < b)%nat -> exists col, mcol A j = Ok col /\ length col = k) ->
  exists L, fill_LODF PTDF A b = Ok L /\ nrows L = b /\ ncols L = b.
Proof.
  intros Hrow Hcol. unfold fill_LODF.
  destruct (@mapM_ok _ _ (fun i => mapM (fun j => lodf_entry PTDF A i j) (seq 0 b))
                     (seq 0 b)) as [rows Hrows].
  - intros i Hi. apply in_seq in Hi. apply mapM_ok. intros j Hj. apply in_seq in Hj.
    unfold lodf_entry. destruct (Nat.eqb i j); [eexists; reflexivity |].
    destruct (Hrow i ltac:(lia)) as (ri & Hri & Hli).
    destruct (Hrow j ltac:(lia)) as (rj & Hrj & Hlj).
    destruct (Hcol j ltac:(lia)) as (cj & Hcj & Hlc).
    unfold numerator, denominator, dot. rewrite Hri, Hrj, Hcj. cbn [bind].
    rewrite Hli, Hlj, Hlc, Nat.eqb_refl. cbn [bind].
    destruct (Qltb _ _); eexists; reflexivity.
  - rewrite Hrows. cbn [bind]. eexists. split; [reflexivity |]. split; reflexivity.
Qed.

Lemma mrow_zeros (r c i : nat) :
  (i < r)%nat -> exists row, mrow (zeros r c) i = Ok row /\ length row = c.
Proof.
  intro Hi. unfold mrow, zeros. cbn [mdata]. rewrite (nth_error_repeat _ Hi).
  eexists. split; [reflexivity | apply repeat_length].
Qed.

Lemma mrow_matmul (M N P : matrix) (i : nat) :
  matmul M N = Ok P -> (i < length (mdata M))%nat ->
  exists row, mrow P i = Ok row /\ length row = ncols N.
Proof.
  unfold matmul. destruct (Nat.eqb _ _); [| discriminate].
  intros H Hi. injection H as <-. unfold mrow. cbn [mdata].
  destruct (nth_error (mdata M) i) as [r |] eqn:E;
    [| apply nth_error_None in E; lia].
  unfold vec in *. rewrite nth_error_map, E. cbn [option_map of_option].
  eexists. split; [reflexivity |].
  unfold transpose. cbn [mdata]. rewrite !length_map, length_seq. reflexivity.
Qed.

Lemma matmul_shape (M N P : matrix) :
  matmul M N = Ok P ->
  nrows P = nrows M /\ ncols P = ncols N /\ length (mdata P) = length (mdata M).
Proof.
  unfold matmul. destruct (Nat.eqb _ _); [| discriminate].
  intro H. injection H as <-. cbn [nrows ncols mdata]. rewrite length_map. auto.
Qed.

Lemma matmul_ok (M N : matrix) :
  ncols M = nrows N -> exists P, matmul M N = Ok P.
Proof.
  intro H. unfold matmul. rewrite H, Nat.eqb_refl. eexists. reflexivity.
Qed.

(** X21.  The other direction of X4: on a network with [b = n - 1], with one
    capacity addition per branch, both PTDF routines return and raise
    nothing, whether the matrix inversion succeeds or ends in the
    [LinAlgError] that they catch; what they return has the shapes
    [b x (n-1)] for the PTDF and [b x b] for the LODF. *)
Theorem power_transfer_matrices_on_tree_shape (net : Network) (x : vec) (A : matrix) :
  A_br net = Ok A -> length x = b net -> b net = (n net - 1)%nat ->
  (exists PTDF LODF,
      Corr.compute_power_transfer_matrices net x = Ok (PTDF, LODF) /\
      nrows PTDF = b net /\ ncols PTDF = (n net - 1)%nat /\
      nrows LODF = b net /\ ncols LODF = b net) /\
  (exists PTDF LODF,
      Oper._compute_power_transfer_matrices net x = Ok (PTDF, LODF) /\
      nrows PTDF = b net /\ ncols PTDF = (n net - 1)%nat /\
      nrows LODF = b net /\ ncols LODF = b net).
Proof.
  intros HA Hx Hb.
  destruct (@get_susceptances_length net x Hx) as (s & Hs & Hls).
  destruct (@incidence_spec _ _ HA) as ((Hlen & _) & Hr & Hc & _).
  set (Ar := drop_first_row A).
  assert (HrAr : nrows Ar = b net) by (unfold Ar; cbn [nrows drop_first_row]; lia).
  assert (HcAr : ncols Ar = b net) by (unfold Ar; cbn [ncols drop_first_row]; lia).
  assert (HlAr : length (mdata Ar) = b net).
  { unfold Ar. cbn [mdata drop_first_row]. rewrite length_tl. lia. }
  assert (Hcol : forall j, (j < b net)%nat ->
             exists col, mcol Ar j = Ok col /\ length col = b net).
  { intros j Hj. unfold mcol. destruct (Nat.ltb_spec j (ncols Ar)) as [_ | Hx']; [| lia].
    eexists. split; [reflexivity |]. rewrite length_map. exact HlAr. }
  assert (HB : nrows (diag s) = b net /\ ncols (diag s) = b net /\
               length (mdata (diag s)) = b net).
  { unfold diag. cbn [nrows ncols mdata]. rewrite length_map, length_seq. auto. }
  destruct HB as (HrB & HcB & HlB).
  destruct (@matmul_ok (transpose Ar) (diag s)) as [AtB HAtB].
  { cbn [ncols transpose]. congruence. }
  destruct (matmul_shape _ _ HAtB) as (HrAtB & HcAtB & _).
  destruct (@matmul_ok AtB Ar) as [M HM]; [congruence |].
  destruct (matmul_shape _ _ HM) as (HrM & HcM & _).
  cbn [nrows transpose] in HrAtB.
  assert (HATBA : ATBA Ar (diag s) = Ok M).
  { unfold ATBA. rewrite HAtB. cbn [bind]. exact HM. }
  destruct (@matmul_ok (diag s) Ar) as [BA HBA]; [congruence |].
  destruct (matmul_shape _ _ HBA) as (HrBA & HcBA & HlBA).
  assert (Hzero : exists L, fill_LODF (zeros (b net) (n net - 1)) Ar (b net) = Ok L /\
                            nrows L = b net /\ ncols L = b net).
  { apply (@fill_LODF_ok _ _ _ (b net)); [| exact Hcol].
    intros i Hi. rewrite <- Hb. apply mrow_zeros. exact Hi. }
  unfold Corr.compute_power_transfer_matrices, Oper._compute_power_transfer_matrices.
  rewrite Hs, HA. cbn [bind]. fold Ar. rewrite HATBA. cbn [bind].
  destruct (inv_cases M) as [Hinv | (Mi & Hinv & HrMi & HcMi)]; rewrite Hinv.
  - split.
    + exists (zeros (ncols Ar) (nrows Ar)), (zeros (ncols Ar) (ncols Ar)).
      split; [reflexivity |]. cbn [nrows ncols zeros]. repeat split; lia.
    + cbn [bind]. destruct Hzero as (L & HL & HrL & HcL).
      rewrite HL. cbn [bind]. eexists. exists L. split; [reflexivity |].
      cbn [nrows ncols zeros]. repeat split; assumption.
  - destruct (@matmul_ok BA Mi) as [P HP]; [congruence |].
    destruct (matmul_shape _ _ HP) as (HrP & HcP & HlP).
    assert (HPT : PTDF_of Ar (diag s) Mi = Ok P).
    { unfold PTDF_of. rewrite HBA. cbn [bind]. exact HP. }
    assert (HL : exists L, fill_LODF P Ar (b net) = Ok L /\
                           nrows L = b net /\ ncols L = b net).
    { apply (@fill_LODF_ok _ _ _ (b net)); [| exact Hcol].
      intros i Hi. destruct (@mrow_matmul _ _ _ i HP) as (row & Hrow & Hlrow); [lia |].
      exists row. split; [exact Hrow |]. congruence. }
    destruct HL as (L & HL & HrL & HcL).
    rewrite HPT. cbn [bind]. rewrite HcAr, HL. cbn [bind].
    split; exists P, L; (split; [reflexivity |]); repeat split; congruence.
Qed.

Lemma power_transfer_matrices_on_tree_shape_witness :
  exists PTDF LODF,
    Corr.compute_power_transfer_matrices path3 [0; 0] = Ok (PTDF, LODF) /\
    nrows LODF = 2%nat /\ ncols LODF = 2%nat.
Proof.
  destruct (A_br path3) as [A | ex] eqn:HA; [| vm_compute in HA; discriminate HA].
  destruct (@power_transfer_matrices_on_tree_shape path3 [0; 0] A HA eq_refl eq_refl)
    as [(PTDF & LODF & H & _ & _ & Hr & Hc) _].
  exists PTDF, LODF. split; [exact H |]. split; [exact Hr | exact Hc].
Defined.

End MeshProps.

(* ================================================================= *)
(** ** Bounds of the transmission correction *)

Module CorrMore.

Import Net Kernel Corr Facts ArrayFacts Inv.

Lemma Qmax_ge_l (a c : Q) : a <= Qmax a c.
Proof.
  unfold Qmax. destruct (Qle_bool a c) eqn:E; [apply Qle_bool_iff in E; exact E | lra].
Qed.

Lemma Qmax_ge_r (a c : Q) : c <= Qmax a c.
Proof.
  unfold Qmax. destruct (Qle_bool a c) eqn:E; [lra |].
  destruct (Qlt_le_dec c a) as [H | H]; [lra |].
  apply Qle_bool_iff in H. congruence.
Qed.

Lemma Qmin_le_r (a c : Q) : Qmin a c <= c.
Proof.
  unfold Qmin. destruct (Qle_bool a c) eqn:E; [apply Qle_bool_iff in E; exact E | lra].
Qed.

Lemma Qmin_glb (a c d : Q) : d <= a -> d <= c -> d <= Qmin a c.
Proof.
  unfold Qmin. destruct (Qle_bool a c); auto.
Qed.

Lemma Qmin_le_l (a c : Q) : Qmin a c <= a.
Proof.
  unfold Qmin. destruct (Qle_bool a c) eqn:E; [lra |].
  destruct (Qlt_le_dec c a) as [H | H]; [lra |].
  apply Qle_bool_iff in H. congruence.
Qed.

Lemma fold_Qmax_ge (l : list Q) :
  forall a, a <= fold_left Qmax l a /\ forall d, In d l -> d <= fold_left Qmax l a.
Proof.
  induction l as [| c l IH]; intro a; cbn [fold_left].
  - split; [lra | intros d []].
  - destruct (IH (Qmax a c)) as [H1 H2]. split.
    + pose proof (Qmax_ge_l a c). lra.
    + intros d [Heq | Hd]; [subst d; pose proof (Qmax_ge_r a c); lra | auto].
Qed.

Lemma list_max_ge (l : list Q) (d : Q) : In d l -> d <= list_max l.
Proof.
  destruct l as [| a l]; [intros [] |]. cbn [list_max].
  destruct (fold_Qmax_ge l a) as [H1 H2].
  intros [<- | Hd]; auto.
Qed.

(** The value written for one branch. *)
Lemma branch_update_bounds (w c eta cv : Q) (db dc : list Q) (v : Q) :
  branch_update w c eta cv db dc = Ok v ->
  v <= w * 2 /\ (0 <= w -> 0 <= v) /\ forall d, In d db -> Qmin d (w * 2) <= v.
Proof.
  unfold branch_update. intro H. apply bind_ok in H as [xo [_ H]].
  injection H as <-. unfold clip.
  split; [apply Qmin_le_r |]. split.
  - intro Hw. apply Qmin_glb; [apply Qmax_ge_r | lra].
  - intros d Hd. apply Qmin_glb; [| apply Qmin_le_r].
    assert (Hlb : d <= match db with [] => 0 | _ :: _ => list_max db end).
    { destruct db; [destruct Hd | apply list_max_ge; exact Hd]. }
    pose proof (Qmin_le_l d (w * 2)).
    pose proof (Qmax_ge_l (match db with [] => 0 | _ :: _ => list_max db end) xo).
    pose proof (Qmax_ge_l (Qmax (match db with [] => 0 | _ :: _ => list_max db end) xo) 0).
    lra.
Qed.

(** What [transmission_correction_rtep] writes at branch [i]. *)
Lemma rtep_entry (net : Network) (p : list matrix) (x : vec) (eta : Q)
      (c_br : option vec) (cv : Q) (xs : vec) :
  transmission_correction_rtep net p x eta c_br cv = Ok xs ->
  length xs = b net /\
  exists PTDF LODF,
    compute_power_transfer_matrices net x = Ok (PTDF, LODF) /\
    forall i br,
      nth_error (branches net) i = Some br ->
      exists db dc c v,
        branch_deltas net PTDF LODF eta (capacity_mw br) i p = Ok (db, dc) /\
        nth_error (match c_br with None => default_c_br (b net) | Some c => c end) i
        = Some c /\
        branch_update (capacity_mw br) c eta cv db dc = Ok v /\
        nth_error xs i = Some v.
Proof.
  unfold transmission_correction_rtep. intro H.
  apply bind_ok in H as [[PTDF LODF] [Hptm H]].
  split; [rewrite (mapM_length _ _ H); apply length_seq |].
  exists PTDF, LODF. split; [exact Hptm |].
  intros i br Hbr.
  assert (Hi : (i < b net)%nat) by (unfold b; apply nth_error_Some; congruence).
  destruct (mapM_nth_error _ _ H i (nth_error_seq 0 Hi)) as [v [Hv Hnth]].
  cbn [Nat.add] in Hv. rewrite Hbr in Hv. cbn [of_option bind] in Hv.
  apply bind_ok in Hv as [[db dc] [Hd Hv]].
  apply bind_ok in Hv as [c [Hc Hv]].
  exists db, dc, c, v. split; [exact Hd |]. split; [| split; [exact Hv | exact Hnth]].
  destruct (nth_error _ i) as [c' |] in Hc |- *; [cbn in Hc; congruence | discriminate].
Qed.

(** X6.  Whatever [transmission_correction_rtep] returns has one entry per
    branch; the entry of a branch is at most twice its capacity, is not
    negative when the capacity is not negative, and covers every base-case
    overload of the branch up to that cap. *)
Theorem rtep_additions_are_bounded (net : Network) (p : list matrix) (x : vec) (eta : Q)
        (c_br : option vec) (cv : Q) (xs : vec) :
  transmission_correction_rtep net p x eta c_br cv = Ok xs ->
  length xs = b net /\
  forall i br,
    nth_error (branches net) i = Some br ->
    exists v, nth_error xs i = Some v /\
      v <= capacity_mw br * 2 /\
      (0 <= capacity_mw br -> 0 <= v) /\
      forall PTDF LODF db dc d,
        compute_power_transfer_matrices net x = Ok (PTDF, LODF) ->
        branch_deltas net PTDF LODF eta (capacity_mw br) i p = Ok (db, dc) ->
        In d db -> Qmin d (capacity_mw br * 2) <= v.
Proof.
  intro H. destruct (rtep_entry _ _ _ _ _ _ H) as (Hlen & PTDF & LODF & Hptm & Hall).
  split; [exact Hlen |]. intros i br Hbr.
  destruct (Hall i br Hbr) as (db & dc & c & v & Hd & _ & Hv & Hnth).
  destruct (branch_update_bounds _ _ _ _ _ _ Hv) as (H1 & H2 & H3).
  exists v. split; [exact Hnth |]. split; [exact H1 |]. split; [exact H2 |].
  intros PTDF' LODF' db' dc' d Hptm' Hd' Hin.
  rewrite Hptm in Hptm'. injection Hptm' as <- <-.
  rewrite Hd in Hd'. injection Hd' as <- <-. auto.
Qed.

Lemma rtep_additions_are_bounded_witness :
  exists v, nth_error [0; 30] 1 = Some v /\ v <= 100 * 2 /\ 0 <= v.
Proof.
  destruct (@rtep_additions_are_bounded path3 p_ni_path3 [0; 0] 1 None 2000 [0; 30])
    as [_ H]; [vm_compute; reflexivity |].
  destruct (H 1%nat (mk_branch 1 2 100 (1 # 10)) eq_refl) as (v & Hv & Hle & Hge & _).
  exists v. split; [exact Hv |]. split; [exact Hle |]. apply Hge. vm_compute. discriminate.
Defined.


Lemma corr_loop_result (fsqrt : Q -> Q) (net : Network) (p : list matrix) (tol : Q) :
  forall m x xs c,
    corr_loop fsqrt net p tol m x = Ok (xs, c) ->
    (xs = x /\ c = false) \/ exists x', E net p x' = Ok xs.
Proof.
  induction m as [| m IH]; intros x xs c H; cbn [corr_loop] in H.
  - injection H as <- <-. left. split; reflexivity.
  - apply bind_ok in H as [xt [HE H]].
    apply bind_ok in H as [diff [_ H]].
    destruct (Qltb diff tol).
    + injection H as <- <-. right. exists x. exact HE.
    + destruct (IH _ _ _ H) as [[-> _] | Hex]; [right; exists x; exact HE | right; exact Hex].
Qed.

(** X7.  The outcome of [iterative_transmission_correction] is either the
    untouched initial vector with the flag [False], or the output of a pass
    of the RTEP correction: then it has one entry per branch, none above
    twice the capacity of its branch and none negative where the capacity is
    not negative.  With at least one pass allowed the first case needs the
    initial vector itself to be such an output. *)
Theorem iterative_correction_result_is_bounded
        (fsqrt : Q -> Q) (net : Network) (p : list matrix) (x0 : vec)
        (max_iterations : option nat) (tolerance : option Q) (xs : vec) (conv : bool) :
  iterative_transmission_correction fsqrt net p x0 max_iterations tolerance
  = Ok (xs, conv) ->
  (max_iterations = Some 0%nat /\ xs = x0 /\ conv = false) \/
  (length xs = b net /\
   forall i br,
     nth_error (branches net) i = Some br ->
     exists v, nth_error xs i = Some v /\
               v <= capacity_mw br * 2 /\ (0 <= capacity_mw br -> 0 <= v)).
Proof.
  unfold iterative_transmission_correction. intro H.
  assert (Hbound : forall x', E net p x' = Ok xs ->
            length xs = b net /\
            forall i br,
              nth_error (branches net) i = Some br ->
              exists v, nth_error xs i = Some v /\
                        v <= capacity_mw br * 2 /\ (0 <= capacity_mw br -> 0 <= v)).
  { intros x' HE. unfold E in HE.
    destruct (rtep_entry _ _ _ _ _ _ HE) as (Hlen & PTDF & LODF & _ & Hall).
    split; [exact Hlen |]. intros i br Hbr.
    destruct (Hall i br Hbr) as (db & dc & c & v & _ & _ & Hv & Hnth).
    destruct (branch_update_bounds _ _ _ _ _ _ Hv) as (H1 & H2 & _).
    exists v. split; [exact Hnth |]. split; assumption. }
  remember (match max_iterations with Some m => m | None => default_max_iterations end)
    as m eqn:Em.
  destruct m as [| m].
  - cbn [corr_loop] in H. injection H as <- <-. left.
    destruct max_iterations as [[| k] |]; [auto | discriminate | discriminate].
  - right. cbn [corr_loop] in H.
    apply bind_ok in H as [xt [HE H]].
    apply bind_ok in H as [diff [_ H]].
    destruct (Qltb diff _).
    + injection H as <- <-. eapply Hbound. exact HE.
    + destruct (corr_loop_result _ _ _ _ _ _ H) as [[-> _] | [x' Hx']];
        eapply Hbound; eassumption.
Qed.

Lemma iterative_correction_result_is_bounded_witness :
  exists v, nth_error [0; 30] 1 = Some v /\ v <= 100 * 2 /\ 0 <= v.
Proof.
  destruct (@iterative_correction_result_is_bounded sqrt_floor path3 p_ni_path3 [0; 0]
              None None [0; 30] true) as [[H _] | [_ H]];
    [vm_compute; reflexivity | discriminate H |].
  destruct (H 1%nat (mk_branch 1 2 100 (1 # 10)) eq_refl) as (v & Hv & Hle & Hge).
  exists v. split; [exact Hv |]. split; [exact Hle |]. apply Hge. vm_compute. discriminate.
Defined.

(** *** The rank of the default costs *)

Lemma length_insert_desc (a : Q) (l : list Q) : length (insert_desc a l) = S (length l).
Proof.
  induction l as [| c l IH]; cbn [insert_desc]; [reflexivity |].
  destruct (Qle_bool c a); cbn [length]; [reflexivity | rewrite IH; reflexivity].
Qed.

Lemma length_sorted_desc (l : list Q) : length (sorted_desc l) = length l.
Proof.
  induction l as [| a l IH]; [reflexivity |].
  unfold sorted_desc in *. cbn [fold_right]. rewrite length_insert_desc, IH. reflexivity.
Qed.

Lemma contingency_count (g : nat -> res (list Q)) (i : nat) :
  (forall j y, g j = Ok y -> (length y <= 1)%nat /\ (j = i -> y = [])) ->
  forall len start r,
    mapM g (seq start len) = Ok r ->
    (length (concat r) <= len)%nat /\
    ((start <= i < start + len)%nat -> (length (concat r) + 1 <= len)%nat).
Proof.
  intros Hg. induction len as [| len IH]; intros start r H.
  - injection H as <-. cbn [concat length]. split; lia.
  - cbn [seq mapM] in H. apply bind_ok in H as [y [Hy H]].
    apply bind_ok in H as [ys [Hys H]]. injection H as <-.
    cbn [concat]. rewrite length_app.
    destruct (IH _ _ Hys) as [IH1 IH2]. destruct (Hg _ _ Hy) as [Hle Hi].
    split; [lia |]. intro Hrange.
    destruct (Nat.eq_dec start i) as [Heq | Hne].
    + rewrite (Hi Heq). cbn [length]. lia.
    + assert (S start <= i < S start + len)%nat by lia. specialize (IH2 H). lia.
Qed.

Lemma period_deltas_count (net : Network) (PTDF LODF : matrix) (eta w : Q) (i : nat)
      (pn : matrix) (t : nat) (d : Q) (cs : list Q) :
  period_deltas net PTDF LODF eta w i pn t = Ok (d, cs) ->
  (i < b net)%nat -> (length cs <= b net - 1)%nat.
Proof.
  unfold period_deltas. intros H Hi.
  apply bind_ok in H as [inj [_ H]].
  apply bind_ok in H as [Pi [_ H]].
  apply bind_ok in H as [pbi [_ H]].
  apply bind_ok in H as [conts [Hc H]]. injection H as _ <-.
  eapply (@contingency_count _ i) in Hc.
  - destruct Hc as [_ Hc]. specialize (Hc ltac:(lia)). lia.
  - intros j y Hy. cbv beta in Hy.
    destruct (Nat.eqb i j) eqn:Eij.
    + cbn [negb andb] in Hy. injection Hy as <-. cbn [length]. split; [lia | reflexivity].
    + apply Nat.eqb_neq in Eij. cbn [negb andb] in Hy.
      destruct (existsb _ _) in Hy.
      * apply bind_ok in Hy as [Pj [_ Hy]].
        apply bind_ok in Hy as [pbj [_ Hy]].
        apply bind_ok in Hy as [l [_ Hy]]. injection Hy as <-.
        cbn [length]. split; [lia | intro; congruence].
      * injection Hy as <-. cbn [length]. split; [lia | reflexivity].
Qed.

Lemma length_concat_le {A} (k : nat) (ll : list (list A)) :
  Forall (fun l => (length l <= k)%nat) ll -> (length (concat ll) <= length ll * k)%nat.
Proof.
  induction 1 as [| l ll Hl _ IH]; cbn [concat length]; [lia |].
  rewrite length_app. lia.
Qed.

Lemma branch_deltas_count (net : Network) (PTDF LODF : matrix) (eta w : Q) (i : nat)
      (p : list matrix) (db dc : list Q) :
  branch_deltas net PTDF LODF eta w i p = Ok (db, dc) ->
  (i < b net)%nat -> (length dc <= periods p * (b net - 1))%nat.
Proof.
  unfold branch_deltas. intros H Hi.
  apply bind_ok in H as [per [Hper H]]. injection H as _ <-.
  assert (Hlen : length (concat per) = periods p).
  { clear - Hper. revert per Hper. induction p as [| pn p IH]; intros per H.
    - injection H as <-. reflexivity.
    - cbn [mapM] in H. apply bind_ok in H as [y [Hy H]].
      apply bind_ok in H as [ys [Hys H]]. injection H as <-.
      cbn [concat]. rewrite length_app, (IH _ Hys), (mapM_length _ _ Hy), length_seq.
      reflexivity. }
  rewrite <- Hlen, <- (length_map snd (concat per)).
  apply length_concat_le. apply Forall_map. apply Forall_forall.
  intros [d cs] Hin. cbn [snd].
  apply in_concat in Hin as [row [Hrow Hin]].
  destruct (mapM_In_inv _ _ _ Hper Hrow) as [pn [_ Hpn]].
  destruct (mapM_In_inv _ _ _ Hpn Hin) as [t [_ Ht]].
  eapply period_deltas_count; eassumption.
Qed.

(** X8.  The correction pass of the iterative procedure leaves the transmission
    cost at [1e6], the violation penalty at [2000] and the rating multiplier
    at [1], which makes the rank [500].  As long as the study has at most 500
    pairs of a period and a contingency per branch ([periods * (b - 1)]),
    the contingency violations do not enter the result at all: the entry of
    every branch is the largest base-case overload, clipped to
    [[0, 2 * capacity]]. *)
Theorem default_rank_ignores_contingency_violations
        (net : Network) (p : list matrix) (x xs : vec) :
  E net p x = Ok xs ->
  (periods p * (b net - 1) <= 500)%nat ->
  forall i br,
    nth_error (branches net) i = Some br ->
    exists PTDF LODF db dc,
      compute_power_transfer_matrices net x = Ok (PTDF, LODF) /\
      branch_deltas net PTDF LODF 1 (capacity_mw br) i p = Ok (db, dc) /\
      nth_error xs i
      = Some (clip (Qmax (match db with [] => 0 | _ :: _ => list_max db end) 0)
                   0 (capacity_mw br * 2)).
Proof.
  unfold E. intros H Hsmall i br Hbr.
  destruct (rtep_entry _ _ _ _ _ _ H) as (_ & PTDF & LODF & Hptm & Hall).
  destruct (Hall i br Hbr) as (db & dc & c & v & Hd & Hc & Hv & Hnth).
  exists PTDF, LODF, db, dc. split; [exact Hptm |]. split; [exact Hd |].
  rewrite Hnth. f_equal.
  assert (Hi : (i < b net)%nat) by (unfold b; apply nth_error_Some; congruence).
  pose proof (@branch_deltas_count _ _ _ _ _ _ _ _ _ Hd Hi) as Hcount.
  assert (c = 1000000) as ->.
  { unfold default_c_br in Hc. apply nth_error_In, repeat_spec in Hc. exact Hc. }
  unfold branch_update in Hv.
  change (Qceiling (1000000 / (1 * 2000))) with 500%Z in Hv.
  destruct dc as [| d0 dc'].
  - cbn [bind] in Hv. congruence.
  - rewrite length_sorted_desc in Hv.
    replace (Z.ltb 500 (Z.of_nat (length (d0 :: dc')))) with false in Hv
      by (symmetry; apply Z.ltb_ge; lia).
    cbn [bind] in Hv. congruence.
Qed.

Lemma default_rank_ignores_contingency_violations_witness :
  exists PTDF LODF db dc,
    compute_power_transfer_matrices path3 [0; 0] = Ok (PTDF, LODF) /\
    branch_deltas path3 PTDF LODF 1 100 1 p_ni_path3 = Ok (db, dc) /\
    nth_error [0; 30] 1
    = Some (clip (Qmax (match db with [] => 0 | _ :: _ => list_max db end) 0) 0 (100 * 2)).
Proof.
  apply (@default_rank_ignores_contingency_violations path3 p_ni_path3 [0; 0] [0; 30]
           ltac:(vm_compute; reflexivity) ltac:(vm_compute; lia)
           1%nat (mk_branch 1 2 100 (1 # 10)) eq_refl).
Defined.

End CorrMore.

(* ================================================================= *)
(** ** The cycle basis *)

Module CycleMore.

Import Net CycleBasis Facts ArrayFacts NetMore Inv.

Lemma mget_zeros_inv (r c i j : nat) (v : Q) : mget (zeros r c) i j = Ok v -> v = 0.
Proof.
  unfold mget, mrow, zeros. cbn [mdata]. intro H.
  apply bind_ok in H as [row [Hrow H]].
  destruct (nth_error (repeat (repeat 0 c) r) i) as [row' |] eqn:E; [| discriminate].
  injection Hrow as ->.
  apply nth_error_In, repeat_spec in E. subst row.
  destruct (nth_error (repeat 0 c) j) as [v' |] eqn:E'; [| discriminate].
  injection H as <-. apply nth_error_In, repeat_spec in E'. exact E'.
Qed.

Lemma mark_non_tree_marked (es : list nat) :
  forall C k C',
    marked k C -> mark_non_tree C k es = Ok C' ->
    marked (k + length es) C' /\ nrows C' = nrows C /\ ncols C' = ncols C.
Proof.
  induction es as [| e es IH]; intros C k C' HC H.
  - injection H as <-. rewrite Nat.add_0_r. auto.
  - cbn [mark_non_tree] in H. apply bind_ok in H as [C1 [H1 H]].
    destruct HC as (Hwf & H01 & Hzero & Huniq).
    destruct (@mset_wf _ _ _ _ _ Hwf H1) as (Hwf1 & Hr1 & Hc1).
    pose proof (fun i j => @mget_mset _ _ _ _ _ i j Hwf H1) as Hget.
    assert (HC1 : marked (S k) C1).
    { split; [exact Hwf1 |]. split; [| split].
      - intros i j v Hv. rewrite Hget in Hv.
        destruct (andb _ _); [injection Hv as <-; auto | eauto].
      - intros i j v Hi Hv. rewrite Hget in Hv.
        destruct (Nat.eqb_spec i k) as [-> | Hne]; [lia |].
        cbn [andb] in Hv. apply (Hzero i j v); [lia | exact Hv].
      - intros i j1 j2 Ha Hb. rewrite Hget in Ha, Hb.
        destruct (Nat.eqb_spec i k) as [-> | Hne]; cbn [andb] in Ha, Hb.
        + destruct (Nat.eqb_spec j1 e) as [-> | Hn1].
          * destruct (Nat.eqb_spec j2 e) as [-> | Hn2]; [reflexivity |].
            apply Hzero in Hb; [discriminate Hb | lia].
          * apply Hzero in Ha; [discriminate Ha | lia].
        + eapply Huniq; eassumption. }
    destruct (IH _ _ _ HC1 H) as (HC' & Hr & Hc).
    cbn [length]. rewrite Nat.add_succ_r. split; [exact HC' |]. split; congruence.
Qed.

(** X9.  Every row of the matrix returned by
    [compute_fundamental_cycle_basis] holds zeros and at most a single one:
    a row marks its non-tree edge and nothing of the tree path that closes
    the cycle.  The matrix has [b - n + 1] rows and [b] columns. *)
Theorem fundamental_basis_rows_are_single_edges (A C : matrix) :
  compute_fundamental_cycle_basis A = Ok C ->
  Z.of_nat (nrows C) = (Z.of_nat (ncols A) - Z.of_nat (nrows A) + 1)%Z /\
  ncols C = ncols A /\
  (forall i j v, mget C i j = Ok v -> v = 0 \/ v = 1) /\
  (forall i j1 j2, mget C i j1 = Ok 1 -> mget C i j2 = Ok 1 -> j1 = j2).
Proof.
  unfold compute_fundamental_cycle_basis. intro H.
  apply bind_ok in H as [edges [_ H]].
  apply bind_ok in H as [tree [_ H]].
  apply bind_ok in H as [C0 [H0 H]].
  unfold zeros_Z in H0.
  destruct (Z.ltb_spec (Z.of_nat (ncols A) - Z.of_nat (nrows A) + 1) 0) as [Hneg | Hpos];
    [discriminate |].
  injection H0 as <-.
  eapply mark_non_tree_marked in H.
  - destruct H as ((_ & H01 & _ & Huniq) & Hr & Hc).
    cbn [nrows ncols zeros] in Hr, Hc.
    split; [rewrite Hr; apply Z2Nat.id; exact Hpos |].
    split; [exact Hc |]. split; assumption.
  - split; [apply wf_zeros |]. split; [| split].
    + intros i j v Hv. left. eapply mget_zeros_inv. exact Hv.
    + intros i j v _ Hv. eapply mget_zeros_inv. exact Hv.
    + intros i j1 j2 Ha _. apply mget_zeros_inv in Ha. discriminate Ha.
Qed.

Lemma fundamental_basis_rows_are_single_edges_witness :
  compute_fundamental_cycle_basis A_triangle = Ok (Mat 1 3 [[0; 0; 1]]) /\
  Z.of_nat (nrows (Mat 1 3 [[0; 0; 1]])) = 1%Z /\
  (mget (Mat 1 3 [[0; 0; 1]]) 0 2 = Ok 0 \/ mget (Mat 1 3 [[0; 0; 1]]) 0 2 = Ok 1).
Proof.
  assert (H : compute_fundamental_cycle_basis A_triangle = Ok (Mat 1 3 [[0; 0; 1]]))
    by (vm_compute; reflexivity).
  destruct (@fundamental_basis_rows_are_single_edges _ _ H) as (Hr & _ & H01 & _).
  split; [exact H |]. split; [exact Hr |].
  destruct (H01 0%nat 2%nat 1 eq_refl) as [Hv | Hv]; [discriminate Hv | right; reflexivity].
Defined.

(** *** Orientation *)

Section Orientation.

Variable C : matrix.

Lemma oriented_mset (D D' : matrix) (kappa e : nat) (s : Q) :
  oriented C D -> on_cycle C kappa e -> s = 1 \/ s = -1 ->
  mset D kappa e s = Ok D' -> oriented C D'.
Proof.
  intros (Hwf & Hr & Hc & Hent) Hon Hs H.
  destruct (@mset_wf _ _ _ _ _ Hwf H) as (Hwf' & Hr' & Hc').
  split; [exact Hwf' |]. split; [congruence |]. split; [congruence |].
  intros i j v Hv. rewrite (@mget_mset _ _ _ _ _ i j Hwf H) in Hv.
  destruct (andb (Nat.eqb i kappa) (Nat.eqb j e)) eqn:E.
  - apply andb_true_iff in E as [E1 E2].
    apply Nat.eqb_eq in E1, E2. subst i j. injection Hv as <-.
    right. split; assumption.
  - apply Hent. exact Hv.
Qed.

Lemma next_edge_found (A : matrix) (node : nat) (remaining : list nat)
      (e : nat) (s : Q) (next : nat) :
  next_edge A node remaining = Ok (Some (e, s, next)) ->
  In e remaining /\ (s = 1 \/ s = -1).
Proof.
  induction remaining as [| e0 rest IH]; intro H; [discriminate |].
  cbn [next_edge] in H. apply bind_ok in H as [[ef et] [_ H]].
  destruct (Nat.eqb ef node).
  - injection H as <- <- _. split; [left; reflexivity | left; reflexivity].
  - destruct (Nat.eqb et node).
    + injection H as <- <- _. split; [left; reflexivity | right; reflexivity].
    + destruct (IH H) as [Hin Hs]. split; [right; exact Hin | exact Hs].
Qed.

Lemma walk_oriented (A : matrix) (kappa : nat) :
  forall fuel D node remaining D',
    oriented C D -> Forall (on_cycle C kappa) remaining ->
    walk fuel A D kappa node remaining = Ok D' -> oriented C D'.
Proof.
  induction fuel as [| fuel IH]; intros D node remaining D' HD Hrem H.
  - destruct remaining; [injection H as <-; exact HD | discriminate].
  - destruct remaining as [| e0 rest]; [injection H as <-; exact HD |].
    cbn [walk] in H. apply bind_ok in H as [found [Hf H]].
    destruct found as [[[e s] next] |]; [| discriminate].
    apply bind_ok in H as [D1 [H1 H]].
    destruct (next_edge_found _ _ _ Hf) as [Hin Hs].
    rewrite Forall_forall in Hrem.
    eapply IH; [| | exact H].
    + eapply oriented_mset; [exact HD | apply Hrem; exact Hin | exact Hs | exact H1].
    + apply Forall_forall. intros j Hj. apply filter_In in Hj as [Hj _]. auto.
Qed.

Lemma combine_seq_nth (row : vec) :
  forall s j c, In (j, c) (combine (seq s (length row)) row) ->
                (s <= j)%nat /\ nth_error row (j - s) = Some c.
Proof.
  induction row as [| a row IH]; intros s j c H; [destruct H |].
  cbn [length seq combine] in H. destruct H as [H | H].
  - injection H as <- <-. rewrite Nat.sub_diag. split; [lia | reflexivity].
  - destruct (IH _ _ _ H) as [Hle Hn]. split; [lia |].
    replace (j - s)%nat with (S (j - S s)) by lia. exact Hn.
Qed.

Lemma positive_indices_on_cycle (kappa : nat) (row : vec) :
  mrow C kappa = Ok row -> Forall (on_cycle C kappa) (positive_indices row).
Proof.
  intro Hrow. apply Forall_forall. intros j Hj.
  unfold positive_indices in Hj.
  apply in_map_iff in Hj as [[j' c] [Hfst Hin]]. cbn [fst] in Hfst. subst j'.
  apply filter_In in Hin as [Hin Hpos]. cbn [snd] in Hpos.
  apply combine_seq_nth in Hin as [_ Hn]. rewrite Nat.sub_0_r in Hn.
  exists c. split; [| apply Qltb_lt; exact Hpos].
  unfold mget. rewrite Hrow. cbn [bind]. rewrite Hn. reflexivity.
Qed.

Lemma orient_cycle_oriented (A D D' : matrix) (kappa : nat) :
  oriented C D -> orient_cycle A C D kappa = Ok D' -> oriented C D'.
Proof.
  intros HD H. unfold orient_cycle in H.
  apply bind_ok in H as [row [Hrow H]].
  pose proof (positive_indices_on_cycle _ Hrow) as Hon.
  destruct (positive_indices row) as [| e rest]; [injection H as <-; exact HD |].
  apply bind_ok in H as [[f t] [_ H]].
  apply bind_ok in H as [D1 [H1 H]].
  inversion Hon as [| ? ? He Hrest]; subst.
  eapply walk_oriented; [| exact Hrest | exact H].
  eapply oriented_mset; [exact HD | exact He | left; reflexivity | exact H1].
Qed.

Lemma fold_oriented (A : matrix) (l : list nat) :
  forall (acc : res matrix) (D' : matrix),
    fold_left (fun D kappa => D <- D ;; orient_cycle A C D kappa) l acc = Ok D' ->
    (forall D0, acc = Ok D0 -> oriented C D0) -> oriented C D'.
Proof.
  induction l as [| kappa l IH]; intros acc D' H Hacc; cbn [fold_left] in H.
  - apply Hacc. exact H.
  - eapply IH; [exact H |]. intros D1 H1.
    apply bind_ok in H1 as [D0 [H0 H1]].
    eapply orient_cycle_oriented; [apply Hacc; exact H0 | exact H1].
Qed.

End Orientation.

(** X10.  The directed basis returned by [assign_cycle_orientations] has the
    shape of the undirected one, its entries are [-1], [0] or [1], and a
    non-zero entry sits on an edge of the undirected cycle of its row (an
    entry that is positive there): orientation adds no edge to a cycle. *)
Theorem orientation_keeps_support_and_signs (Cu A D : matrix) :
  assign_cycle_orientations Cu A = Ok D ->
  nrows D = nrows Cu /\ ncols D = ncols Cu /\
  forall i j v,
    mget D i j = Ok v ->
    v = 0 \/ ((v = 1 \/ v = -1) /\ exists c, mget Cu i j = Ok c /\ 0 < c).
Proof.
  unfold assign_cycle_orientations. intro H.
  eapply fold_oriented in H.
  - destruct H as (_ & Hr & Hc & Hent). split; [exact Hr |]. split; [exact Hc |].
    exact Hent.
  - intros D0 H0. injection H0 as <-.
    split; [apply wf_zeros |]. split; [reflexivity |]. split; [reflexivity |].
    intros i j v Hv. left. eapply mget_zeros_inv. exact Hv.
Qed.

Lemma orientation_keeps_support_and_signs_witness :
  assign_cycle_orientations (Mat 1 3 [[1; 1; 1]]) A_triangle = Ok (Mat 1 3 [[1; 1; -1]]) /\
  exists c, mget (Mat 1 3 [[1; 1; 1]]) 0 2 = Ok c /\ 0 < c.
Proof.
  assert (H : assign_cycle_orientations (Mat 1 3 [[1; 1; 1]]) A_triangle
              = Ok (Mat 1 3 [[1; 1; -1]])) by (vm_compute; reflexivity).
  split; [exact H |].
  destruct (proj2 (proj2 (@orientation_keeps_support_and_signs _ _ _ H))
                  0%nat 2%nat (-1) eq_refl) as [Hv | [_ Hc]];
    [discriminate Hv | exact Hc].
Defined.


(** *** The whole of [compute_minimal_cycle_basis] *)

Lemma improve_shape (ip : matrix -> nat -> option vec) (C C' : matrix) (kappa : nat) :
  improve ip C kappa = Ok C' -> nrows C' = nrows C /\ ncols C' = ncols C.
Proof.
  unfold improve. intro H. apply bind_ok in H as [row [_ H]].
  destruct (ip C kappa) as [v |]; [| injection H as <-; auto].
  destruct (Qltb _ _); [| injection H as <-; auto].
  destruct (Nat.eqb _ _); [injection H as <-; auto | discriminate].
Qed.

Lemma fold_improve_shape (ip : matrix -> nat -> option vec) (l : list nat) :
  forall (acc : res matrix) (C' : matrix) (r c : nat),
    fold_left (fun C kappa => C <- C ;; improve ip C kappa) l acc = Ok C' ->
    (forall C0, acc = Ok C0 -> nrows C0 = r /\ ncols C0 = c) ->
    nrows C' = r /\ ncols C' = c.
Proof.
  induction l as [| kappa l IH]; intros acc C' r c H Hacc; cbn [fold_left] in H.
  - apply Hacc. exact H.
  - eapply IH; [exact H |]. intros C1 H1.
    apply bind_ok in H1 as [C0 [H0 H1]].
    apply improve_shape in H1 as [Hr Hc].
    destruct (Hacc _ H0) as [Hr0 Hc0]. split; congruence.
Qed.

(** X20.  Whatever the shortest-cycle oracle answers and whatever initial
    basis is passed, a matrix returned by [compute_minimal_cycle_basis] has
    [b - n + 1] rows and [b] columns and all its entries are [-1], [0] or
    [1]. *)
Theorem minimal_cycle_basis_shape_and_signs
        (ip : matrix -> nat -> option vec) (A : matrix) (initial_basis : option matrix)
        (D : matrix) :
  compute_minimal_cycle_basis ip A initial_basis = Ok D ->
  Z.of_nat (nrows D) = (Z.of_nat (ncols A) - Z.of_nat (nrows A) + 1)%Z /\
  ncols D = ncols A /\
  forall i j v, mget D i j = Ok v -> v = -1 \/ v = 0 \/ v = 1.
Proof.
  unfold compute_minimal_cycle_basis. intro H.
  apply bind_ok in H as [C [_ H]].
  destruct (andb _ _) eqn:Eshape in H; cbn [negb] in H; [| discriminate].
  apply andb_true_iff in Eshape as [Er Ec].
  apply Z.eqb_eq in Er. apply Nat.eqb_eq in Ec.
  apply bind_ok in H as [Cu [Hfold H]].
  eapply fold_improve_shape in Hfold;
    [| intros C0 H0; injection H0 as <-; cbn [mabs nrows ncols]; split; reflexivity].
  destruct Hfold as [Hr Hc].
  unfold assign_cycle_orientations in H. eapply fold_oriented in H.
  - destruct H as (_ & HrD & HcD & Hent).
    split; [congruence |]. split; [congruence |].
    intros i j v Hv. destruct (Hent _ _ _ Hv) as [-> | [[-> | ->] _]]; auto.
  - intros D0 H0. injection H0 as <-.
    split; [apply wf_zeros |]. split; [reflexivity |]. split; [reflexivity |].
    intros i j v Hv. left. eapply mget_zeros_inv. exact Hv.
Qed.

Lemma minimal_cycle_basis_shape_and_signs_witness :
  compute_minimal_cycle_basis (fun _ _ => None) A_triangle (Some (Mat 1 3 [[1; 1; 1]]))
  = Ok (Mat 1 3 [[1; 1; -1]]) /\
  Z.of_nat (nrows (Mat 1 3 [[1; 1; -1]])) = 1%Z /\ ncols (Mat 1 3 [[1; 1; -1]]) = 3%nat.
Proof.
  assert (H : compute_minimal_cycle_basis (fun _ _ => None) A_triangle
                                          (Some (Mat 1 3 [[1; 1; 1]]))
              = Ok (Mat 1 3 [[1; 1; -1]])) by (vm_compute; reflexivity).
  destruct (@minimal_cycle_basis_shape_and_signs _ _ _ _ H) as (Hr & Hc & _).
  split; [exact H |]. split; [exact Hr | exact Hc].
Defined.

(** *** Reading the end buses back from the incidence matrix *)

Lemma mcol_spec (M : matrix) (j : nat) :
  wf M -> (j < ncols M)%nat ->
  exists col, mcol M j = Ok col /\ length col = nrows M /\
              forall i v, mget M i j = Ok v -> nth_error col i = Some v.
Proof.
  intros [Hlen _] Hj. unfold mcol.
  destruct (Nat.ltb_spec j (ncols M)) as [_ | Hx]; [| lia].
  eexists. split; [reflexivity |]. split; [rewrite length_map; exact Hlen |].
  intros i v Hv. unfold mget, mrow in Hv.
  apply bind_ok in Hv as [row [Hrow Hv]].
  destruct (nth_error (mdata M) i) as [row' |] eqn:E; [| discriminate].
  injection Hrow as ->.
  destruct (nth_error row j) as [v' |] eqn:E'; [| discriminate]. injection Hv as ->.
  rewrite nth_error_map, E. cbn [option_map]. f_equal.
  apply nth_error_nth. exact E'.
Qed.

Lemma first_index_found (a : Q) (v : vec) :
  forall k,
    (forall i, (i < k)%nat -> exists c, nth_error v i = Some c /\ Qeq_bool c a = false) ->
    (exists c, nth_error v k = Some c /\ Qeq_bool c a = true) ->
    first_index v a = Ok k.
Proof.
  induction v as [| c0 v IH]; intros k Hbefore [c [Hk Hc]].
  - destruct k; discriminate.
  - destruct k as [| k].
    + injection Hk as ->. cbn [first_index]. rewrite Hc. reflexivity.
    + destruct (Hbefore 0%nat ltac:(lia)) as [c1 [H1 H2]]. injection H1 as ->.
      cbn [first_index]. rewrite H2.
      rewrite (IH k); [reflexivity | | exists c; split; assumption].
      intros i Hi. apply (Hbefore (S i)). lia.
Qed.

Lemma first_index_missing (a : Q) (v : vec) :
  Forall (fun c => Qeq_bool c a = false) v -> first_index v a = Raise IndexError.
Proof.
  induction 1 as [| c v Hc _ IH]; [reflexivity |].
  cbn [first_index]. rewrite Hc, IH. reflexivity.
Qed.

(** X11.  The cycle-basis routines read the end buses of branch [j] back
    from column [j] of the incidence matrix.  For a network that was
    constructed this gives back the from-bus and the to-bus of the branch
    when they differ; for a branch from a bus to itself the column has no
    [-1] and the lookup raises [IndexError]. *)
Theorem end_nodes_of_incidence_matrix (net : Network) (A : matrix) (j : nat) (br : Branch) :
  A_br net = Ok A ->
  nth_error (branches net) j = Some br ->
  (from_node br <> to_node br -> end_nodes A j = Ok (from_node br, to_node br)) /\
  (from_node br = to_node br -> end_nodes A j = Raise IndexError).
Proof.
  intros HA Hbr.
  destruct (@incidence_spec _ _ HA) as (Hwf & Hr & Hc & Hall & Hent).
  assert (Hj : (j < ncols A)%nat).
  { rewrite Hc. unfold b. apply nth_error_Some. congruence. }
  destruct (@mcol_spec _ _ Hwf Hj) as (col & Hcol & Hlen & Hnth).
  rewrite Forall_forall in Hall.
  destruct (Hall br (nth_error_In _ _ Hbr)) as [Hf Ht].
  assert (Hval : forall i, (i < n net)%nat ->
             nth_error col i = Some (if Nat.eqb i (to_node br) then 1
                                     else if Nat.eqb i (from_node br) then -1 else 0)).
  { intros i Hi. apply Hnth. apply Hent; assumption. }
  unfold end_nodes. rewrite Hcol. cbn [bind]. split.
  - intro Hne.
    rewrite (@first_index_found (-1) col (from_node br)).
    + cbn [bind]. rewrite (@first_index_found 1 col (to_node br)); [reflexivity | |].
      * intros i Hi. eexists. split; [apply Hval; lia |].
        destruct (Nat.eqb_spec i (to_node br)); [lia |].
        destruct (Nat.eqb i (from_node br)); reflexivity.
      * eexists. split; [apply Hval; lia |]. rewrite Nat.eqb_refl. reflexivity.
    + intros i Hi. eexists. split; [apply Hval; lia |].
      destruct (Nat.eqb i (to_node br)); [reflexivity |].
      destruct (Nat.eqb_spec i (from_node br)); [lia | reflexivity].
    + eexists. split; [apply Hval; lia |].
      destruct (Nat.eqb_spec (from_node br) (to_node br)); [contradiction |].
      rewrite Nat.eqb_refl. reflexivity.
  - intro Heq. rewrite first_index_missing; [reflexivity |].
    apply Forall_forall. intros c Hin. apply In_nth_error in Hin as [i Hi].
    assert (Hlt : (i < n net)%nat).
    { rewrite <- Hr, <- Hlen. apply nth_error_Some. congruence. }
    rewrite (Hval i Hlt) in Hi. injection Hi as <-. rewrite Heq.
    destruct (Nat.eqb i (to_node br)); reflexivity.
Qed.

Lemma end_nodes_of_incidence_matrix_witness :
  end_nodes (Mat 3 2 [[-1; 0]; [1; -1]; [0; 1]]) 1 = Ok (1%nat, 2%nat).
Proof.
  apply (proj1 (@end_nodes_of_incidence_matrix path3 (Mat 3 2 [[-1; 0]; [1; -1]; [0; 1]])
                  1 (mk_branch 1 2 100 (1 # 10))
                  ltac:(vm_compute; reflexivity) eq_refl)).
  cbn. discriminate.
Defined.

End CycleMore.

(* ================================================================= *)
(** ** [solve_lp] *)

Module LpProps.

Import Gurobi Lp Facts Inv.

Lemma add_rows_base (prefix : string) (sn : sense) (A : matrix) (bv : vec)
      (x : var_array) (n : nat) (rows : list nat) :
  forall s s', add_rows s prefix sn A bv x n rows = Ok s' -> base s' = base s.
Proof.
  induction rows as [| i rows IH]; intros s s' H.
  - injection H as <-. reflexivity.
  - cbn [add_rows] in H. apply bind_ok in H as [c [_ H]].
    apply IH in H. exact H.
Qed.

Lemma build_base (c : vec) (A_ub : option matrix) (b_ub : option vec)
      (A_eq : option matrix) (b_eq : option vec)
      (bounds : option (option Q * option Q)) (s : Solver) :
  build c A_ub b_ub A_eq b_eq bounds = Ok s ->
  exists s0, build c None None None None bounds = Ok s0 /\ base s = base s0 /\
             mconstrs (model (base s0)) = [] /\
             length (mvars (model (base s0))) = length c.
Proof.
  unfold build. destruct (match bounds with Some p => p | None => _ end) as [lo up].
  cbn [add_continuous_vars bind]. intro H.
  apply bind_ok in H as [obj [Hobj H]]. rewrite Hobj. cbn [bind].
  apply bind_ok in H as [s1 [H1 H]].
  eexists. split; [reflexivity |].
  assert (Hb1 : base s1 = base (set_objective
             {| base := declare (base new)
                          (map (fun v => VarDecl v lo up)
                               (array_vars (Arr1 (map (fun i => ("x"%string, [i]))
                                                      (seq 0 (length c))))))
                          [("x"%string, Arr1 (map (fun i => ("x"%string, [i]))
                                                  (seq 0 (length c))))];
                constrs := constrs new |} (lin_sum obj))).
  { destruct A_ub as [A |]; [destruct b_ub as [bv |] |].
    - eapply add_rows_base. exact H1.
    - injection H1 as <-. reflexivity.
    - injection H1 as <-. reflexivity. }
  assert (Hb : base s = base s1).
  { destruct A_eq as [A |]; [destruct b_eq as [bv |] |].
    - eapply add_rows_base. exact H.
    - injection H as <-. reflexivity.
    - injection H as <-. reflexivity. }
  split; [congruence |]. split; [reflexivity |].
  cbn. rewrite !length_map, length_seq. reflexivity.
Qed.

(** X12.  [add_constraint] only files a constraint in the dictionary
    [self.constrs]; the model is never told.  Whenever [solve_lp] returns,
    its answer is therefore the answer for the same objective and bounds
    with no constraint at all: [A_ub], [b_ub], [A_eq] and [b_eq] have no
    influence on it, and the model handed to the optimiser has one variable
    per cost coefficient and an empty list of constraints. *)
Theorem solve_lp_ignores_constraints
        (opt : optimizer) (c : vec) (A_ub : option matrix) (b_ub : option vec)
        (A_eq : option matrix) (b_eq : option vec)
        (bounds : option (option Q * option Q)) (r : SolverResult) :
  solve_lp opt c A_ub b_ub A_eq b_eq bounds = Ok r ->
  solve_lp opt c None None None None bounds = Ok r /\
  exists s, build c A_ub b_ub A_eq b_eq bounds = Ok s /\
            r = Gurobi.solve (base s) (opt (model (base s))) /\
            mconstrs (model (base s)) = [] /\
            length (mvars (model (base s))) = length c.
Proof.
  unfold solve_lp. intro H. apply bind_ok in H as [s [Hs H]]. injection H as <-.
  destruct (build_base _ _ _ _ _ _ Hs) as (s0 & H0 & Hb & Hc & Hv).
  rewrite H0. cbn [bind]. rewrite Hb. split; [reflexivity |].
  exists s. split; [exact Hs |]. split; [rewrite Hb; reflexivity |].
  rewrite Hb. split; assumption.
Qed.

(** Minimising [x] subject to [-x <= -5] (that is [x >= 5]) and [x >= 0]:
    the optimiser is asked for the minimum over [x >= 0] and its answer
    [x = 0], which violates the constraint, comes back as optimal. *)
Lemma solve_lp_ignores_constraints_witness :
  exists r,
    solve_lp opt_origin [1] (Some (Mat 1 1 [[-1]])) (Some [-5]) None None None = Ok r /\
    solve_lp opt_origin [1] None None None None None = Ok r /\
    status r = "optimal"%string /\
    solution r = Some [("x"%string, Val1 [0])].
Proof.
  destruct (solve_lp opt_origin [1] (Some (Mat 1 1 [[-1]])) (Some [-5]) None None None)
    as [r | ex] eqn:H; [| vm_compute in H; discriminate H].
  exists r. split; [reflexivity |].
  split; [exact (proj1 (@solve_lp_ignores_constraints _ _ _ _ _ _ _ _ H)) |].
  vm_compute in H. injection H as <-. split; reflexivity.
Defined.

End LpProps.

(* ================================================================= *)
(** ** The operational sub-problem *)

Module OperMore.

Import Net Kernel Gurobi Cap Oper Blocks Placeholder Facts GurobiProps OperProps Inv.

Lemma array_lower_bound (name : string) (r c : nat) (xv : var -> Q) (t j : nat) :
  Forall (in_bounds xv) (array_decls name r c (Some 0)) ->
  (t < r)%nat -> (j < c)%nat -> 0 <= xv (name, [t; j]).
Proof.
  intros H Ht Hj. rewrite Forall_forall in H.
  assert (Hin : In (VarDecl (name, [t; j]) (Some 0) None) (array_decls name r c (Some 0))).
  { unfold array_decls, array_vars, array2.
    apply (in_map (fun v => VarDecl v (Some 0) None)).
    apply in_concat. exists (map (fun j => (name, [t; j])) (seq 0 c)). split.
    - apply (in_map (fun i => map (fun j => (name, [i; j])) (seq 0 c))).
      apply in_seq. lia.
    - apply (in_map (fun j => (name, [t; j]))). apply in_seq. lia. }
  destruct (H _ Hin) as [Hlo _]. exact Hlo.
Qed.

Lemma values_all_ge (name : string) (r c : nat) (xv : var -> Q) :
  Forall (in_bounds xv) (array_decls name r c (Some 0)) ->
  all_ge (values name r c xv) (- (1 # 1000000)) = true.
Proof.
  intro H. apply all_ge_true. unfold values, array2. cbn [mdata].
  apply Forall_forall. intros row Hrow.
  apply in_map_iff in Hrow as [vs [<- Hvs]].
  apply in_map_iff in Hvs as [t [<- Ht]]. apply in_seq in Ht.
  apply Forall_forall. intros a Ha.
  apply in_map_iff in Ha as [v [<- Hv]].
  apply in_map_iff in Hv as [j [<- Hj]]. apply in_seq in Hj.
  pose proof (@array_lower_bound name r c xv t j H ltac:(lia) ltac:(lia)). lra.
Qed.

Lemma post_init_primal (sp : OperationalSubproblem) (xv : var -> Q) :
  Forall (in_bounds xv) (base_decls sp) ->
  post_init (primal sp xv) = Ok (primal sp xv).
Proof.
  unfold base_decls. intro H.
  repeat (apply Forall_app in H; destruct H as [?H H]).
  unfold post_init. cbn [primal Cap.p_g Cap.r_g Cap.p_es Cap.p_chg Cap.p_dis Cap.r_dis
                         Cap.q Cap.p_br Cap.p_dc Cap.p_sh].
  rewrite !values_all_ge by assumption.
  unfold values, array2. cbn [nrows]. rewrite !Nat.eqb_refl. reflexivity.
Qed.

(** X13.  When the optimiser reports an optimal solution of the model and
    that solution is one, [solve] raises nothing, none of the assertions on
    the dispatch fails, and what it returns is the solution read back
    family by family; the reported objective value is the value of the
    model's objective there, and every branch flow is within the capacity
    of its branch. *)
Theorem solve_returns_the_sound_optimum
        (opt : optimizer) (sp : OperationalSubproblem) (x : CapacityDecision)
        (x_em_omega : Q) (s : GurobiSolver) :
  build_model sp x x_em_omega = Ok s ->
  sound_on opt (model s) ->
  Status (opt (model s)) = GRB_OPTIMAL ->
  exists r,
    Oper.solve opt sp x x_em_omega = Ok (r, primal sp (X (opt (model s)))) /\
    status r = "optimal"%string /\
    (exists v, objective_value r = Some v /\
               v == eval (X (opt (model s))) (mobjective (model s))) /\
    branch_limits_hold (params sp) x (primal sp (X (opt (model s)))).
Proof.
  intros Hb Hsound Hst.
  destruct (Hsound Hst) as [[Hfeas _] Hobj].
  destruct (build_model_inv _ _ _ Hb)
    as (obj & gen & em & sto & rsv & flow & cont & H).
  destruct H as (_ & _ & _ & _ & _ & _ & _ & _ & _ & Hvars & _).
  pose proof Hfeas as [Hbounds _]. rewrite Hvars in Hbounds.
  apply Forall_app in Hbounds as [Hbase _].
  destruct (gurobi_solve_optimal s _ Hst) as (H1 & H2 & _).
  exists (Gurobi.solve s (opt (model s))).
  split.
  { rewrite (solve_optimal _ _ _ _ Hb Hst), (post_init_primal _ Hbase). reflexivity. }
  split; [exact H1 |]. split.
  - exists (ObjVal (opt (model s))). split; [exact H2 | exact Hobj].
  - eapply feasible_respects_branch_limits; eassumption.
Qed.


Lemma solve_returns_the_sound_optimum_witness :
  exists sp r,
    init two_bus params_two_bus scenario_two_bus [0] [] = Ok sp /\
    Oper.solve (fun _ => idle_attrs) sp x_zero_two_bus 0
    = Ok (r, primal sp idle_dispatch) /\
    status r = "optimal"%string.
Proof.
  destruct (init two_bus params_two_bus scenario_two_bus [0] [])
    as [sp | ex] eqn:Hinit; [| vm_compute in Hinit; discriminate].
  destruct (build_model sp x_zero_two_bus 0) as [s | ex] eqn:Hbuild.
  2: { exfalso. vm_compute in Hinit. injection Hinit as <-.
       vm_compute in Hbuild. discriminate. }
  pose proof Hbuild as Hb.
  vm_compute in Hinit. injection Hinit as Hsp.
  rewrite <- Hsp in Hb. vm_compute in Hb. injection Hb as Hs.
  assert (Hsound : sound_on (fun _ => idle_attrs) (model s)).
  { intros _. cbn [X ObjVal idle_attrs]. split; [split |].
    - rewrite <- Hs. split; cbn [model mvars mconstrs];
        repeat constructor; vm_compute; discriminate.
    - intros y [Hbd _]. rewrite <- Hs in Hbd |- *. cbn [model mvars mobjective] in Hbd |- *.
      repeat match goal with
             | H : Forall _ (_ :: _) |- _ => inversion H; subst; clear H
             end.
      repeat match goal with
             | H : in_bounds _ _ |- _ => unfold in_bounds in H; cbn in H
             end.
      unfold eval. cbn. lra.
    - rewrite <- Hs. vm_compute. reflexivity. }
  destruct (@solve_returns_the_sound_optimum (fun _ => idle_attrs) sp x_zero_two_bus 0 s
              Hbuild Hsound eq_refl) as (r & Hr & Hstat & _).
  exists sp, r. split; [reflexivity |]. split; [exact Hr | exact Hstat].
Defined.

Lemma solve_reports_every_outcome_aux (s : GurobiSolver) (a : attrs) :
  (status (Gurobi.solve s a) <> "optimal"%string ->
   objective_value (Gurobi.solve s a) = None) /\
  (status (Gurobi.solve s a) <> "optimal"%string -> solution (Gurobi.solve s a) = None).
Proof.
  unfold Gurobi.solve.
  destruct (String.eqb (dict_get status_map (Status a) "unknown"%string) "optimal"%string)
    eqn:E; cbn [objective_value solution status].
  - apply String.eqb_eq in E. split; intro H; contradiction.
  - split; reflexivity.
Qed.

Lemma status_optimal_inv (s : GurobiSolver) (a : attrs) :
  status (Gurobi.solve s a) = "optimal"%string -> Status a = GRB_OPTIMAL.
Proof.
  rewrite status_is_mapped. unfold status_map, dict_get.
  destruct (Z.eqb_spec (Status a) GRB_OPTIMAL) as [H | _]; [intros _; exact H |].
  repeat match goal with
         | |- context [Z.eqb ?x ?y] => destruct (Z.eqb x y); [discriminate |]
         end.
  discriminate.
Qed.

Lemma op_zeros_value (sp : OperationalSubproblem) :
  op_zeros (T sp) (G sp) (S_ sp) (b_br sp) (Net.beta (Oper.network sp)) (D sp)
  = Ok (zero_dispatch sp).
Proof.
  unfold op_zeros, post_init, zero_dispatch.
  cbn [Cap.p_g Cap.r_g Cap.p_es Cap.p_chg Cap.p_dis Cap.r_dis Cap.q Cap.p_br
       Cap.p_dc Cap.p_sh].
  rewrite !BundleProps.all_ge_zeros. unfold zeros. cbn [nrows].
  rewrite !Nat.eqb_refl. reflexivity.
Qed.

(** X19.  When the optimiser ends with any status other than [OPTIMAL],
    [solve] raises nothing: it returns the status string, no objective
    value, no solution, and the all-zero dispatch of the shapes of the
    sub-problem, which a caller cannot tell from a dispatch that was
    computed. *)
Theorem solve_without_optimum_returns_zero_dispatch
        (opt : optimizer) (sp : OperationalSubproblem) (x : CapacityDecision)
        (x_em_omega : Q) (s : GurobiSolver) :
  build_model sp x x_em_omega = Ok s ->
  Status (opt (model s)) <> GRB_OPTIMAL ->
  exists r,
    Oper.solve opt sp x x_em_omega = Ok (r, zero_dispatch sp) /\
    status r <> "optimal"%string /\
    objective_value r = None /\ solution r = None.
Proof.
  intros Hb Hst.
  assert (Hne : status (Gurobi.solve s (opt (model s))) <> "optimal"%string).
  { intro H. apply Hst. eapply status_optimal_inv. exact H. }
  exists (Gurobi.solve s (opt (model s))). split.
  - unfold Oper.solve. rewrite Hb. cbn [bind].
    apply String.eqb_neq in Hne. rewrite Hne, op_zeros_value. reflexivity.
  - split; [exact Hne |].
    destruct (solve_reports_every_outcome_aux s (opt (model s))) as [H1 H2].
    split; [apply H1; exact Hne | apply H2; exact Hne].
Qed.

Lemma solve_without_optimum_returns_zero_dispatch_witness :
  exists sp r,
    init two_bus params_two_bus Bundle.scenario_overload [0] [] = Ok sp /\
    Oper.solve Bundle.opt_infeasible sp x_zero_two_bus 0 = Ok (r, zero_dispatch sp) /\
    status r = "infeasible"%string.
Proof.
  destruct (init two_bus params_two_bus Bundle.scenario_overload [0] [])
    as [sp | ex] eqn:Hinit; [| vm_compute in Hinit; discriminate].
  destruct (build_model sp x_zero_two_bus 0) as [s | ex] eqn:Hbuild.
  2: { exfalso. vm_compute in Hinit. injection Hinit as <-.
       vm_compute in Hbuild. discriminate. }
  destruct (@solve_without_optimum_returns_zero_dispatch Bundle.opt_infeasible
              sp x_zero_two_bus 0 s Hbuild ltac:(discriminate)) as (r & Hr & _).
  exists sp, r. split; [reflexivity |]. split; [exact Hr |].
  unfold Oper.solve in Hr. rewrite Hbuild in Hr. cbn [bind] in Hr.
  apply bind_ok in Hr as [ov [_ Hr]]. injection Hr as <- _. reflexivity.
Defined.

(** X22.  [solve] returns only when every contingency triple [(t, i, j)] of
    the sub-problem names a period below [T] and two branches below [b]: a
    triple out of range stops it with an exception before the optimiser is
    called. *)
Theorem solve_checks_contingency_indices
        (opt : optimizer) (sp : OperationalSubproblem) (x : CapacityDecision)
        (x_em_omega : Q) (r : SolverResult * OperationalVariables) :
  Oper.solve opt sp x x_em_omega = Ok r ->
  Forall (fun c => (fst (fst c) < T sp)%nat /\ (snd (fst c) < b_br sp)%nat /\
                   (snd c < b_br sp)%nat)
         (contingencies sp).
Proof.
  unfold Oper.solve. intro H. apply bind_ok in H as [s [Hb _]].
  destruct (build_model_inv _ _ _ Hb)
    as (obj & gen & em & sto & rsv & flow & cont & H).
  destruct H as (_ & _ & _ & _ & _ & _ & Hcont & _).
  assert (H' : contingencies sp = [] \/ _add_contingency_constraints sp x = Ok cont).
  { destruct (contingencies sp); [left; reflexivity | right; exact Hcont]. }
  destruct H' as [-> | Hc]; [constructor |].
  unfold _add_contingency_constraints in Hc.
  apply bind_ok in Hc as [bc [_ Hc]].
  apply bind_ok in Hc as [rows [Hrows _]].
  apply Forall_forall. intros [[t i] j] Hin. cbn [fst snd].
  destruct (mapM_In _ _ _ Hrows Hin) as [y [Hy _]].
  unfold contingency_rows in Hy.
  apply bind_ok in Hy as [v1 [H1 Hy]].
  apply bind_ok in Hy as [lam [_ Hy]].
  apply bind_ok in Hy as [v3 [H3 _]].
  unfold arr_get in H1, H3.
  destruct (andb (Nat.ltb t (T sp)) (Nat.ltb i (b_br sp))) eqn:E1; [| discriminate].
  destruct (andb (Nat.ltb t (T sp)) (Nat.ltb j (b_br sp))) eqn:E3; [| discriminate].
  apply andb_true_iff in E1 as [Et Ei]. apply andb_true_iff in E3 as [_ Ej].
  apply Nat.ltb_lt in Et, Ei, Ej. auto.
Qed.

Lemma solve_checks_contingency_indices_witness :
  exists sp r,
    init path3 params_path3 scenario_two_bus [0; 0] [(0, 0, 1)%nat] = Ok sp /\
    Oper.solve (fun _ => idle_attrs) sp x_path3 0 = Ok r /\
    (0 < T sp)%nat /\ (1 < b_br sp)%nat.
Proof.
  destruct (init path3 params_path3 scenario_two_bus [0; 0] [(0, 0, 1)%nat])
    as [sp | ex] eqn:Hinit; [| vm_compute in Hinit; discriminate].
  destruct (Oper.solve (fun _ => idle_attrs) sp x_path3 0) as [r | ex] eqn:Hsolve.
  2: { exfalso. vm_compute in Hinit. injection Hinit as <-.
       vm_compute in Hsolve. discriminate. }
  exists sp, r. split; [reflexivity |]. split; [exact Hsolve |].
  pose proof (@solve_checks_contingency_indices _ _ _ _ _ Hsolve) as Hall.
  assert (Hc : contingencies sp = [(0, 0, 1)%nat]).
  { vm_compute in Hinit. injection Hinit as <-. reflexivity. }
  rewrite Hc in Hall. inversion Hall as [| c l (Ht & _ & Hj) _]; subst.
  cbn [fst snd] in Ht, Hj. split; [exact Ht | exact Hj].
Defined.

(** *** The blocks of the model *)

Lemma among_app (names l1 l2 : list string) :
  among names (l1 ++ l2) = andb (among names l1) (among names l2).
Proof. apply forallb_app. Qed.

Lemma expr_names_add (e1 e2 : linexpr) :
  expr_names (lin_add e1 e2) = expr_names e1 ++ expr_names e2.
Proof. unfold expr_names, lin_add. cbn [terms]. apply map_app. Qed.

Lemma expr_names_fold (es : list linexpr) :
  forall e0, expr_names (fold_left lin_add es e0)
             = expr_names e0 ++ concat (map expr_names es).
Proof.
  induction es as [| e es IH]; intro e0; cbn [fold_left map concat].
  - rewrite app_nil_r. reflexivity.
  - rewrite IH, expr_names_add, <- app_assoc. reflexivity.
Qed.

Lemma among_lin_sum (names : list string) (es : list linexpr) :
  Forall (fun e => among names (expr_names e) = true) es ->
  among names (expr_names (lin_sum es)) = true.
Proof.
  intro H. unfold lin_sum. rewrite expr_names_fold. cbn [expr_names lin_const terms map app].
  induction H as [| e es He _ IH]; [reflexivity |].
  cbn [map concat]. rewrite among_app, He, IH. reflexivity.
Qed.

Lemma among_In (names l : list string) (nm : string) :
  among names l = true -> In nm l -> In nm names.
Proof.
  intros H Hin. unfold among in H. rewrite forallb_forall in H.
  specialize (H nm Hin). apply existsb_exists in H as [nm' [Hin' Heq]].
  apply String.eqb_eq in Heq. subst. exact Hin'.
Qed.

Lemma block_of_names (blk : list string) (c : constr) :
  blk = generation_block \/ blk = storage_block \/ blk = network_block ->
  uses_only blk c = true -> in_one_block c = true.
Proof.
  unfold in_one_block. intros [-> | [-> | ->]] H; rewrite H;
    rewrite ?orb_true_r; reflexivity.
Qed.

Ltac block_row :=
  first [ apply (@block_of_names generation_block); [auto | reflexivity]
        | apply (@block_of_names storage_block); [auto | reflexivity]
        | apply (@block_of_names network_block); [auto | reflexivity] ].

Lemma generation_rows_block sp x l :
  generation_constraints sp x = Ok l -> Forall (fun c => in_one_block c = true) l.
Proof.
  unfold generation_constraints. intro H.
  apply bind_ok in H as [tc [_ H]].
  apply bind_ok in H as [per_t [Hper H]]. injection H as <-.
  apply Forall_concat.
  eapply mapM_Forall; [exact Hper |].
  intros t y _ Hy. cbv beta in Hy.
  apply bind_ok in Hy as [caps [Hcaps Hy]].
  apply bind_ok in Hy as [ramps [Hramps Hy]]. injection Hy as <-.
  apply Forall_app. split.
  - eapply mapM_Forall; [exact Hcaps |].
    intros g c _ Hc. cbv beta in Hc.
    apply bind_ok in Hc as [a [_ Hc]].
    apply bind_ok in Hc as [cap [_ Hc]]. injection Hc as <-. block_row.
  - apply Forall_concat. destruct (Nat.ltb 0 t).
    + eapply mapM_Forall; [exact Hramps |].
      intros g c _ Hc. cbv beta in Hc.
      apply bind_ok in Hc as [a [_ Hc]].
      apply bind_ok in Hc as [cap [_ Hc]]. injection Hc as <-.
      constructor; [block_row |]. constructor; [block_row | constructor].
    + injection Hramps as <-. constructor.
Qed.

Lemma emissions_rows_block sp xem l :
  emissions_constraint sp xem = Ok l -> Forall (fun c => in_one_block c = true) l.
Proof.
  unfold emissions_constraint. intro H.
  apply bind_ok in H as [es [Hes H]]. injection H as <-.
  constructor; [| constructor].
  apply (@block_of_names generation_block); [auto |].
  unfold uses_only, row_names. cbn [lhs rhs]. rewrite among_app.
  rewrite among_lin_sum; [reflexivity |].
  apply Forall_concat.
  eapply mapM_Forall; [exact Hes |].
  intros t y _ Hy. cbv beta in Hy.
  eapply mapM_Forall; [exact Hy |].
  intros g e _ He. cbv beta in He.
  apply bind_ok in He as [eg [_ He]]. injection He as <-. reflexivity.
Qed.

Lemma storage_rows_block sp x l :
  storage_constraints sp x = Ok l -> Forall (fun c => in_one_block c = true) l.
Proof.
  unfold storage_constraints. intro H.
  apply bind_ok in H as [pc [_ H]].
  apply bind_ok in H as [ec [_ H]].
  apply bind_ok in H as [per_ts [Hper H]].
  apply bind_ok in H as [cont [Hcont H]]. injection H as <-.
  apply Forall_app. split.
  - apply Forall_concat, Forall_concat.
    eapply mapM_Forall; [exact Hper |].
    intros t y _ Hy. cbv beta in Hy.
    eapply mapM_Forall; [exact Hy |].
    intros s c _ Hc. cbv beta in Hc.
    apply bind_ok in Hc as [a [_ Hc]].
    apply bind_ok in Hc as [cap [_ Hc]]. injection Hc as <-.
    destruct (Nat.eqb t 0);
      repeat (constructor; [apply (@block_of_names storage_block); [auto | reflexivity] |]);
      constructor.
  - eapply mapM_Forall; [exact Hcont |].
    intros s c _ Hc. cbv beta in Hc.
    apply bind_ok in Hc as [a [_ Hc]].
    destruct (T sp); [discriminate |]. injection Hc as <-.
    apply (@block_of_names storage_block); [auto | reflexivity].
Qed.

Lemma reserve_rows_block sp l :
  reserve_constraints sp = Ok l -> Forall (fun c => in_one_block c = true) l.
Proof.
  unfold reserve_constraints. intro H.
  eapply mapM_Forall; [exact H |].
  intros t c _ Hc. cbv beta in Hc.
  apply bind_ok in Hc as [a [_ Hc]]. injection Hc as <-.
  apply (@block_of_names generation_block); [auto |].
  unfold uses_only, row_names. cbn [lhs rhs]. rewrite among_app.
  rewrite expr_names_add, among_app.
  rewrite !among_lin_sum; [reflexivity | |];
    apply Forall_map, Forall_forall; intros k _; reflexivity.
Qed.

Lemma flow_rows_block sp x l :
  _add_power_flow_constraints sp x = Ok l -> Forall (fun c => in_one_block c = true) l.
Proof.
  unfold _add_power_flow_constraints. intro H.
  apply bind_ok in H as [bc [_ H]].
  apply bind_ok in H as [per_t [Hper H]]. injection H as <-.
  apply Forall_concat, Forall_concat.
  eapply mapM_Forall; [exact Hper |].
  intros t y _ Hy. cbv beta in Hy.
  eapply mapM_Forall; [exact Hy |].
  intros j c _ Hc. cbv beta in Hc.
  apply bind_ok in Hc as [cap [_ Hc]]. injection Hc as <-.
  repeat (constructor; [apply (@block_of_names network_block); [auto | reflexivity] |]);
    constructor.
Qed.

Lemma contingency_rows_block sp x l :
  match contingencies sp with
  | [] => Ok []
  | _ => _add_contingency_constraints sp x
  end = Ok l -> Forall (fun c => in_one_block c = true) l.
Proof.
  intro H.
  assert (H' : l = [] \/ _add_contingency_constraints sp x = Ok l).
  { destruct (contingencies sp); [left; congruence | right; exact H]. }
  destruct H' as [-> | H']; [constructor |]. clear H.
  unfold _add_contingency_constraints in H'.
  apply bind_ok in H' as [bc [_ H]].
  apply bind_ok in H as [rows [Hrows H]]. injection H as <-.
  apply Forall_concat.
  eapply mapM_Forall; [exact Hrows |].
  intros [[t i] j] y _ Hy. unfold contingency_rows in Hy.
  apply bind_ok in Hy as [v1 [_ Hy]].
  apply bind_ok in Hy as [lam [_ Hy]].
  apply bind_ok in Hy as [v3 [_ Hy]].
  apply bind_ok in Hy as [cap [_ Hy]]. injection Hy as <-.
  repeat (constructor; [apply (@block_of_names network_block); [auto | reflexivity] |]);
    constructor.
Qed.

Lemma objective_block_names sp obj :
  objective sp = Ok obj -> among objective_block (expr_names obj) = true.
Proof.
  unfold objective. intro H.
  apply bind_ok in H as [gen [Hgen H]]. injection H as <-.
  apply among_lin_sum. apply Forall_app. split; [| apply Forall_app; split].
  - apply Forall_concat.
    eapply mapM_Forall; [exact Hgen |].
    intros t y _ Hy. cbv beta in Hy.
    eapply mapM_Forall; [exact Hy |].
    intros g e _ He. cbv beta in He.
    apply bind_ok in He as [c [_ He]]. injection He as <-. reflexivity.
  - apply Forall_concat, Forall_map, Forall_forall. intros t _.
    apply Forall_map, Forall_forall. intros d _. reflexivity.
  - apply Forall_map, Forall_forall. intros [[t i] j] _. reflexivity.
Qed.

(** X14.  Every row of the model built by [solve] mentions the variables of
    one block only: generation and reserve ([p_g], [r_g], [r_dis]), storage
    ([p_es], [p_chg], [p_dis], [r_dis], [q]) or network ([p_br], [s_c]).
    So no row ties a branch flow to generation, storage or shedding, and
    load shedding [p_sh] and the HVDC flow [p_dc] occur in no row at all;
    the objective mentions nothing but [p_g], [p_sh] and [s_c]. *)
Theorem model_rows_stay_in_one_block
        (sp : OperationalSubproblem) (x : CapacityDecision) (x_em_omega : Q)
        (s : GurobiSolver) :
  build_model sp x x_em_omega = Ok s ->
  Forall (fun c => in_one_block c = true /\
                   ~ In "p_sh"%string (row_names c) /\
                   ~ In "p_dc"%string (row_names c) /\
                   (In "p_br"%string (row_names c) -> uses_only network_block c = true))
         (mconstrs (model s)) /\
  among objective_block (expr_names (mobjective (model s))) = true.
Proof.
  intro Hb.
  destruct (build_model_inv _ _ _ Hb)
    as (obj & gen & em & sto & rsv & flow & cont & H).
  destruct H as (Hobj & Hgen & Hem & Hsto & Hrsv & Hflow & Hcont & Ho & Hc & _).
  split; [| rewrite Ho; eapply objective_block_names; exact Hobj].
  assert (Hall : Forall (fun c => in_one_block c = true) (mconstrs (model s))).
  { rewrite Hc. repeat (apply Forall_app; split).
    - eapply generation_rows_block; exact Hgen.
    - eapply emissions_rows_block; exact Hem.
    - eapply storage_rows_block; exact Hsto.
    - eapply reserve_rows_block; exact Hrsv.
    - eapply flow_rows_block; exact Hflow.
    - eapply contingency_rows_block; exact Hcont. }
  eapply Forall_impl; [| exact Hall].
  intros c Hblock. split; [exact Hblock |].
  unfold in_one_block in Hblock.
  apply orb_true_iff in Hblock as [Hg | Hblock];
    [| apply orb_true_iff in Hblock as [Hs | Hn]].
  - split; [| split].
    + intro Hin. apply (among_In _ _ _ Hg) in Hin. cbn in Hin. intuition discriminate.
    + intro Hin. apply (among_In _ _ _ Hg) in Hin. cbn in Hin. intuition discriminate.
    + intro Hin. apply (among_In _ _ _ Hg) in Hin. cbn in Hin. intuition discriminate.
  - split; [| split].
    + intro Hin. apply (among_In _ _ _ Hs) in Hin. cbn in Hin. intuition discriminate.
    + intro Hin. apply (among_In _ _ _ Hs) in Hin. cbn in Hin. intuition discriminate.
    + intro Hin. apply (among_In _ _ _ Hs) in Hin. cbn in Hin. intuition discriminate.
  - split; [| split].
    + intro Hin. apply (among_In _ _ _ Hn) in Hin. cbn in Hin. intuition discriminate.
    + intro Hin. apply (among_In _ _ _ Hn) in Hin. cbn in Hin. intuition discriminate.
    + intros _. exact Hn.
Qed.


Lemma model_rows_stay_in_one_block_witness :
  exists sp s,
    init two_bus params_two_bus scenario_two_bus [0] [] = Ok sp /\
    build_model sp x_zero_two_bus 0 = Ok s /\
    Forall (fun c => ~ In "p_sh"%string (row_names c)) (mconstrs (model s)).
Proof.
  destruct (init two_bus params_two_bus scenario_two_bus [0] [])
    as [sp | ex] eqn:Hinit; [| vm_compute in Hinit; discriminate].
  destruct (build_model sp x_zero_two_bus 0) as [s | ex] eqn:Hbuild.
  2: { exfalso. vm_compute in Hinit. injection Hinit as <-.
       vm_compute in Hbuild. discriminate. }
  exists sp, s. split; [reflexivity |]. split; [exact Hbuild |].
  destruct (@model_rows_stay_in_one_block sp x_zero_two_bus 0 s Hbuild) as [H _].
  eapply Forall_impl; [| exact H]. intros c (_ & Hc & _). exact Hc.
Defined.

End OperMore.

(* ================================================================= *)
(** ** Invariants of the bundle loop *)

Module BundleMore.

Import Net Gurobi Cap Oper Bundle Facts BundleProps CorrMore Inv.

Lemma set_last_theta_lev_snoc (its : list BundleIteration) (it : BundleIteration) (th : Q) :
  set_last_theta_lev (its ++ [it]) th
  = its ++ [{| k := k it; x_k := x_k it; f_k := f_k it; L_k := L_k it;
               gap := gap it; theta_lev_k := th |}].
Proof.
  unfold set_last_theta_lev. rewrite rev_app_distr. cbn [rev app].
  rewrite rev_involutive. reflexivity.
Qed.

Lemma same_setup_refl (a : BundleMethod) : same_setup a a.
Proof. repeat split. Qed.

Lemma same_setup_trans (a c d : BundleMethod) :
  same_setup a c -> same_setup c d -> same_setup a d.
Proof.
  unfold same_setup. intros H1 H2.
  destruct H1 as (?&?&?&?&?&?&?&?), H2 as (?&?&?&?&?&?&?&?).
  repeat split; congruence.
Qed.

Lemma same_setup_zero (a c : BundleMethod) :
  same_setup a c -> zero_decision a = zero_decision c.
Proof.
  intros (Hn & _ & Hs & Hp & _). unfold zero_decision. rewrite Hn, Hs, Hp. reflexivity.
Qed.

(** What one pass does to the state. *)
Lemma iteration_state opt hat kk st st' broke :
  iteration opt hat kk st = Ok (st', broke) ->
  exists rs f it,
    Forall2 (fun omega r =>
               solve_scenario opt (self_ st) (cur_x st) hat omega = Ok (self_ st, r))
            (seq 0 (length (scenarios (self_ st)))) rs /\
    same_setup (self_ st') (self_ st) /\
    iterations (self_ st') = iterations (self_ st) ++ [it] /\
    k it = kk /\ x_k it = cur_x st /\ f_k it = f /\
    cur_U st' = Fin (ext_min (cur_U st) f) /\
    x_star st' = (if Qeq_bool (ext_min (cur_U st) f) f then Some (cur_x st)
                  else x_star st) /\
    cur_x st' = (if broke then cur_x st else zero_decision (self_ st)) /\
    cutting_planes (self_ st')
    = append_cuts (cutting_planes (self_ st))
                  (map (fun r => fst (fst r)) rs) (map (fun r => snd (fst r)) rs).
Proof.
  unfold iteration, _solve_subproblems. intro H.
  apply bind_ok in H as [[self [[theta g] sigma]] [H1 H]].
  apply bind_ok in H1 as [[self0 rs] [H1 H2]].
  injection H2 as <- <- <- <-.
  apply solve_scenarios_spec in H1 as [-> HF].
  apply bind_ok in H as [inv_cost [Hc H]].
  exists rs.
  destruct (Qltb _ _) eqn:E in H; injection H as <- <-.
  - eexists. eexists. split; [exact HF |].
    cbn [self_ cur_U x_star cur_x iterations cutting_planes with_iterations
         with_cutting_planes].
    split; [repeat split |].
    split; [reflexivity |]. cbn [k x_k f_k]. repeat split.
  - eexists. eexists. split; [exact HF |].
    cbn [self_ cur_U x_star cur_x iterations cutting_planes with_iterations
         with_cutting_planes].
    split; [repeat split |].
    split; [apply set_last_theta_lev_snoc |]. cbn [k x_k f_k]. repeat split.
Qed.


Lemma firstn_seq_le (n : nat) :
  forall s m, (n <= m)%nat -> firstn n (seq s m) = seq s n.
Proof.
  induction n as [| n IH]; intros s m H; [reflexivity |].
  destruct m as [| m]; [lia |]. cbn [seq firstn]. f_equal. apply IH. lia.
Qed.

Lemma ext_min_facts (U : ext) (f : Q) :
  ext_min U f <= f /\
  (forall u0, U = Fin u0 -> ext_min U f <= u0) /\
  (ext_min U f = f \/ U = Fin (ext_min U f)).
Proof.
  destruct U as [u0 |]; cbn [ext_min].
  - split; [apply Qmin_le_r |]. split.
    + intros u1 H. injection H as <-. apply Qmin_le_l.
    + unfold Qmin. destruct (Qle_bool u0 f); [right | left]; reflexivity.
  - split; [lra |]. split; [discriminate | left; reflexivity].
Qed.

Lemma Qeq_bool_refl' (a : Q) : Qeq_bool a a = true.
Proof. apply Qeq_bool_iff. reflexivity. Qed.

(** The state after the loop, from a state whose iterate is the zero
    decision. *)
Lemma loop_state opt hat :
  forall ks st st',
    loop opt hat ks st = Ok st' ->
    cur_x st = zero_decision (self_ st) ->
    cur_U st = PInf \/ x_star st = Some (zero_decision (self_ st)) ->
    same_setup (self_ st') (self_ st) /\
    exists new,
      iterations (self_ st') = iterations (self_ st) ++ new /\
      map k new = firstn (length new) ks /\
      (length new <= length ks)%nat /\
      (ks <> [] -> new <> []) /\
      Forall (fun it => x_k it = zero_decision (self_ st)) new /\
      (new = [] -> st' = st) /\
      (new <> [] ->
       exists u, cur_U st' = Fin u /\
                 x_star st' = Some (zero_decision (self_ st)) /\
                 Forall (fun it => u <= f_k it) new /\
                 (forall u0, cur_U st = Fin u0 -> u <= u0) /\
                 (Exists (fun it => u = f_k it) new \/ cur_U st = Fin u)).
Proof.
  induction ks as [| kk ks IH]; intros st st' H Hx Hstar.
  - injection H as <-. split; [apply same_setup_refl |].
    exists []. rewrite app_nil_r. repeat split; try constructor; try congruence.
  - cbn [loop] in H. apply bind_ok in H as [[st1 broke] [Hit H]].
    destruct (iteration_state _ _ _ _ Hit)
      as (rs & f & it & _ & Hsetup & Hits & Hk & Hxk & Hf & HU & Hxs & Hcx & _).
    destruct (ext_min_facts (cur_U st) f) as (Hle & Hprev & Hatt).
    assert (Hstar1 : x_star st1 = Some (zero_decision (self_ st))).
    { rewrite Hxs. destruct Hstar as [HP | HS].
      - rewrite HP. cbn [ext_min]. rewrite Qeq_bool_refl', Hx. reflexivity.
      - destruct (Qeq_bool _ _); [rewrite Hx; reflexivity | exact HS]. }
    destruct broke.
    + injection H as <-. split; [exact Hsetup |].
      exists [it]. split; [exact Hits |]. cbn [map length firstn].
      split; [rewrite Hk; reflexivity |]. split; [lia |].
      split; [intros _; discriminate |].
      split; [constructor; [congruence | constructor] |].
      split; [discriminate |]. intros _.
      exists (ext_min (cur_U st) f). split; [exact HU |]. split; [exact Hstar1 |].
      split; [constructor; [rewrite Hf; exact Hle | constructor] |].
      split; [exact Hprev |].
      destruct Hatt as [Ha | Ha]; [left; constructor; congruence | right; exact Ha].
    + assert (Hz : zero_decision (self_ st1) = zero_decision (self_ st))
        by (apply same_setup_zero; exact Hsetup).
      destruct (IH _ _ H) as (Hsetup' & new & Hits' & Hks & Hlen & Hne & Hxs' & Hnil & Hcons).
      { rewrite Hcx, Hz. reflexivity. }
      { right. rewrite Hz. exact Hstar1. }
      split; [eapply same_setup_trans; eassumption |].
      exists (it :: new). split; [rewrite Hits', Hits, <- app_assoc; reflexivity |].
      cbn [map length firstn]. split; [rewrite Hk, Hks; reflexivity |].
      split; [lia |]. split; [intros _; discriminate |].
      split; [constructor; [congruence | rewrite <- Hz; exact Hxs'] |].
      split; [discriminate |]. intros _.
      destruct new as [| it' new'].
      * specialize (Hnil eq_refl). subst st'.
        exists (ext_min (cur_U st) f). split; [exact HU |]. split; [exact Hstar1 |].
        split; [constructor; [rewrite Hf; exact Hle | constructor] |].
        split; [exact Hprev |].
        destruct Hatt as [Ha | Ha]; [left; constructor; congruence | right; exact Ha].
      * destruct (Hcons ltac:(discriminate)) as (u & HU' & Hst' & Hall & Hprev' & Hatt').
        pose proof (Hprev' _ HU) as Hu1.
        exists u. split; [exact HU' |]. split; [rewrite <- Hz; exact Hst' |].
        split; [constructor; [rewrite Hf; lra | exact Hall] |].
        split; [intros u0 H0; pose proof (Hprev _ H0); lra |].
        destruct Hatt' as [Ha' | Ha'].
        -- left. apply Exists_cons_tl. exact Ha'.
        -- rewrite HU in Ha'. injection Ha' as Ha'.
           destruct Hatt as [Ha | Ha].
           ++ left. apply Exists_cons_hd. congruence.
           ++ right. rewrite <- Ha'. exact Ha.
Qed.

(** *** The cost and the record of a pass *)

Lemma solve_scenario_setup opt a c x hat omega r :
  same_setup a c ->
  solve_scenario opt a x hat omega = Ok (a, r) ->
  solve_scenario opt c x hat omega = Ok (c, r).
Proof.
  intros (Hn & _ & Hs & Hp & _ & _ & _ & Hc) H.
  unfold solve_scenario in *. rewrite <- Hn, <- Hs, <- Hp, <- Hc.
  apply bind_ok in H as [scn [Hscn H]]. rewrite Hscn. cbn [bind].
  apply bind_ok in H as [conts [Hconts H]]. rewrite Hconts. cbn [bind].
  apply bind_ok in H as [sp [Hsp H]]. rewrite Hsp. cbn [bind].
  apply bind_ok in H as [xem [Hxem H]]. rewrite Hxem. cbn [bind].
  apply bind_ok in H as [[result ov] [Hres H]]. rewrite Hres. cbn [bind].
  destruct (String.eqb (status result) "optimal").
  - apply bind_ok in H as [theta [Hth H]]. rewrite Hth. cbn [bind].
    match type of H with
    | Ok (_, ?v) = _ => assert (r = v) as -> by congruence
    end.
    f_equal. f_equal.
    unfold _identify_violated_contingencies, set_update. cbn [fold_left].
    rewrite (list_set_same _ _ (of_option_ok _ _ Hconts)), Hc.
    destruct c. reflexivity.
  - match type of H with
    | Ok (_, ?v) = _ => assert (r = v) as -> by congruence
    end.
    reflexivity.
Qed.

Lemma solve_scenarios_rebuild opt c x hat :
  forall omegas rs,
    Forall2 (fun omega r => solve_scenario opt c x hat omega = Ok (c, r)) omegas rs ->
    solve_scenarios opt c x hat omegas = Ok (c, rs).
Proof.
  induction 1 as [| omega r omegas rs Hr _ IH]; [reflexivity |].
  cbn [solve_scenarios]. rewrite Hr. cbn [bind]. rewrite IH. reflexivity.
Qed.

Lemma total_cost_of_pass opt s s0 x hat rs inv_cost :
  same_setup s s0 ->
  Forall2 (fun omega r => solve_scenario opt s x hat omega = Ok (s, r))
          (seq 0 (length (scenarios s))) rs ->
  calculate_cost (costs s) x = Ok inv_cost ->
  total_cost opt s0 x hat
  = Ok (inv_cost + vsum (map (fun ts => fst ts + snd ts)
                             (combine (map (fun r => fst (fst r)) rs) (map snd rs)))).
Proof.
  intros Hsetup HF Hc.
  assert (HF0 : Forall2 (fun omega r => solve_scenario opt s0 x hat omega = Ok (s0, r))
                        (seq 0 (length (scenarios s0))) rs).
  { pose proof Hsetup as (_ & _ & Hs & _). rewrite <- Hs.
    eapply Forall2_impl; [| exact HF]. intros omega r Hr.
    eapply solve_scenario_setup; [exact Hsetup | exact Hr]. }
  destruct Hsetup as (_ & Hcosts & _).
  unfold total_cost, _solve_subproblems.
  rewrite (@solve_scenarios_rebuild _ _ _ _ _ _ HF0). cbn [bind]. rewrite <- Hcosts, Hc. reflexivity.
Qed.

Lemma total_cost_setup opt a c x hat f :
  same_setup a c -> total_cost opt a x hat = Ok f -> total_cost opt c x hat = Ok f.
Proof.
  intros Hsetup H. unfold total_cost, _solve_subproblems in H.
  apply bind_ok in H as [[a1 [[theta g] sigma]] [H1 H]].
  apply bind_ok in H1 as [[a2 rs] [H1 H2]]. injection H2 as <- <- <- <-.
  apply solve_scenarios_spec in H1 as [-> HF].
  apply bind_ok in H as [inv_cost [Hc H]]. injection H as <-.
  eapply total_cost_of_pass; eassumption.
Qed.

(** The record that one pass appends, and the state it leaves. *)
Lemma iteration_record opt hat kk st st' broke :
  iteration opt hat kk st = Ok (st', broke) ->
  exists it,
    same_setup (self_ st') (self_ st) /\
    iterations (self_ st') = iterations (self_ st) ++ [it] /\
    k it = kk /\ x_k it = cur_x st /\
    total_cost opt (self_ st) (cur_x st) hat = Ok (f_k it) /\
    L_k it = 0 /\
    gap it = relative_gap (ext_min (cur_U st) (f_k it)) 0 /\
    broke = Qltb (gap it) (epsilon (self_ st)) /\
    cur_U st' = Fin (ext_min (cur_U st) (f_k it)) /\
    x_star st' = (if Qeq_bool (ext_min (cur_U st) (f_k it)) (f_k it)
                  then Some (cur_x st) else x_star st).
Proof.
  intro H. pose proof H as H'.
  unfold iteration, _solve_subproblems in H.
  apply bind_ok in H as [[self [[theta g] sigma]] [H1 H]].
  apply bind_ok in H1 as [[self0 rs] [H1 H2]].
  injection H2 as <- <- <- <-.
  apply solve_scenarios_spec in H1 as [-> HF].
  apply bind_ok in H as [inv_cost [Hc H]].
  pose proof (@total_cost_of_pass opt _ _ _ hat rs inv_cost
                (same_setup_refl (self_ st)) HF Hc) as Htc.
  unfold _solve_master_problem in H.
  cbn [epsilon with_iterations with_cutting_planes] in H.
  destruct (Qltb _ _) eqn:E in H; injection H as <- <-.
  - eexists.
    cbn [self_ cur_U x_star cur_x iterations cutting_planes with_iterations
         with_cutting_planes].
    split; [repeat split |]. split; [reflexivity |].
    cbn [k x_k f_k L_k gap]. rewrite E.
    repeat split; try reflexivity. exact Htc.
  - eexists.
    cbn [self_ cur_U x_star cur_x iterations cutting_planes with_iterations
         with_cutting_planes].
    split; [repeat split |]. split; [apply set_last_theta_lev_snoc |].
    cbn [k x_k f_k L_k gap]. rewrite E.
    repeat split; try reflexivity. exact Htc.
Qed.

(** X15.  Whatever the scenarios, the costs and the optimiser, a call of
    [BundleMethod.solve] that returns after at least one pass returns the
    zero decision (no investment at all) with a finite upper bound: the
    start is the zero decision and so is every later iterate.  With
    [max_iterations = 0] it returns [None] and infinity and leaves the
    engine as it was. *)
Theorem bundle_solve_returns_the_zero_decision
        (opt : optimizer) (self self' : BundleMethod) (hat : vec)
        (star : option CapacityDecision) (U : ext) :
  Bundle.solve opt self hat = Ok (self', (star, U)) ->
  (max_iterations self = 0%nat -> self' = self /\ star = None /\ U = PInf) /\
  (max_iterations self <> 0%nat ->
   star = Some (zero_decision self) /\ exists u, U = Fin u).
Proof.
  unfold Bundle.solve. intro H. apply bind_ok in H as [st [Hloop H]].
  injection H as <- <- <-. split.
  - intro Hm. rewrite Hm in Hloop. injection Hloop as <-. repeat split.
  - intro Hm.
    destruct (@loop_state opt hat _ _ _ Hloop eq_refl (or_introl eq_refl))
      as (_ & new & _ & _ & _ & Hne & _ & _ & Hcons).
    destruct (Hcons (Hne ltac:(destruct (max_iterations self);
                                [congruence | discriminate])))
      as (u & HU & Hst & _).
    split; [exact Hst | exists u; exact HU].
Qed.

Lemma bundle_solve_returns_the_zero_decision_witness :
  exists self' star U,
    Bundle.solve opt_idle (engine scenario_two_bus default_epsilon 5) [0]
    = Ok (self', (star, U)) /\
    star = Some (CapacityDecision_zeros 1 0 1 1).
Proof.
  destruct (Bundle.solve opt_idle (engine scenario_two_bus default_epsilon 5) [0])
    as [[self' [star U]] | ex] eqn:H; [| vm_compute in H; discriminate H].
  exists self', star, U. split; [reflexivity |].
  apply (proj2 (@bundle_solve_returns_the_zero_decision _ _ _ _ _ _ H)).
  discriminate.
Defined.

(** X16.  [solve] never changes a contingency set: the search for violated
    contingencies finds nothing, so the sets handed to the sub-problems are
    those the engine started with.  For an engine fresh from the
    constructor they are all empty, and stay so. *)
Theorem bundle_solve_adds_no_contingency
        (opt : optimizer) (self self' : BundleMethod) (hat : vec)
        (r : option CapacityDecision * ext) :
  Bundle.solve opt self hat = Ok (self', r) ->
  Bundle.contingencies self' = Bundle.contingencies self /\
  (forall net ic scns prm a e m,
      self = Bundle.init net ic scns prm a e m ->
      Forall (fun cs => cs = []) (Bundle.contingencies self')).
Proof.
  unfold Bundle.solve. intro H. apply bind_ok in H as [st [Hloop H]].
  injection H as <- <-.
  destruct (@loop_state opt hat _ _ _ Hloop eq_refl (or_introl eq_refl))
    as ((_ & _ & _ & _ & _ & _ & _ & Hc) & _).
  cbn [start self_] in Hc. split; [exact Hc |].
  intros net ic scns prm a e m ->. rewrite Hc. cbn [Bundle.init Bundle.contingencies].
  apply Forall_map, Forall_forall. intros scn _. reflexivity.
Qed.

Lemma bundle_solve_adds_no_contingency_witness :
  exists self' r,
    Bundle.solve opt_idle (engine scenario_two_bus default_epsilon 5) [0]
    = Ok (self', r) /\
    Bundle.contingencies self' = [[]].
Proof.
  destruct (Bundle.solve opt_idle (engine scenario_two_bus default_epsilon 5) [0])
    as [[self' r] | ex] eqn:H; [| vm_compute in H; discriminate H].
  exists self', r. split; [reflexivity |].
  exact (proj1 (@bundle_solve_adds_no_contingency _ _ _ _ _ H)).
Defined.

(** X17.  The history and the upper bound.  A call of [solve] with at least
    one pass appends one record per pass to [self.iterations], numbered
    [1, 2, ...] and at most [max_iterations] of them, each at the zero
    decision; the upper bound it returns is the least cost [f_k] among the
    records of this call (when the history was empty at the start: among
    all records). *)
Theorem bundle_upper_bound_is_least_recorded_cost
        (opt : optimizer) (self self' : BundleMethod) (hat : vec)
        (star : option CapacityDecision) (U : ext) :
  Bundle.solve opt self hat = Ok (self', (star, U)) ->
  max_iterations self <> 0%nat ->
  exists new u,
    iterations self' = iterations self ++ new /\
    new <> [] /\ (length new <= max_iterations self)%nat /\
    map k new = seq 1 (length new) /\
    Forall (fun it => x_k it = zero_decision self) new /\
    U = Fin u /\
    Forall (fun it => u <= f_k it) new /\
    Exists (fun it => u = f_k it) new.
Proof.
  unfold Bundle.solve. intros H Hm. apply bind_ok in H as [st [Hloop H]].
  injection H as <- <- <-.
  destruct (@loop_state opt hat _ _ _ Hloop eq_refl (or_introl eq_refl))
    as (_ & new & Hits & Hk & Hlen & Hne & Hx & _ & Hcons).
  assert (Hnew : new <> []).
  { apply Hne. destruct (max_iterations self); [congruence | discriminate]. }
  destruct (Hcons Hnew) as (u & HU & _ & Hall & _ & Hatt).
  rewrite length_seq in Hlen.
  exists new, u. split; [exact Hits |]. split; [exact Hnew |]. split; [exact Hlen |].
  split; [rewrite Hk; apply firstn_seq_le; exact Hlen |].
  split; [exact Hx |]. split; [exact HU |]. split; [exact Hall |].
  destruct Hatt as [Ha | Ha]; [exact Ha | discriminate Ha].
Qed.

Lemma bundle_upper_bound_is_least_recorded_cost_witness :
  exists self' star U new u,
    Bundle.solve opt_credit (engine scenario_credit 0 3) [0] = Ok (self', (star, U)) /\
    iterations self' = new /\ map k new = seq 1 (length new) /\ U = Fin u /\
    Forall (fun it => u <= f_k it) new.
Proof.
  destruct (Bundle.solve opt_credit (engine scenario_credit 0 3) [0])
    as [[self' [star U]] | ex] eqn:H; [| vm_compute in H; discriminate H].
  destruct (@bundle_upper_bound_is_least_recorded_cost _ _ _ _ _ _ H ltac:(discriminate))
    as (new & u & Hits & _ & _ & Hk & _ & HU & Hall & _).
  exists self', star, U, new, u. split; [reflexivity |].
  split; [exact Hits |]. split; [exact Hk |]. split; [exact HU | exact Hall].
Defined.


(** *** The cutting planes *)

Lemma solve_scenario_subgradient opt self x_k hat omega self' r :
  solve_scenario opt self x_k hat omega = Ok (self', r) ->
  snd (fst r) = zero_subgradient x_k.
Proof.
  unfold solve_scenario. intro H.
  apply bind_ok in H as [scn [_ H]].
  apply bind_ok in H as [conts [_ H]].
  apply bind_ok in H as [sp [_ H]].
  apply bind_ok in H as [xem [_ H]].
  apply bind_ok in H as [[result ov] [_ H]].
  destruct (String.eqb (status result) "optimal").
  - apply bind_ok in H as [theta [_ H]]. injection H as _ <-. reflexivity.
  - injection H as _ <-. reflexivity.
Qed.

Lemma length_append_cuts (cp : list (list cut)) (theta_k : list Q) (g_k : list vec) :
  length theta_k = length cp -> length g_k = length cp ->
  length (append_cuts cp theta_k g_k) = length cp.
Proof.
  intros H1 H2. unfold append_cuts.
  rewrite length_map, !length_combine, H1, H2, !Nat.min_id. reflexivity.
Qed.

Lemma iteration_cuts opt hat kk st st' broke :
  iteration opt hat kk st = Ok (st', broke) ->
  length (cutting_planes (self_ st)) = length (scenarios (self_ st)) ->
  length (cutting_planes (self_ st')) = length (scenarios (self_ st')) /\
  forall omega old,
    nth_error (cutting_planes (self_ st)) omega = Some old ->
    exists c, nth_error (cutting_planes (self_ st')) omega = Some (old ++ [c]) /\
              snd c = zero_subgradient (cur_x st).
Proof.
  intros Hit Hlen.
  destruct (iteration_state _ _ _ _ Hit)
    as (rs & f & it & HF & Hsetup & _ & _ & _ & _ & _ & _ & _ & Hcp).
  assert (Hrs : length rs = length (scenarios (self_ st))).
  { apply Forall2_length in HF. rewrite length_seq in HF. congruence. }
  destruct Hsetup as (_ & _ & Hscn & _).
  rewrite Hcp. split.
  - rewrite length_append_cuts; rewrite ?length_map; congruence.
  - intros omega old Hold.
    assert (Ho : (omega < length (scenarios (self_ st)))%nat).
    { rewrite <- Hlen. apply nth_error_Some. congruence. }
    destruct (Forall2_nth_error HF omega (nth_error_seq 0 Ho)) as [r [Hr Hsolve]].
    exists (fst (fst r), snd (fst r)). split.
    + apply append_cuts_nth; [exact Hold | |]; rewrite nth_error_map, Hr; reflexivity.
    + cbn [snd]. eapply solve_scenario_subgradient. exact Hsolve.
Qed.

Lemma loop_cuts opt hat :
  forall ks st st',
    loop opt hat ks st = Ok st' ->
    cur_x st = zero_decision (self_ st) ->
    length (cutting_planes (self_ st)) = length (scenarios (self_ st)) ->
    exists newits,
      iterations (self_ st') = iterations (self_ st) ++ newits /\
      forall omega old,
        nth_error (cutting_planes (self_ st)) omega = Some old ->
        exists newcuts,
          nth_error (cutting_planes (self_ st')) omega = Some (old ++ newcuts) /\
          length newcuts = length newits /\
          Forall (fun c => snd c = zero_subgradient (zero_decision (self_ st))) newcuts.
Proof.
  induction ks as [| kk ks IH]; intros st st' H Hx Hlen.
  - injection H as <-. exists []. rewrite app_nil_r. split; [reflexivity |].
    intros omega old Hold. exists []. rewrite app_nil_r.
    split; [exact Hold |]. split; [reflexivity | constructor].
  - cbn [loop] in H. apply bind_ok in H as [[st1 broke] [Hit H]].
    destruct (iteration_state _ _ _ _ Hit)
      as (_ & _ & it & _ & Hsetup & Hits & _ & _ & _ & _ & _ & Hcx & _).
    destruct (iteration_cuts _ _ _ _ Hit Hlen) as [Hlen1 Hcut].
    assert (Hz : zero_decision (self_ st1) = zero_decision (self_ st))
      by (apply same_setup_zero; exact Hsetup).
    destruct broke.
    + injection H as <-. exists [it]. split; [exact Hits |].
      intros omega old Hold. destruct (Hcut _ _ Hold) as [c [Hc Hg]].
      exists [c]. split; [exact Hc |]. split; [reflexivity |].
      constructor; [cbv beta; congruence | constructor].
    + destruct (IH _ _ H) as (newits & Hits' & Hcuts').
      { rewrite Hcx, Hz. reflexivity. }
      { exact Hlen1. }
      exists (it :: newits). split; [rewrite Hits', Hits, <- app_assoc; reflexivity |].
      intros omega old Hold. destruct (Hcut _ _ Hold) as [c [Hc Hg]].
      destruct (Hcuts' _ _ Hc) as (newcuts & Hn & Hl & Hall).
      exists (c :: newcuts). split; [rewrite Hn, <- app_assoc; reflexivity |].
      split; [cbn [length]; congruence |].
      constructor; [cbv beta; congruence | rewrite <- Hz; exact Hall].
Qed.

(** X18.  Every pass of [solve] appends exactly one cutting plane to each
    scenario, and each of them carries the zero subgradient: the cuts are
    constants and tell the master problem nothing about the effect of any
    investment.  The cuts already collected are kept in front. *)
Theorem bundle_cuts_are_constant
        (opt : optimizer) (self self' : BundleMethod) (hat : vec)
        (r : option CapacityDecision * ext) :
  Bundle.solve opt self hat = Ok (self', r) ->
  length (cutting_planes self) = length (scenarios self) ->
  exists newits,
    iterations self' = iterations self ++ newits /\
    forall omega old,
      nth_error (cutting_planes self) omega = Some old ->
      exists newcuts,
        nth_error (cutting_planes self') omega = Some (old ++ newcuts) /\
        length newcuts = length newits /\
        Forall (fun c => snd c = zero_subgradient (zero_decision self)) newcuts /\
        Forall (fun c => Forall (fun a => a = 0) (snd c)) newcuts.
Proof.
  unfold Bundle.solve. intros H Hlen. apply bind_ok in H as [st [Hloop H]].
  injection H as <- <-.
  destruct (@loop_cuts opt hat _ _ _ Hloop eq_refl Hlen) as (newits & Hits & Hcuts).
  exists newits. split; [exact Hits |].
  intros omega old Hold. destruct (Hcuts _ _ Hold) as (newcuts & Hn & Hl & Hall).
  exists newcuts. split; [exact Hn |]. split; [exact Hl |]. split; [exact Hall |].
  eapply Forall_impl; [| exact Hall]. intros c Hc. cbv beta in Hc |- *. unfold vec in Hc. rewrite Hc.
  unfold zero_subgradient. apply Forall_forall. intros a Ha.
  apply repeat_spec in Ha. exact Ha.
Qed.

Lemma bundle_cuts_are_constant_witness :
  exists self' r newcuts,
    Bundle.solve opt_credit (engine scenario_credit 0 3) [0] = Ok (self', r) /\
    nth_error (cutting_planes self') 0 = Some newcuts /\
    length newcuts = length (iterations self') /\
    Forall (fun c => Forall (fun a => a = 0) (snd c)) newcuts.
Proof.
  destruct (Bundle.solve opt_credit (engine scenario_credit 0 3) [0])
    as [[self' r] | ex] eqn:H; [| vm_compute in H; discriminate H].
  destruct (@bundle_cuts_are_constant _ _ _ _ _ H eq_refl) as (newits & Hits & Hcuts).
  destruct (Hcuts 0%nat [] eq_refl) as (newcuts & Hn & Hl & _ & Hz).
  exists self', r, newcuts. split; [reflexivity |]. split; [exact Hn |].
  split; [rewrite Hits; exact Hl | exact Hz].
Defined.

(** *** The whole run of [solve] *)

Lemma loop_trace opt hat :
  forall ks st st',
    loop opt hat ks st = Ok st' ->
    same_setup (self_ st') (self_ st) /\
    exists new,
      iterations (self_ st') = iterations (self_ st) ++ new /\
      map k new = firstn (length new) ks /\
      (length new <= length ks)%nat /\
      (ks <> [] -> new <> []) /\
      (forall j it,
          nth_error new j = Some it ->
          exists u,
            total_cost opt (self_ st) (x_k it) hat = Ok (f_k it) /\
            upper_bound (cur_U st) (firstn (S j) (map f_k new)) = Fin u /\
            L_k it = 0 /\
            gap it = relative_gap u (L_k it) /\
            (gap it < epsilon (self_ st) -> S j = length new) /\
            (S j = length new ->
             gap it < epsilon (self_ st) \/ length new = length ks)) /\
      cur_U st' = upper_bound (cur_U st) (map f_k new) /\
      x_star st' = incumbent (cur_U st) (x_star st) new.
Proof.
  induction ks as [| kk ks IH]; intros st st' H.
  - injection H as <-. split; [apply same_setup_refl |].
    exists []. rewrite app_nil_r. repeat split; try reflexivity.
    + congruence.
    + intros j it Hj. destruct j; discriminate Hj.
  - cbn [loop] in H. apply bind_ok in H as [[st1 broke] [Hit H]].
    destruct (iteration_record _ _ _ _ Hit)
      as (it & Hsetup & Hits & Hk & Hxk & Htc & HL & Hgap & Hb & HU & Hxs).
    assert (Hinc : x_star st1
                   = (if Qeq_bool (ext_min (cur_U st) (f_k it)) (f_k it)
                      then Some (x_k it) else x_star st))
      by (rewrite Hxk; exact Hxs).
    destruct broke.
    + injection H as <-. split; [exact Hsetup |].
      exists [it]. split; [exact Hits |]. cbn [map length firstn].
      split; [rewrite Hk; reflexivity |]. split; [lia |].
      split; [intros _; discriminate |]. split; [| split].
      * intros j it' Hj. destruct j as [| j]; [| destruct j; discriminate Hj].
        injection Hj as <-. exists (ext_min (cur_U st) (f_k it)).
        split; [rewrite Hxk; exact Htc |]. split; [reflexivity |].
        split; [exact HL |]. split; [rewrite HL; exact Hgap |].
        split; [reflexivity |]. intros _. left. apply Qltb_lt. symmetry. exact Hb.
      * exact HU.
      * cbn [incumbent]. exact Hinc.
    + destruct (IH _ _ H)
        as (Hsetup' & new & Hits' & Hks & Hlen & Hne & Hrec & HU' & Hxs').
      assert (Heps : epsilon (self_ st1) = epsilon (self_ st))
        by (destruct Hsetup as (_ & _ & _ & _ & _ & He & _); exact He).
      split; [eapply same_setup_trans; eassumption |].
      exists (it :: new). split; [rewrite Hits', Hits, <- app_assoc; reflexivity |].
      cbn [map length firstn]. split; [rewrite Hk, Hks; reflexivity |].
      split; [lia |]. split; [intros _; discriminate |]. split; [| split].
      * intros j it' Hj. destruct j as [| j].
        -- injection Hj as <-. exists (ext_min (cur_U st) (f_k it)).
           split; [rewrite Hxk; exact Htc |]. split; [reflexivity |].
           split; [exact HL |]. split; [rewrite HL; exact Hgap |].
           split.
           ++ intro Hlt. apply Qltb_lt in Hlt. congruence.
           ++ intro Hone. right.
              destruct new as [| it1 new1]; [| cbn [length] in Hone; lia].
              destruct ks as [| k1 ks1]; [reflexivity |].
              exfalso. apply Hne; [discriminate | reflexivity].
        -- cbn [nth_error] in Hj.
           destruct (Hrec _ _ Hj) as (u & Htc' & Hu & HL' & Hg' & Hfirst & Hlast).
           exists u. split; [eapply total_cost_setup; eassumption |].
           split; [cbn [upper_bound]; rewrite <- HU; exact Hu |].
           split; [exact HL' |]. split; [exact Hg' |]. rewrite <- Heps.
           split; [intro Hlt; f_equal; apply Hfirst; exact Hlt |].
           intro Hl. injection Hl as Hl.
           destruct (Hlast Hl) as [Hlt | Hcap]; [left; exact Hlt | right; lia].
      * cbn [upper_bound]. rewrite <- HU. exact HU'.
      * cbn [incumbent]. rewrite <- HU, <- Hinc. exact Hxs'.
Qed.

Lemma upper_bound_fin (fs : list Q) :
  forall u0, exists u, upper_bound (Fin u0) fs = Fin u.
Proof.
  induction fs as [| f fs IH]; intro u0; [exists u0; reflexivity |].
  cbn [upper_bound]. apply IH.
Qed.

Lemma upper_bound_le (fs : list Q) :
  forall U u,
    upper_bound U fs = Fin u ->
    Forall (fun f => u <= f) fs /\ (forall u0, U = Fin u0 -> u <= u0).
Proof.
  induction fs as [| f fs IH]; intros U u H; cbn [upper_bound] in H.
  - split; [constructor |]. intros u0 H0. rewrite H0 in H. injection H as ->. lra.
  - destruct (IH _ _ H) as [Hall Hprev].
    pose proof (Hprev _ eq_refl) as Hu.
    destruct (ext_min_facts U f) as (Hf & HU & _).
    split; [constructor; [lra | exact Hall] |].
    intros u0 H0. pose proof (HU _ H0). lra.
Qed.

(** The incumbent is an iterate whose cost is the upper bound, unless no
    pass improved on the bound the loop started with. *)
Lemma incumbent_attains (its : list BundleIteration) :
  forall U star,
    (exists j it u,
        nth_error its j = Some it /\
        incumbent U star its = Some (x_k it) /\
        upper_bound U (map f_k its) = Fin u /\ f_k it == u) \/
    (incumbent U star its = star /\ upper_bound U (map f_k its) = U /\ U <> PInf \/
     its = []).
Proof.
  induction its as [| it rest IH]; intros U star; [right; right; reflexivity |].
  cbn [incumbent upper_bound map].
  destruct (Qeq_bool (ext_min U (f_k it)) (f_k it)) eqn:E.
  - left. destruct (IH (Fin (ext_min U (f_k it))) (Some (x_k it)))
      as [(j & it' & u & Hj & Hi & Hu & Hf) | [(Hi & Hu & _) | ->]].
    + exists (S j), it', u. repeat split; assumption.
    + exists 0%nat, it, (ext_min U (f_k it)).
      split; [reflexivity |]. split; [exact Hi |]. split; [exact Hu |].
      apply Qeq_bool_iff in E. symmetry. exact E.
    + exists 0%nat, it, (ext_min U (f_k it)).
      split; [reflexivity |]. split; [reflexivity |]. split; [reflexivity |].
      apply Qeq_bool_iff in E. symmetry. exact E.
  - assert (HU : U = Fin (ext_min U (f_k it))).
    { destruct U as [u0 |]; cbn [ext_min] in *.
      - unfold Qmin in *. destruct (Qle_bool u0 (f_k it)); [reflexivity |].
        rewrite Qeq_bool_refl' in E. discriminate E.
      - rewrite Qeq_bool_refl' in E. discriminate E. }
    destruct (IH (Fin (ext_min U (f_k it))) star)
      as [(j & it' & u & Hj & Hi & Hu & Hf) | [(Hi & Hu & _) | ->]].
    + left. exists (S j), it', u. repeat split; assumption.
    + right. left. split; [exact Hi |]. split; [rewrite Hu; symmetry; exact HU |].
      rewrite HU. discriminate.
    + right. left. cbn [incumbent upper_bound map].
      split; [reflexivity |]. split; [symmetry; exact HU |]. rewrite HU. discriminate.
Qed.

(** C4 (as amended).  A call of [BundleMethod.solve] that returns has run
    passes [1, 2, ...], at most [max_iterations] of them, and recorded each
    in [self.iterations] with the cost [f_k] of its iterate [x_k], the
    running upper bound [U_k = min(U_(k-1), f_k)] (from infinity), the lower
    bound [L_k] of the master problem and the gap
    [(U_k - L_k) / U_k] if [U_k > 0], [0] otherwise.  The pass in which this
    gap is strictly below [epsilon] is the last one, and a last pass before
    the cap has such a gap: the loop stops before the cap exactly when the
    gap falls below [epsilon].  What is returned is the final upper bound and
    the incumbent, which each pass replaces by its iterate when the cost of
    that iterate attains the running bound: an iterate of the run whose cost
    is the final bound, the least cost recorded ([None] and infinity when no
    pass is run). *)
Theorem bundle_solve_stops_at_first_small_gap
        (opt : optimizer) (self self' : BundleMethod) (hat : vec)
        (star : option CapacityDecision) (U : ext) :
  Bundle.solve opt self hat = Ok (self', (star, U)) ->
  exists its,
    iterations self' = iterations self ++ its /\
    map k its = seq 1 (length its) /\
    (length its <= max_iterations self)%nat /\
    (max_iterations self <> 0%nat -> its <> []) /\
    (forall j it,
        nth_error its j = Some it ->
        exists u,
          total_cost opt self (x_k it) hat = Ok (f_k it) /\
          upper_bound PInf (firstn (S j) (map f_k its)) = Fin u /\
          L_k it = _solve_master_problem self (x_k it) /\
          (0 < u -> gap it = (u - L_k it) / u) /\
          (u <= 0 -> gap it = 0) /\
          (gap it < epsilon self -> S j = length its) /\
          (S j = length its ->
           gap it < epsilon self \/ length its = max_iterations self)) /\
    U = upper_bound PInf (map f_k its) /\
    star = incumbent PInf None its /\
    (its = [] -> star = None /\ U = PInf) /\
    (its <> [] ->
     exists j it u,
       nth_error its j = Some it /\ star = Some (x_k it) /\
       U = Fin u /\ f_k it == u /\
       Forall (fun it' => u <= f_k it') its).
Proof.
  unfold Bundle.solve. intro H. apply bind_ok in H as [st [Hloop H]].
  injection H as <- <- <-.
  destruct (loop_trace _ _ _ _ Hloop)
    as (_ & its & Hits & Hk & Hlen & Hne & Hrec & HU & Hstar).
  cbn [start self_ cur_U x_star] in Hits, Hrec, HU, Hstar.
  rewrite length_seq in Hlen.
  exists its. split; [exact Hits |].
  split; [rewrite Hk; apply firstn_seq_le; exact Hlen |].
  split; [exact Hlen |]. split.
  { intro Hm. apply Hne. destruct (max_iterations self); [congruence | discriminate]. }
  split.
  { intros j it Hj. destruct (Hrec _ _ Hj) as (u & Htc & Hu & HL & Hg & Hfirst & Hlast).
    exists u. split; [exact Htc |]. split; [exact Hu |]. split; [exact HL |].
    rewrite length_seq in Hlast.
    unfold relative_gap in Hg. split; [| split; [| split; [exact Hfirst | exact Hlast]]].
    - intro Hpos. apply Qltb_lt in Hpos. rewrite Hpos in Hg. exact Hg.
    - intro Hnp. apply Qltb_ge in Hnp. rewrite Hnp in Hg. exact Hg. }
  split; [exact HU |]. split; [exact Hstar |]. split.
  { intros ->. cbn in HU, Hstar. split; assumption. }
  intro Hnon.
  destruct (incumbent_attains its PInf None)
    as [(j & it & u & Hj & Hi & Hu & Hf) | [(_ & _ & Hp) | ->]];
    [| congruence | congruence].
  exists j, it, u. split; [exact Hj |]. split; [congruence |].
  split; [congruence |]. split; [exact Hf |].
  destruct (upper_bound_le _ _ Hu) as [Hall _].
  apply Forall_forall. intros it' Hin. rewrite Forall_forall in Hall.
  apply Hall. apply in_map. exact Hin.
Qed.

(** The idle two-bus engine: the first pass costs 0, its gap is 0, below
    the default [epsilon], and [solve] returns after that pass with the
    zero decision and the upper bound 0. *)
Lemma bundle_solve_stops_at_first_small_gap_witness :
  exists self' star u it,
    Bundle.solve opt_idle (engine scenario_two_bus default_epsilon 5) [0]
    = Ok (self', (star, Fin u)) /\
    iterations self' = [it] /\ k it = 1%nat /\
    gap it < epsilon (engine scenario_two_bus default_epsilon 5) /\
    star = Some (x_k it) /\ f_k it == u.
Proof.
  destruct (Bundle.solve opt_idle (engine scenario_two_bus default_epsilon 5) [0])
    as [[self' [star U]] | ex] eqn:H; [| vm_compute in H; discriminate H].
  destruct (@bundle_solve_stops_at_first_small_gap _ _ _ _ _ _ H)
    as (its & Hits & Hk & _ & _ & _ & _ & _ & _ & Hinc).
  assert (Hlen : length (iterations self') = 1%nat).
  { vm_compute in H. injection H as <- _ _. reflexivity. }
  cbn [engine Bundle.init iterations app] in Hits. rewrite Hits in Hlen.
  destruct its as [| it [| it2 rest]]; try discriminate Hlen.
  destruct (Hinc ltac:(discriminate)) as (j & it' & u & Hj & Hs & HU & Hf & _).
  destruct j as [| j]; [| destruct j; discriminate Hj]. injection Hj as <-.
  subst U. exists self', star, u, it.
  split; [reflexivity |]. split; [exact Hits |].
  split; [injection Hk as Hk; exact Hk |]. split; [| split; [exact Hs | exact Hf]].
  vm_compute in H. injection H as H1 _ _. rewrite <- H1 in Hits.
  cbn [iterations] in Hits. injection Hits as <-. vm_compute. reflexivity.
Defined.

End BundleMore.
